(** * NOI parse pipeline: status machine, progress ledger, record derivation
      and photo matching

    A shallow embedding of
    - [src/lib/status-transitions.ts]   (violation status allow-list),
    - [src/lib/parse-logger.ts]         (ParseLogger: in-memory buffers and
                                         the read-merge-write [flush]),
    - the [parseNOI] workflow function  (its step bodies and their order),
    - [src/lib/ai/gemini.ts]            (what the two calls resolve with),
    - the parse route and the import route, the violation list (route and
      table), and the pages around a run: upload zone, column mapping of
      the CSV import, progress bar and photo groups,
    together with the facts about them that the specification states, and
    further facts that the code shows.

    Conventions.  A JavaScript string value is the list of its UTF-16 code
    units ([jsstring]); object keys, which are identifiers of the program
    text, are Rocq strings.  Calls to the record store succeed unless a
    definition takes an explicit outcome for them. *)

From Stdlib Require Import QArith DecimalString.
From stdpp Require Import base numbers option list strings gmap.

Local Close Scope Q_scope.
Local Open Scope Z_scope.

(** ** JavaScript string values *)

Module Js.

Abbreviation jsstring := (list N).

(** An ASCII literal of the program text as a string value. *)
Definition lit (s : string) : jsstring :=
  Ascii.N_of_ascii <$> String.list_ascii_of_string s.

(** ToBoolean on a string: only the empty string is falsy. *)
Definition truthy (s : jsstring) : bool :=
  match s with [] => false | _ :: _ => true end.

(** ToBoolean on [string | null | undefined]. *)
Definition truthy_opt (o : option jsstring) : bool :=
  match o with Some s => truthy s | None => false end.

(** [Array.prototype.findIndex]: index of the first element satisfying the
    predicate, [None] standing for -1. *)
Definition findIndex {A} (P : A -> bool) (l : list A) : option nat :=
  fst <$> list_find (fun x => Is_true (P x)) l.

(** [Array.prototype.find]. *)
Definition find {A} (P : A -> bool) (l : list A) : option A :=
  snd <$> list_find (fun x => Is_true (P x)) l.

Definition streq (a b : jsstring) : bool := bool_decide (a = b).

(** *** Code units *)

(** WhiteSpace and LineTerminator code units: what [\s] matches and what
    [trim], [parseInt] and [parseFloat] strip. *)
Definition isWhiteSpace (c : N) : bool :=
  ((9 <=? c) && (c <=? 13) || (c =? 32) || (c =? 160) || (c =? 5760)
   || (8192 <=? c) && (c <=? 8202) || (c =? 8232) || (c =? 8233)
   || (c =? 8239) || (c =? 8287) || (c =? 12288) || (c =? 65279))%N.

Definition isDigit (c : N) : bool := ((48 <=? c) && (c <=? 57))%N.

(** Value of a digit of radix 16 or less, [None] for any other code unit. *)
Definition hexValue (c : N) : option Z :=
  if isDigit c then Some (Z.of_N c - 48)
  else if ((97 <=? c) && (c <=? 102))%N then Some (Z.of_N c - 87)
  else if ((65 <=? c) && (c <=? 70))%N then Some (Z.of_N c - 55)
  else None.

Definition radixValue (R : Z) (c : N) : option Z :=
  match hexValue c with
  | Some v => if v <? R then Some v else None
  | None => None
  end.

Fixpoint dropWhile {A} (P : A -> bool) (l : list A) : list A :=
  match l with
  | [] => []
  | x :: l' => if P x then dropWhile P l' else l
  end.

Fixpoint takeWhile {A} (P : A -> bool) (l : list A) : list A :=
  match l with
  | [] => []
  | x :: l' => if P x then x :: takeWhile P l' else []
  end.

(** *** String.prototype methods *)

(** [s.split(sep)] for a separator of one code unit. *)
Fixpoint split (sep : N) (s : jsstring) : list jsstring :=
  match s with
  | [] => [[]]
  | c :: s' =>
      if (c =? sep)%N then [] :: split sep s'
      else match split sep s' with
           | p :: ps => (c :: p) :: ps
           | [] => [[c]]
           end
  end.

(** [s.padStart(2, '0')] *)
Definition padStart2 (s : jsstring) : jsstring :=
  match s with
  | [] => [48; 48]%N
  | [c] => [48; c]%N
  | _ => s
  end.

(** [s.replace(/[$,]/g, '')] *)
Definition strip_dollar_comma (s : jsstring) : jsstring :=
  List.filter (fun c => negb ((c =? 36) || (c =? 44))%N) s.

(** [s.replace(/\s+/g, ' ')]: every maximal run of white space becomes one
    space; [in_run] tells that the previous code unit was white space. *)
Fixpoint replace_ws_runs (in_run : bool) (s : jsstring) : jsstring :=
  match s with
  | [] => []
  | c :: s' =>
      if isWhiteSpace c
      then if in_run then replace_ws_runs true s'
           else 32%N :: replace_ws_runs true s'
      else c :: replace_ws_runs false s'
  end.

Definition trimStart (s : jsstring) : jsstring := dropWhile isWhiteSpace s.

(** [s.trim()] *)
Definition trim (s : jsstring) : jsstring :=
  rev (dropWhile isWhiteSpace (rev (trimStart s))).

(** [String.prototype.toLowerCase] on the code units below 256 (Basic Latin
    and Latin-1 Supplement), where the mapping is one code unit to one code
    unit.  Above that range the Unicode tables decide; see
    [MatchPhotos], which takes the method as a parameter. *)
Definition latin1_lower (c : N) : N :=
  if ((65 <=? c) && (c <=? 90))%N then (c + 32)%N
  else if ((192 <=? c) && (c <=? 222) && negb (c =? 215))%N then (c + 32)%N
  else c.

Definition latin1_toLowerCase (s : jsstring) : jsstring := latin1_lower <$> s.

(** [Array.prototype.join] *)
Fixpoint join (sep : jsstring) (l : list jsstring) : jsstring :=
  match l with
  | [] => []
  | [x] => x
  | x :: l' => x ++ sep ++ join sep l'
  end.

(** *** Numbers read from strings *)

Fixpoint digitsValue (R : Z) (acc : Z) (s : jsstring) : Z :=
  match s with
  | [] => acc
  | c :: s' => digitsValue R (R * acc + default 0 (radixValue R c)) s'
  end.

(** A leading sign of a numeric string: whether it is a minus, and the rest. *)
Definition stripSign (s : jsstring) : bool * jsstring :=
  match s with
  | c :: r =>
      if (c =? 45)%N then (true, r)
      else if (c =? 43)%N then (false, r)
      else (false, s)
  | [] => (false, s)
  end.

(** A leading [0x] or [0X]: the radix of the rest. *)
Definition stripHexPrefix (s : jsstring) : Z * jsstring :=
  match s with
  | z :: x :: r =>
      if ((z =? 48) && ((x =? 120) || (x =? 88)))%N then (16, r) else (10, s)
  | _ => (10, s)
  end.

(** [parseInt(s)] with no radix argument; [None] is NaN.  The result is the
    mathematical integer: the Number value is its rounding to a double, which
    is the same integer below 2^53 in magnitude, and -0 is 0. *)
Definition parseInt (s : jsstring) : option Z :=
  let signed := stripSign (trimStart s) in
  let sign := if signed.1 then -1 else 1 in
  let prefixed := stripHexPrefix signed.2 in
  let R := prefixed.1 in
  let Z0 := takeWhile (fun c => bool_decide (is_Some (radixValue R c))) prefixed.2 in
  match Z0 with
  | [] => None
  | _ => Some (sign * digitsValue R 0 Z0)
  end.

(** The value [parseFloat] computes before rounding to a double. *)
Inductive JsNumber :=
| NaN
| Infinity (negative : bool)
| Decimal (negative : bool) (digits : Z) (exp10 : Z).

Fixpoint startsWith (p s : jsstring) : bool :=
  match p, s with
  | [], _ => true
  | a :: p', b :: s' => (a =? b)%N && startsWith p' s'
  | _ :: _, [] => false
  end.

(** The digits after a decimal point, and what follows them. *)
Definition fraction (s : jsstring) : jsstring * jsstring :=
  match s with
  | c :: r => if (c =? 46)%N then (takeWhile isDigit r, dropWhile isDigit r) else ([], s)
  | [] => ([], s)
  end.

(** The value of an ExponentPart at the head of [s], 0 when there is none. *)
Definition exponent (s : jsstring) : Z :=
  match s with
  | e :: r =>
      if ((e =? 101) || (e =? 69))%N then
        let signed := stripSign r in
        let ed := takeWhile isDigit signed.2 in
        if signed.1 then - digitsValue 10 0 ed else digitsValue 10 0 ed
      else 0
  | [] => 0
  end.

(** [parseFloat(s)]: the longest prefix of the trimmed string that is a
    StrDecimalLiteral, as sign, digit string and power of ten. *)
Definition parseFloat (s : jsstring) : JsNumber :=
  let signed := stripSign (trimStart s) in
  let neg := signed.1 in
  let S1 := signed.2 in
  if startsWith (lit "Infinity") S1 then Infinity neg
  else
    let ip := takeWhile isDigit S1 in
    let frac := fraction (dropWhile isDigit S1) in
    match ip ++ frac.1 with
    | [] => NaN
    | ds => Decimal neg (digitsValue 10 0 ds)
              (exponent frac.2 - Z.of_nat (length frac.1))
    end.

(** [isNaN] *)
Definition isNaN (x : JsNumber) : bool :=
  match x with NaN => true | _ => false end.

(** The rational a decimal stands for. *)
Definition decimalValue (neg : bool) (digits exp10 : Z) : Q :=
  ((if neg then -1 else 1) * inject_Z digits * Qpower 10 exp10)%Q.

(** [Math.min(...l)]; [None] is +Infinity, the value for no argument. *)
Definition Math_min (l : list Z) : option Z :=
  match l with
  | [] => None
  | x :: l' => Some (foldl Z.min x l')
  end.

(** Number::toString of an integer below 10^21 in magnitude. *)
Definition Number_toString (n : Z) : jsstring :=
  lit (DecimalString.NilZero.string_of_int (Z.to_int n)).

End Js.

Import Js.

(** ** src/lib/status-transitions.ts *)

Module StatusTransitions.

Inductive ViolationStatus :=
| NEW | PARSING | PARSED | ASSIGNED | IN_PROGRESS
| AWAITING_PHOTOS | PHOTOS_UPLOADED | READY_FOR_SUBMISSION
| SUBMITTED | APPROVED | REJECTED | ADDITIONAL_INFO_REQUESTED | CLOSED.

#[global] Instance ViolationStatus_eq_dec : EqDecision ViolationStatus.
Proof. solve_decision. Defined.

Definition VALID_TRANSITIONS (from : ViolationStatus) : list ViolationStatus :=
  match from with
  | NEW => [PARSING; ASSIGNED; CLOSED]
  | PARSING => [PARSED; NEW]
  | PARSED => [ASSIGNED; CLOSED]
  | ASSIGNED => [IN_PROGRESS; CLOSED]
  | IN_PROGRESS => [AWAITING_PHOTOS; CLOSED]
  | AWAITING_PHOTOS => [PHOTOS_UPLOADED; IN_PROGRESS]
  | PHOTOS_UPLOADED => [READY_FOR_SUBMISSION; AWAITING_PHOTOS]
  | READY_FOR_SUBMISSION => [SUBMITTED; AWAITING_PHOTOS]
  | SUBMITTED => [APPROVED; REJECTED; ADDITIONAL_INFO_REQUESTED]
  | APPROVED => [CLOSED]
  | REJECTED => [IN_PROGRESS]
  | ADDITIONAL_INFO_REQUESTED => [AWAITING_PHOTOS; IN_PROGRESS]
  | CLOSED => []
  end.

(** [Array.prototype.includes] on a list of statuses. *)
Fixpoint includes (l : list ViolationStatus) (to : ViolationStatus) : bool :=
  match l with
  | [] => false
  | x :: l' => if decide (x = to) then true else includes l' to
  end.

(** [VALID_TRANSITIONS[from]?.includes(to) ?? false]; every status has an
    entry in the table, so the optional chain never short-circuits. *)
Definition canTransition (from to : ViolationStatus) : bool :=
  includes (VALID_TRANSITIONS from) to.

Definition getNextStatuses (current : ViolationStatus) : list ViolationStatus :=
  VALID_TRANSITIONS current.

End StatusTransitions.

(** ** src/lib/parse-logger.ts *)

Module Ledger.

(** The [unknown] payloads carried in log data and extras. *)
#[local] Unset Elimination Schemes.
Inductive Json :=
| JNull
| JBool (b : bool)
| JNum (n : Z)
| JStr (s : jsstring)
| JArr (xs : list Json)
| JObj (kvs : list (string * Json)).
#[local] Set Elimination Schemes.

Inductive StepState := pending | running | completed | failed.

#[global] Instance StepState_eq_dec : EqDecision StepState.
Proof. solve_decision. Defined.

(** [ParseStepStatus] of src/lib/ai/schemas.ts.  The logger receives the step
    name as a plain string and casts it. *)
Record ParseStepStatus := mkStep {
  step : jsstring;
  status : StepState;
  message : option jsstring;
  started_at : option jsstring;
  completed_at : option jsstring;
  error : option jsstring;
}.

Inductive LogLevel := info | warn | error_level | debug.

Record LogEntry := mkLog {
  ts : jsstring;
  level : LogLevel;
  log_step : jsstring;
  log_message : jsstring;
  data : option (gmap string Json);
}.

(** The persisted [parse_metadata] object: the two keys the logger owns and
    every other key ([items_found], [costs], ...).  No caller passes the keys
    [steps] or [logs] among the extras. *)
Record ParseMetadata := mkMeta {
  meta_steps : list ParseStepStatus;
  meta_logs : list LogEntry;
  meta_fields : gmap string Json;
}.

(** A row of the [violations] table, restricted to the columns the parse
    workflow writes. *)
Record ViolationRow := mkRow {
  biz_status : StatusTransitions.ViolationStatus;
  parse_status : jsstring;
  parse_metadata : option ParseMetadata;
}.

(** The [violations] table, keyed by id. *)
Abbreviation Violations := (gmap (list N) ViolationRow).

Record ParseLogger := mkLogger {
  violationId : jsstring;
  logs : list LogEntry;
  steps : list ParseStepStatus;
  extras : gmap string Json;
}.

(** [new ParseLogger(violationId)] *)
Definition new_logger (id : jsstring) : ParseLogger :=
  {| violationId := id; logs := []; steps := []; extras := ∅ |}.

(** [addLog]; [now] is the value of [new Date().toISOString()]. *)
Definition addLog (lv : LogLevel) (stepName msg : jsstring)
    (d : option (gmap string Json)) (now : jsstring) (lg : ParseLogger) : ParseLogger :=
  {| violationId := violationId lg;
     logs := logs lg ++ [mkLog now lv stepName msg d];
     steps := steps lg;
     extras := extras lg |}.

(** [setExtra] *)
Definition setExtra (key : string) (value : Json) (lg : ParseLogger) : ParseLogger :=
  {| violationId := violationId lg; logs := logs lg; steps := steps lg;
     extras := <[key := value]> (extras lg) |}.

(** The [stepData] literal of [upsertStep]; [now] is the value of
    [new Date().toISOString()]. *)
Definition newStepData (stepName : jsstring) (st : StepState)
    (msg : option jsstring) (now : jsstring) : ParseStepStatus :=
  {| step := stepName;
     status := st;
     message := msg;
     started_at := match st with running => Some now | _ => None end;
     completed_at := match st with completed | failed => Some now | _ => None end;
     error := None |}.

(** The guarded assignment [stepData.started_at = this.steps[idx].started_at]. *)
Definition preserveStarted (prev_started : option jsstring)
    (stepData : ParseStepStatus) : ParseStepStatus :=
  if truthy_opt prev_started && negb (truthy_opt (started_at stepData))
  then {| step := step stepData; status := status stepData;
          message := message stepData; started_at := prev_started;
          completed_at := completed_at stepData; error := error stepData |}
  else stepData.

(** [upsertStep] *)
Definition upsertStep (stepName : jsstring) (st : StepState)
    (msg : option jsstring) (now : jsstring) (lg : ParseLogger) : ParseLogger :=
  let idx := findIndex (fun s => streq (step s) stepName) (steps lg) in
  let stepData := newStepData stepName st msg now in
  let steps' :=
    match idx with
    | Some i =>
        <[i := preserveStarted ((steps lg !! i) ≫= started_at) stepData]> (steps lg)
    | None => steps lg ++ [stepData]
    end in
  {| violationId := violationId lg; logs := logs lg; steps := steps';
     extras := extras lg |}.

(** The loop of [flush] over [this.steps]: upsert by step name into a copy of
    the persisted steps. *)
Definition mergeStep (mergedSteps : list ParseStepStatus) (s : ParseStepStatus)
    : list ParseStepStatus :=
  match findIndex (fun s' => streq (step s') (step s)) mergedSteps with
  | Some idx => <[idx := s]> mergedSteps
  | None => mergedSteps ++ [s]
  end.

Definition mergeSteps (existingSteps inMemory : list ParseStepStatus)
    : list ParseStepStatus :=
  foldl mergeStep existingSteps inMemory.

Definition has_status (st : StepState) (s : ParseStepStatus) : bool :=
  bool_decide (status s = st).

(** The [else] branch of [flush]: the value assigned to
    [update.parse_status], [None] when the key is not set. *)
Definition deriveParseStatus (mergedSteps : list ParseStepStatus) : option jsstring :=
  let hasFailed := existsb (has_status failed) mergedSteps in
  let allComplete :=
    (0 <? length mergedSteps)%nat && forallb (has_status completed) mergedSteps in
  let hasRunning := existsb (has_status running) mergedSteps in
  if hasFailed then Some (lit "failed")
  else if allComplete then Some (lit "completed")
  else if hasRunning then Some (lit "processing")
  else None.

(** [flush(parseStatus?)]: read the row, merge, write the row back, clear the
    log buffer.  An [update] matching no row changes nothing. *)
Definition flush (parseStatus : option jsstring) (lg : ParseLogger)
    (db : Violations) : ParseLogger * Violations :=
  let existing := db !! violationId lg in
  let existingMeta := existing ≫= parse_metadata in
  let existingSteps := from_option meta_steps [] existingMeta in
  let existingLogs := from_option meta_logs [] existingMeta in
  let existingFields := from_option meta_fields ∅ existingMeta in
  let mergedSteps := mergeSteps existingSteps (steps lg) in
  let mergedLogs := existingLogs ++ logs lg in
  let metadata :=
    {| meta_steps := mergedSteps;
       meta_logs := mergedLogs;
       meta_fields := extras lg ∪ existingFields |} in
  let update_parse_status :=
    if truthy_opt parseStatus then parseStatus
    else deriveParseStatus mergedSteps in
  let write (row : ViolationRow) :=
    {| biz_status := biz_status row;
       parse_status := from_option id (parse_status row) update_parse_status;
       parse_metadata := Some metadata |} in
  ({| violationId := violationId lg; logs := []; steps := steps lg;
      extras := extras lg |},
   alter write (violationId lg) db).

(** [StepVerification] *)
Record StepCheck := mkCheck {
  name : jsstring;
  check_passed : bool;
  detail : option jsstring;
}.

Record StepVerification := mkVerification {
  passed : bool;
  checks : list StepCheck;
}.

(** String interpolation of [string | undefined]. *)
Definition interp (o : option jsstring) : jsstring :=
  from_option id (lit "undefined") o.

(** The clock readings one lifecycle call consumes, in order: the log
    entries it adds, then the step it upserts. *)
Record Clock := mkClock { t_log1 : jsstring; t_log2 : jsstring; t_step : jsstring }.

(** [stepStart] *)
Definition stepStart (stepName msg : jsstring) (ck : Clock) (lg : ParseLogger)
    (db : Violations) : ParseLogger * Violations :=
  let lg1 := addLog info stepName (lit "STARTED: " ++ msg) None (t_log1 ck) lg in
  let lg2 := upsertStep stepName running (Some msg) (t_step ck) lg1 in
  flush None lg2 db.

(** [stepFail] *)
Definition stepFail (stepName msg : jsstring) (d : option (gmap string Json))
    (ck : Clock) (lg : ParseLogger) (db : Violations) : ParseLogger * Violations :=
  let lg1 := addLog error_level stepName (lit "FAILED: " ++ msg) d (t_log2 ck) lg in
  let lg2 := upsertStep stepName failed (Some msg) (t_step ck) lg1 in
  flush (Some (lit "failed")) lg2 db.

(** The log payloads [{ checks: verification.checks }] and [{ verification }]. *)
Definition check_json (c : StepCheck) : Json :=
  JObj ([("name", JStr (name c)); ("passed", JBool (check_passed c))]
        ++ from_option (fun d => [("detail", JStr d)]) [] (detail c)).

Definition checks_payload (v : StepVerification) : gmap string Json :=
  {[ "checks" := JArr (check_json <$> checks v) ]}.

Definition verification_payload (v : StepVerification) : gmap string Json :=
  {[ "verification" :=
       JObj [("passed", JBool (passed v)); ("checks", JArr (check_json <$> checks v))] ]}.

(** [stepComplete] *)
Definition stepComplete (stepName msg : jsstring) (verification : option StepVerification)
    (extra : option (gmap string Json)) (ck : Clock) (lg : ParseLogger)
    (db : Violations) : ParseLogger * Violations :=
  let finish (lg0 : ParseLogger) :=
    let lg1 := addLog info stepName (lit "COMPLETED: " ++ msg) None (t_log2 ck) lg0 in
    let lg2 := upsertStep stepName completed (Some msg) (t_step ck) lg1 in
    let lg3 :=
      match extra with
      | Some e => {| violationId := violationId lg2; logs := logs lg2;
                     steps := steps lg2; extras := e ∪ extras lg2 |}
      | None => lg2
      end in
    flush None lg3 db in
  match verification with
  | Some v =>
      let failedChecks := filter (fun c => check_passed c = false) (checks v) in
      let lg0 :=
        if (0 <? length failedChecks)%nat
        then addLog warn stepName
               (lit "Verification warnings: " ++ join (lit ", ") (name <$> failedChecks))
               (Some (checks_payload v)) (t_log1 ck) lg
        else addLog info stepName
               (lit "Verification passed: " ++ join (lit ", ") (name <$> checks v))
               None (t_log1 ck) lg in
      if negb (passed v)
      then stepFail stepName
             (lit "Verification failed: " ++
              join (lit "; ")
                ((fun f => name f ++ lit ": " ++ interp (detail f)) <$> failedChecks))
             (Some (verification_payload v)) ck lg0 db
      else finish lg0
  | None => finish lg
  end.

End Ledger.

(** ** The Date built-in, as far as the workflow uses it *)

Module JsDate.

Definition msPerDay : Z := 86400000.

Definition isLeapYear (y : Z) : bool :=
  ((y mod 4 =? 0) && negb (y mod 100 =? 0)) || (y mod 400 =? 0).

Definition daysInMonth (y m : Z) : Z :=
  if m =? 2 then (if isLeapYear y then 29 else 28)
  else if (m =? 4) || (m =? 6) || (m =? 9) || (m =? 11) then 30
  else 31.

(** Day number (days since 1970-01-01) of a date of the proleptic Gregorian
    calendar, months counted from 1; the year is taken to start in March so
    that the leap day comes last. *)
Definition days_from_civil (y m d : Z) : Z :=
  let y' := if m <=? 2 then y - 1 else y in
  let era := y' / 400 in
  let yoe := y' - era * 400 in
  let mp := if m <=? 2 then m + 9 else m - 3 in
  let doy := (153 * mp + 2) / 5 + d - 1 in
  let doe := yoe * 365 + yoe / 4 - yoe / 100 + doy in
  era * 146097 + doe - 719468.

(** Year within the 400-year era (counted from 0, up to 400 for January and
    February of the last year), month (from 1) and day of the month of a day
    of the era, the era starting on a 1st of March. *)
Definition civil_of_doe (doe : Z) : Z * Z * Z :=
  let yoe := (doe - doe / 1460 + doe / 36524 - doe / 146096) / 365 in
  let doy := doe - (365 * yoe + yoe / 4 - yoe / 100) in
  let mp := (5 * doy + 2) / 153 in
  let d := doy - (153 * mp + 2) / 5 + 1 in
  let m := if mp <? 10 then mp + 3 else mp - 9 in
  (if m <=? 2 then yoe + 1 else yoe, m, d).

(** Year, month (from 1) and day of the month of a day number. *)
Definition civil_from_days (z : Z) : Z * Z * Z :=
  let z' := z + 719468 in
  let era := z' / 146097 in
  let c := civil_of_doe (z' - era * 146097) in
  (c.1.1 + era * 400, c.1.2, c.2).

(** The day after a date. *)
Definition tomorrow (ymd : Z * Z * Z) : Z * Z * Z :=
  let '(y, m, d) := ymd in
  if d <? daysInMonth y m then (y, m, d + 1)
  else if m <? 12 then (y, m + 1, 1)
  else (y + 1, 1, 1).

Definition Day (t : Z) : Z := t / msPerDay.
Definition TimeWithinDay (t : Z) : Z := t mod msPerDay.
Definition YearFromTime (t : Z) : Z := (civil_from_days (Day t)).1.1.
(** Months of the time-value functions count from 0. *)
Definition MonthFromTime (t : Z) : Z := (civil_from_days (Day t)).1.2 - 1.
Definition DateFromTime (t : Z) : Z := (civil_from_days (Day t)).2.

Definition MakeDay (year month date : Z) : Z :=
  let ym := year + month / 12 in
  let mn := month mod 12 in
  days_from_civil ym (mn + 1) 1 + date - 1.

Definition MakeDate (day time : Z) : Z := day * msPerDay + time.

(** [None] is NaN. *)
Definition TimeClip (t : Z) : option Z :=
  if Z.abs t <=? 8640000000000000 then Some t else None.

Inductive Completion (A : Type) :=
| Returns (a : A)
| Throws (err : jsstring).
Arguments Returns {A} a.
Arguments Throws {A} err.

(** [w] decimal digits of [n], the most significant first. *)
Fixpoint padDigits (w : nat) (n : Z) : jsstring :=
  match w with
  | O => []
  | S w' => padDigits w' (n / 10) ++ [Z.to_N (48 + n mod 10)]
  end.

Definition isoYear (y : Z) : jsstring :=
  if (0 <=? y) && (y <=? 9999) then padDigits 4 y
  else (if y <? 0 then lit "-" else lit "+") ++ padDigits 6 (Z.abs y).

Definition isoDate (ymd : Z * Z * Z) : jsstring :=
  isoYear ymd.1.1 ++ lit "-" ++ padDigits 2 ymd.1.2 ++ lit "-" ++ padDigits 2 ymd.2.

Definition isoTime (tw : Z) : jsstring :=
  padDigits 2 (tw / 3600000) ++ lit ":" ++ padDigits 2 ((tw / 60000) mod 60)
  ++ lit ":" ++ padDigits 2 ((tw / 1000) mod 60) ++ lit "." ++ padDigits 3 (tw mod 1000).

(** A date string [YYYY-MM-DD] of the interchange format naming a day of the
    calendar: its year, month and day. *)
Definition isoDateOnly (s : jsstring) : option (Z * Z * Z) :=
  match s with
  | [y1; y2; y3; y4; s1; m1; m2; s2; d1; d2] =>
      if ((s1 =? 45) && (s2 =? 45))%N
         && forallb isDigit [y1; y2; y3; y4; m1; m2; d1; d2] then
        let y := digitsValue 10 0 [y1; y2; y3; y4] in
        let m := digitsValue 10 0 [m1; m2] in
        let d := digitsValue 10 0 [d1; d2] in
        if (1 <=? m) && (m <=? 12) && (1 <=? d) && (d <=? daysInMonth y m)
        then Some (y, m, d) else None
      else None
  | _ => None
  end.

Section Host.

(** The host's local time zone adjustment, in milliseconds: [LocalTZA t true]
    for a UTC time value [t], [LocalTZA t false] for a local one. *)
Variable LocalTZA : Z -> bool -> Z.

(** [Date.parse] on every string that is not a [YYYY-MM-DD] calendar date:
    the other forms of the interchange format and the host's own fallback
    formats.  [None] is NaN. *)
Variable parse_other : jsstring -> option Z.

Definition LocalTime (t : Z) : Z := t + LocalTZA t true.
Definition UTC (t : Z) : Z := t - LocalTZA t false.

(** [new Date(s)]: the time value, [None] for an invalid date.  A date-only
    form is UTC midnight. *)
Definition Date_new (s : jsstring) : option Z :=
  match isoDateOnly s with
  | Some (y, m, d) => TimeClip (MakeDate (days_from_civil y m d) 0)
  | None => parse_other s
  end.

(** [getDate()]; [None] is NaN. *)
Definition getDate (tv : option Z) : option Z :=
  match tv with
  | Some t => Some (DateFromTime (LocalTime t))
  | None => None
  end.

(** [setDate(dt)]: the new time value.  [dt = None] is a non-finite Number. *)
Definition setDate (tv : option Z) (dt : option Z) : option Z :=
  match tv, dt with
  | Some t0, Some dt =>
      let t := LocalTime t0 in
      let newDate := MakeDate (MakeDay (YearFromTime t) (MonthFromTime t) dt) (TimeWithinDay t) in
      TimeClip (UTC newDate)
  | _, _ => None
  end.

(** [toISOString()] *)
Definition toISOString (tv : option Z) : Completion jsstring :=
  match tv with
  | Some t =>
      Returns (isoDate (civil_from_days (Day t)) ++ lit "T" ++ isoTime (TimeWithinDay t) ++ lit "Z")
  | None => Throws (lit "RangeError: Invalid time value")
  end.

End Host.

(** Number addition where [None] is a non-finite operand or result. *)
Definition add (a b : option Z) : option Z :=
  match a, b with
  | Some x, Some y => Some (x + y)
  | _, _ => None
  end.

End JsDate.

(** ** parseNOI, step insert-records: fields derived from the extraction *)

Module InsertRecords.

Import JsDate.

Record NoticeLevelData := mkNotice {
  notice_id : jsstring;
  respondent : jsstring;
  infraction_address : jsstring;
  date_of_service : jsstring;
  total_fines : jsstring;
}.

Record WorkOrder := mkWorkOrder {
  item_number : Z;
  violation_code : jsstring;
  priority : Z;
  abatement_deadline : jsstring;
  fine : jsstring;
  violation_description : jsstring;
  specific_location : jsstring;
  floor_number : jsstring;
  date_of_infraction : jsstring;
  time_of_infraction : jsstring;
  task_description : jsstring;
}.

(** The object passed to [update] on the violation. *)
Record ViolationUpdate := mkUpdate {
  upd_notice_id : jsstring;
  upd_respondent : jsstring;
  upd_infraction_address : jsstring;
  upd_date_of_service : option jsstring;
  upd_total_fines : option JsNumber;
  upd_abatement_deadline : option jsstring;
  upd_priority : option Z;
}.

Definition parseFine (fineStr : jsstring) : option JsNumber :=
  let cleaned := strip_dollar_comma fineStr in
  let num := parseFloat cleaned in
  if isNaN num then None else Some num.

Definition parseDate (dateStr : jsstring) : option jsstring :=
  if negb (truthy dateStr) then None
  else
    match split 47 dateStr with
    | [month; day; year] =>
        Some (year ++ lit "-" ++ padStart2 month ++ lit "-" ++ padStart2 day)
    | _ => None
    end.

(** [parseInt(wo.abatement_deadline) || 60]: NaN and 0 are falsy. *)
Definition deadlineDays (wo : WorkOrder) : Z :=
  match parseInt (abatement_deadline wo) with
  | Some v => if v =? 0 then 60 else v
  | None => 60
  end.

Definition shortestDeadline (work_orders : list WorkOrder) : option Z :=
  Math_min (deadlineDays <$> work_orders).

Definition recordPriority (work_orders : list WorkOrder) : option Z :=
  Math_min ((priority <$> work_orders) ++ [3]).

Section Host.

Variable LocalTZA : Z -> bool -> Z.
Variable parse_other : jsstring -> option Z.

(** The computation of [deadlineDate]. *)
Definition deadlineDate (notice_level_data : NoticeLevelData)
    (work_orders : list WorkOrder) : Completion (option jsstring) :=
  let serviceDate := parseDate (date_of_service notice_level_data) in
  if truthy_opt serviceDate && (0 <? length work_orders)%nat then
    let deadline := Date_new parse_other (default [] serviceDate) in
    let deadline' :=
      setDate LocalTZA deadline
        (add (getDate LocalTZA deadline) (shortestDeadline work_orders)) in
    match toISOString deadline' with
    | Returns s => Returns (head (split 84 s))
    | Throws e => Throws e
    end
  else Returns None.

(** The violation update of the step; an exception of the deadline
    computation leaves the step before the update is sent. *)
Definition violationUpdate (notice_level_data : NoticeLevelData)
    (work_orders : list WorkOrder) : Completion ViolationUpdate :=
  match deadlineDate notice_level_data work_orders with
  | Returns deadline =>
      Returns
        {| upd_notice_id := notice_id notice_level_data;
           upd_respondent := respondent notice_level_data;
           upd_infraction_address := infraction_address notice_level_data;
           upd_date_of_service := parseDate (date_of_service notice_level_data);
           upd_total_fines := parseFine (total_fines notice_level_data);
           upd_abatement_deadline := deadline;
           upd_priority := recordPriority work_orders |}
  | Throws e => Throws e
  end.

End Host.

End InsertRecords.

(** ** parseNOI, step match-photos *)

Module MatchPhotos.

Inductive PhotoType := BEFORE | AFTER | INSPECTOR | REFERENCE.
Inductive PhotoStatus := PENDING_REVIEW | APPROVED | REJECTED.

(** [event.data] *)
Record EventData := mkEvent {
  violationId : jsstring;
  pdfStoragePath : jsstring;
  orgId : jsstring;
}.

(** An entry of [pageAnalysis.pages]. *)
Record Page := mkPage {
  page_number : Z;
  violation_code : option jsstring;
  description : jsstring;
  is_evidence_photo : bool;
}.

(** A row of [violation_items] as selected: [id, violation_code]. *)
Record Item := mkItem {
  id : jsstring;
  item_violation_code : option jsstring;
}.

(** The object passed to [insert] on [photos]. *)
Record PhotoRow := mkPhoto {
  org_id : jsstring;
  violation_id : jsstring;
  violation_item_id : option jsstring;
  photo_type : PhotoType;
  storage_path : jsstring;
  file_name : jsstring;
  photo_page_number : Z;
  matched_violation_code : jsstring;
  status : PhotoStatus;
  metadata_description : jsstring;
}.

Record MatchLogEntry := mkMatchLog {
  page : Z;
  code : jsstring;
  matched_item_id : option jsstring;
}.

(** The variables of the loop, the [photos] table and the calls made on the
    logger. *)
Record LoopState := mkLoop {
  photos : list PhotoRow;
  matchedCount : Z;
  unmatchedCount : Z;
  matchLog : list MatchLogEntry;
  logged : list (Ledger.LogLevel * jsstring * option (gmap string Ledger.Json));
}.

Section Step.

(** [String.prototype.toLowerCase]. *)
Variable toLowerCase : jsstring -> jsstring.

(** The record store's answer to an [insert] of a row into the [photos]
    table in a given state: [None] when the row is written, the message of
    [photoError] otherwise. *)
Variable photoError : list PhotoRow -> PhotoRow -> option jsstring.

Variable event_data : EventData.

Definition normalizeCode (code : jsstring) : jsstring :=
  toLowerCase (trim (replace_ws_runs false code)).

(** The predicate of [items.find]. *)
Definition codeMatches (page_code : jsstring) (item : Item) : bool :=
  truthy_opt (item_violation_code item)
  && streq (normalizeCode (default [] (item_violation_code item)))
           (normalizeCode page_code).

Definition matchItem (items : list Item) (page_code : jsstring) : option Item :=
  find (codeMatches page_code) items.

(** [matchedItem?.id || null] *)
Definition itemLink (matchedItem : option Item) : option jsstring :=
  match matchedItem with
  | Some item => if truthy (id item) then Some (id item) else None
  | None => None
  end.

Definition codesPayload (key : string) (items : list Item) : gmap string Ledger.Json :=
  {[ key := Ledger.JArr
       ((fun i => from_option Ledger.JStr Ledger.JNull (item_violation_code i)) <$> items) ]}.

Definition qualifies (p : Page) : bool :=
  is_evidence_photo p && truthy_opt (violation_code p).

Definition photoRow (items : list Item) (p : Page) : PhotoRow :=
  let page_code := default [] (violation_code p) in
  {| org_id := orgId event_data;
     violation_id := violationId event_data;
     violation_item_id := itemLink (matchItem items page_code);
     photo_type := INSPECTOR;
     storage_path := pdfStoragePath event_data;
     file_name := lit "page_" ++ Number_toString (page_number p) ++ lit ".pdf";
     photo_page_number := page_number p;
     matched_violation_code := page_code;
     status := APPROVED;
     metadata_description := description p |}.

(** One iteration of [for (const page of pageAnalysis.pages)]. *)
Definition loopBody (items : list Item) (st : LoopState) (p : Page) : LoopState :=
  if negb (is_evidence_photo p) || negb (truthy_opt (violation_code p)) then st
  else
    let page_code := default [] (violation_code p) in
    let matchedItem := matchItem items page_code in
    let matchLog1 :=
      matchLog st ++ [mkMatchLog (page_number p) page_code (itemLink matchedItem)] in
    let '(logged1, unmatched1) :=
      match matchedItem with
      | None =>
          (logged st ++
             [(Ledger.warn,
               lit "No item match for page " ++ Number_toString (page_number p)
               ++ lit " code " ++ [34%N] ++ page_code ++ [34%N],
               Some (codesPayload "available_codes" items))],
           unmatchedCount st + 1)
      | Some _ => (logged st, unmatchedCount st)
      end in
    let row := photoRow items p in
    match photoError (photos st) row with
    | Some msg =>
        {| photos := photos st;
           matchedCount := matchedCount st;
           unmatchedCount := unmatched1;
           matchLog := matchLog1;
           logged := logged1 ++
             [(Ledger.error_level,
               lit "Failed to insert photo for page " ++ Number_toString (page_number p)
               ++ lit ": " ++ msg,
               None)] |}
    | None =>
        {| photos := photos st ++ [row];
           matchedCount := matchedCount st + 1;
           unmatchedCount := unmatched1;
           matchLog := matchLog1;
           logged := logged1 |}
    end.

Definition loopInit (table : list PhotoRow) : LoopState :=
  {| photos := table; matchedCount := 0; unmatchedCount := 0;
     matchLog := []; logged := [] |}.

(** The third argument of the final [stepComplete]. *)
Definition matchExtras (st : LoopState) : gmap string Ledger.Json :=
  {[ "photos_matched" := Ledger.JNum (matchedCount st);
     "photos_unmatched" := Ledger.JNum (unmatchedCount st);
     "match_details" :=
       Ledger.JArr
         ((fun e =>
             Ledger.JObj
               [("page", Ledger.JNum (page e));
                ("code", Ledger.JStr (code e));
                ("matched_item_id",
                 from_option Ledger.JStr Ledger.JNull (matched_item_id e))])
          <$> matchLog st) ]}.

(** What the step leaves behind: the [photos] table and, unless the step
    returned early for want of items, the loop's final variables. *)
Definition matchPhotos (items : option (list Item)) (pages : list Page)
    (table : list PhotoRow) : list PhotoRow * option LoopState :=
  match items with
  | None | Some [] => (table, None)
  | Some items =>
      let st := foldl (loopBody items) (loopInit table) pages in
      (photos st, Some st)
  end.

(** The step on the ledger: [stepStart], then [stepComplete] with the extras
    of the loop, or without extras on the early return.  [ts i] is the clock
    reading of the [i]-th logger call of the step body. *)
Definition matchPhotosStep (ck1 ck2 : Ledger.Clock) (ts : nat -> jsstring)
    (items : option (list Item))
    (pages : list Page) (table : list PhotoRow) (lg : Ledger.ParseLogger)
    (db : Ledger.Violations)
    : Ledger.ParseLogger * Ledger.Violations * list PhotoRow :=
  let '(lg1, db1) :=
    Ledger.stepStart (lit "match_photos")
      (lit "Matching evidence photos to violation items by code") ck1 lg db in
  match matchPhotos items pages table with
  | (table', None) =>
      (Ledger.stepComplete (lit "match_photos")
         (lit "No violation items to match photos to")
         (Some (Ledger.mkVerification true
            [Ledger.mkCheck (lit "items available") false
               (Some (lit "Skipped " ++ [8212%N] ++ lit " no items in DB"))]))
         None ck2 lg1 db1, table')
  | (table', Some st) =>
      (Ledger.stepComplete (lit "match_photos")
         (lit "Inserted " ++ Number_toString (matchedCount st)
          ++ lit " evidence photos (" ++ Number_toString (unmatchedCount st)
          ++ lit " unmatched codes)")
         (Some (Ledger.mkVerification true
            [Ledger.mkCheck (lit "photos inserted") (0 <? matchedCount st)
               (Some (Number_toString (matchedCount st) ++ lit " photos"));
             Ledger.mkCheck (lit "all codes matched") (unmatchedCount st =? 0)
               (Some (if 0 <? unmatchedCount st
                      then Number_toString (unmatchedCount st) ++ lit " unmatched"
                      else lit "all matched"))]))
         (Some (matchExtras st)) ck2
         (foldl (fun l '(i, e) =>
                   Ledger.addLog e.1.1 (lit "match_photos") e.1.2 e.2 (ts i) l)
                lg1
                (imap pair
                   ((Ledger.info,
                     lit "Found " ++ Number_toString (Z.of_nat (length (default [] items)))
                     ++ lit " items to match against",
                     Some (codesPayload "item_codes" (default [] items)))
                    :: logged st)))
         db1,
       table')
  end.

End Step.

End MatchPhotos.

(** ** Vocabulary of the statements *)

Module LedgerSpec.

Import Ledger.

(** The step names of [ParseStepName]. *)
Definition knownSteps : list jsstring :=
  [lit "ai_parse"; lit "insert_records"; lit "analyze_pages";
   lit "match_photos"; lit "complete"].

(** The entry of a steps collection for a step name: the first one. *)
Definition lookupStep (n : jsstring) (l : list ParseStepStatus) : option ParseStepStatus :=
  find (fun s => streq (step s) n) l.

(** The persisted steps collection of a violation. *)
Definition persistedSteps (db : Violations) (vid : jsstring) : list ParseStepStatus :=
  from_option meta_steps [] ((db !! vid) ≫= parse_metadata).

(** The persisted workflow status of a violation. *)
Definition persistedStatus (db : Violations) (vid : jsstring) : option jsstring :=
  parse_status <$> (db !! vid).

Definition anyStatus (st : StepState) (l : list ParseStepStatus) : Prop :=
  exists s, s ∈ l /\ status s = st.

Definition allCompleted (l : list ParseStepStatus) : Prop :=
  l <> [] /\ forall s, s ∈ l -> status s = completed.

(** Every known step name has a completed entry. *)
Definition allKnownCompleted (l : list ParseStepStatus) : Prop :=
  forall n, n ∈ knownSteps -> exists s, s ∈ l /\ step s = n /\ status s = completed.

(** The number of entries of a steps collection for a step name. *)
Definition occurrences (n : jsstring) (l : list ParseStepStatus) : nat :=
  length (filter (fun m => m = n) (step <$> l)).

(** The last step of [l] named [n], [d] when there is none. *)
Fixpoint lastNamed (n : jsstring) (d : option ParseStepStatus)
    (l : list ParseStepStatus) : option ParseStepStatus :=
  match l with
  | [] => d
  | s :: l' => lastNamed n (if streq (step s) n then Some s else d) l'
  end.

End LedgerSpec.

Module InsertRecordsSpec.

Import InsertRecords.

(** A string that starts, after an optional sign, like a decimal literal. *)
Definition numericStart (t : jsstring) : Prop :=
  startsWith (lit "Infinity") t = true
  \/ (exists c r, t = c :: r /\ isDigit c = true)
  \/ (exists c r, t = 46%N :: c :: r /\ isDigit c = true).

(** The number of slashes of a string. *)
Definition slashes (s : jsstring) : nat := length (filter (fun c => c = 47%N) s).

(** A work order with a deadline text and a priority, and a notice with a
    date of service, the other fields empty. *)
Definition wo_of (deadline : string) (p : Z) : WorkOrder :=
  mkWorkOrder 1 [] p (lit deadline) [] [] [] [] [] [] [].

Definition notice_of (service : string) : NoticeLevelData :=
  mkNotice [] [] [] (lit service) [].

(** The local time zone adjustment of a host on United States Eastern time
    during 2025: five hours behind UTC, four between 9 March and 2 November. *)
Definition us_eastern_2025 (t : Z) (isUTC : bool) : Z :=
  let day y m d := JsDate.days_from_civil y m d * JsDate.msPerDay in
  let hour := 3600000 in
  let dst :=
    if isUTC
    then (day 2025 3 9 + 7 * hour <=? t) && (t <? day 2025 11 2 + 6 * hour)
    else (day 2025 3 9 + 3 * hour <=? t) && (t <? day 2025 11 2 + 2 * hour) in
  if dst then -4 * hour else -5 * hour.

End InsertRecordsSpec.

Module MatchPhotosSpec.

Import MatchPhotos.

(** A qualifying page whose code no item matches. *)
Definition unmatched (toLowerCase : jsstring -> jsstring) (items : list Item)
    (p : Page) : bool :=
  qualifies p
  && bool_decide (matchItem toLowerCase items (default [] (violation_code p)) = None).

(** An item whose code is not empty and normalizes to what the page's code
    normalizes to. *)
Definition sameCode (toLowerCase : jsstring -> jsstring) (page_code : jsstring)
    (item : Item) : Prop :=
  exists c, item_violation_code item = Some c /\ c <> []
            /\ normalizeCode toLowerCase c = normalizeCode toLowerCase page_code.

(** The words of a string: its maximal runs of code units that are not white
    space. *)
Fixpoint words (s : jsstring) : list jsstring :=
  match s with
  | [] => []
  | c :: s' =>
      if isWhiteSpace c then words s'
      else match s' with
           | c' :: _ =>
               if isWhiteSpace c' then [c] :: words s'
               else match words s' with
                    | w :: ws => (c :: w) :: ws
                    | [] => [[c]]
                    end
           | [] => [[c]]
           end
  end.

(** The section sign, U+00A7. *)
Definition sect : jsstring := [167%N].

(** 12-G DCMR § 309.1, as an item has it. *)
Definition code_regular : jsstring := lit "12-G DCMR " ++ sect ++ lit " 309.1".
(** The same with runs of white space where it has white space. *)
Definition code_spaced : jsstring :=
  lit "  12-G   DCMR " ++ [9%N] ++ sect ++ lit "  309.1 ".
(** 12-G DCMR  §309.1: two spaces before the sign, none after it. *)
Definition code_unspaced : jsstring := lit "12-G DCMR  " ++ sect ++ lit "309.1".
(** 12-g dcmr § 309.1, as a page has it. *)
Definition code_page : jsstring := lit "12-g dcmr " ++ sect ++ lit " 309.1".

(** A record store that writes every photo row. *)
Definition accept_all : list PhotoRow -> PhotoRow -> option jsstring :=
  fun _ _ => None.

Definition event : EventData :=
  mkEvent (lit "v1") (lit "org/v1/notice.pdf") (lit "org").

Definition page_of (n : Z) (c : option jsstring) (photo : bool) : Page :=
  mkPage n c (lit "page") photo.

End MatchPhotosSpec.

(** ** Checks over one 400-year era of the calendar *)

Module CalendarCheck.

Import JsDate.

(** [P 0 && ... && P (n - 1)], counting in binary. *)
Definition allBelow (P : Z -> bool) (n : positive) : bool :=
  (Pos.iter (fun st : Z * bool => (st.1 + 1, st.2 && P st.1)) (0, true) n).2.

(** The date of a day of the era is a date of the calendar and has that day
    as its day number. *)
Definition era_check (doe : Z) : bool :=
  let c := civil_of_doe doe in
  (days_from_civil c.1.1 c.1.2 c.2 =? doe - 719468)
  && (1 <=? c.1.2) && (c.1.2 <=? 12)
  && (1 <=? c.2) && (c.2 <=? daysInMonth c.1.1 c.1.2).

(** The date of the next day of the era is the day after; the day after the
    last one opens the next era. *)
Definition succ_check (doe : Z) : bool :=
  let c' :=
    if doe =? 146096
    then ((civil_of_doe 0).1.1 + 400, (civil_of_doe 0).1.2, (civil_of_doe 0).2)
    else civil_of_doe (doe + 1) in
  let t := tomorrow (civil_of_doe doe) in
  (c'.1.1 =? t.1.1) && (c'.1.2 =? t.1.2) && (c'.2 =? t.2).

End CalendarCheck.

(** ** Concrete runs used in the statements *)

Module Runs.

Import Ledger.

Definition vid : jsstring := lit "v1".
Definition T1 : jsstring := lit "2025-01-01T00:00:00.000Z".
Definition T2 : jsstring := lit "2025-01-01T00:05:00.000Z".
Definition at_time (t : jsstring) : Clock := mkClock t t t.

(** A row with the status and the parse status that the init step sets, and
    no parse metadata: a row that the parse route did not make (the route
    stores the five steps as pending, see [ParseRoute.initialRow]). *)
Definition row0 : ViolationRow :=
  {| biz_status := StatusTransitions.PARSING;
     parse_status := lit "processing";
     parse_metadata := None |}.

Definition db0 : Violations := {[ vid := row0 ]}.

(** [stepStart('ai_parse', ...)] on a fresh logger. *)
Definition started : ParseLogger * Violations :=
  stepStart (lit "ai_parse") (lit "Downloading PDF") (at_time T1) (new_logger vid) db0.

(** ... followed by [stepComplete('ai_parse', ...)] with a passing
    verification, on the same logger. *)
Definition first_step_done : ParseLogger * Violations :=
  stepComplete (lit "ai_parse") (lit "Extracted 2 violation items")
    (Some (mkVerification true [mkCheck (lit "notice_id present") true None]))
    None (at_time T2) started.1 started.2.

(** A logger holding one completed step, not flushed yet. *)
Definition completed_in_memory : ParseLogger :=
  upsertStep (lit "ai_parse") completed (Some (lit "Extracted 2 violation items"))
    T2 (new_logger vid).

(** A retry of the run after [started]: a new logger starts the step again. *)
Definition restarted : ParseLogger * Violations :=
  stepStart (lit "ai_parse") (lit "Downloading PDF") (at_time T2) (new_logger vid) started.2.

(** After [started], a new logger that has not started the step reports its
    failure. *)
Definition failed_by_new_logger : ParseLogger * Violations :=
  stepFail (lit "ai_parse") (lit "PDF download failed") None (at_time T2)
    (new_logger vid) started.2.

End Runs.

(** ** src/lib/status-transitions.ts: deadline urgency *)

Module StatusDisplay.

Import StatusTransitions JsDate.

(** [a < b] and [a <= b] for a Number [a] that may be NaN ([None]): a
    comparison with NaN is false. *)
Definition lt (a : option Z) (b : Z) : bool :=
  match a with Some x => x <? b | None => false end.

Definition le (a : option Z) (b : Z) : bool :=
  match a with Some x => x <=? b | None => false end.

(** [Math.ceil(x / d)] for an integer [x] and a positive integer [d]. *)
Definition ceilDiv (x d : Z) : Z := - ((- x) / d).

(** [String(x)] for a Number that may be NaN. *)
Definition numberString (a : option Z) : jsstring :=
  match a with Some x => Number_toString x | None => lit "NaN" end.

Section Host.

Variable parse_other : jsstring -> option Z.

(** [Math.ceil((new Date(deadline).getTime() - Date.now()) / (1000 * 60 * 60 * 24))];
    [now] is the reading of [Date.now()].  Time values are integers of at
    most 8.64e15 in magnitude, for which the quotient rounds to an integer
    only when it is one, so the ceiling is that of the exact quotient. *)
Definition daysFromNow (deadline : jsstring) (now : Z) : option Z :=
  (fun t => ceilDiv (t - now) (1000 * 60 * 60 * 24)) <$> Date_new parse_other deadline.

Definition getUrgencyColor (deadline : option jsstring) (status : ViolationStatus)
    (now : Z) : jsstring :=
  if negb (truthy_opt deadline) || includes [APPROVED; CLOSED] status
  then lit "text-gray-400"
  else
    let daysRemaining := daysFromNow (default [] deadline) now in
    if lt daysRemaining 0 then lit "text-red-600 font-bold"
    else if le daysRemaining 10 then lit "text-orange-600 font-semibold"
    else if le daysRemaining 30 then lit "text-yellow-600"
    else lit "text-green-600".

(** [getDaysRemaining]: [None] is null, [Some None] is NaN. *)
Definition getDaysRemaining (deadline : option jsstring) (now : Z) : option (option Z) :=
  if negb (truthy_opt deadline) then None
  else Some (daysFromNow (default [] deadline) now).

End Host.

(** The deadline cell of the violation table and of the detail page:
    [daysLeft !== null ? daysLeft < 0 ? `${Math.abs(daysLeft)}d overdue`
    : `${daysLeft}d left` : '—']. *)
Definition deadlineCell (daysLeft : option (option Z)) : jsstring :=
  match daysLeft with
  | Some d =>
      if lt d 0 then numberString (Z.abs <$> d) ++ lit "d overdue"
      else numberString d ++ lit "d left"
  | None => [8212%N]
  end.

End StatusDisplay.

(** ** The graph of accepted transitions *)

Module StatusGraph.

Import StatusTransitions.

(** One accepted transition. *)
Definition transition (a b : ViolationStatus) : Prop := canTransition a b = true.

(** The statuses of a violation that has not been worked on yet. *)
Definition intake (s : ViolationStatus) : bool :=
  match s with NEW | PARSING | PARSED => true | _ => false end.

End StatusGraph.

(** ** src/lib/parse-logger.ts: [timed] *)

Module Timed.

Import Ledger.

(** What a rejected promise carries, as far as [timed] looks at it: an
    [Error] with its message and its stack, or another value with its
    [String(err)]. *)
Inductive Thrown :=
| ErrorObject (message : jsstring) (stack : option jsstring)
| OtherValue (asString : jsstring).

(** How the promise of [fn()] settles. *)
Inductive Outcome (T : Type) :=
| Resolved (result : T)
| Rejected (err : Thrown).
Arguments Resolved {T} result.
Arguments Rejected {T} err.

(** The readings one call of [timed] takes: [Date.now()] before and after
    [fn], and the clock of its two log entries. *)
Record TimedClock := mkTimedClock {
  start : Z;
  finish : Z;
  t_debug : jsstring;
  t_end : jsstring;
}.

(** [err instanceof Error ? err.message : String(err)] *)
Definition errorMessage (err : Thrown) : jsstring :=
  match err with ErrorObject m _ => m | OtherValue s => s end.

(** [err instanceof Error ? err.stack : undefined] *)
Definition errorStack (err : Thrown) : option jsstring :=
  match err with ErrorObject _ st => st | OtherValue _ => None end.

(** [errorStack?.split('\n').slice(0, 5).join('\n')] *)
Definition stackHead (errorStack : option jsstring) : option jsstring :=
  (fun st => join [10%N] (take 5 (split 10 st))) <$> errorStack.

(** [timed(step, label, fn)]: the outcome handed on and the logger.  [fn]
    settles without touching the logger, as that of every caller does.  A
    key whose value is undefined is left out of the log data. *)
Definition timed {T} (stepName label : jsstring) (ck : TimedClock) (fn : Outcome T)
    (lg : ParseLogger) : Outcome T * ParseLogger :=
  let lg1 := addLog debug stepName (lit "Starting: " ++ label) None (t_debug ck) lg in
  match fn with
  | Resolved result =>
      let duration := finish ck - start ck in
      (Resolved result,
       addLog info stepName (lit "Finished: " ++ label)
         (Some {[ "duration_ms" := JNum duration ]}) (t_end ck) lg1)
  | Rejected err =>
      let duration := finish ck - start ck in
      (Rejected err,
       addLog error_level stepName
         (lit "Error in " ++ label ++ lit " after " ++ Number_toString duration
          ++ lit "ms: " ++ errorMessage err)
         (Some (<[ "duration_ms" := JNum duration ]>
                 (<[ "error_message" := JStr (errorMessage err) ]>
                    (from_option (fun h => {[ "error_stack" := JStr h ]}) ∅
                       (stackHead (errorStack err))))))
         (t_end ck) lg1)
  end.

(** The number of occurrences of a code unit in a string. *)
Definition count (c : N) (s : jsstring) : nat := length (filter (fun x => x = c) s).

End Timed.

(** ** The route that creates the violation of a parse run (api/parse) *)

Module ParseRoute.

Import Ledger.

(** ToBoolean of a JSON value. *)
Definition truthyJson (v : Json) : bool :=
  match v with
  | JNull => false
  | JBool b => b
  | JNum n => negb (n =? 0)
  | JStr s => truthy s
  | JArr _ | JObj _ => true
  end.

(** The value of an own property of a JSON value, [None] for undefined; the
    keys of an object are distinct.  The keys read by the routes are own
    properties of objects only. *)
Definition get_field (v : Json) (k : string) : option Json :=
  match v with
  | JObj kvs => snd <$> List.find (fun e => String.eqb e.1 k) kvs
  | _ => None
  end.

Definition truthyField (o : option Json) : bool :=
  match o with Some v => truthyJson v | None => false end.

(** The caller's row of [profiles], as selected: [org_id, role]. *)
Record Profile := mkProfile { org_id : jsstring; role : jsstring }.

(** What the handler obtains from its environment: the outcome of
    [auth.getUser()], the parsed request body and the caller's profile. *)
Record Request := mkRequest {
  user : option jsstring;
  authError : bool;
  body : Json;
  profile : option Profile;
}.

(** [NextResponse.json(body, { status })] *)
Record Response := mkResponse { http_status : Z; payload : list (string * Json) }.

(** [['OWNER', 'PROJECT_MANAGER', 'ADMIN'].includes(role)] *)
Definition managerRole (r : jsstring) : bool :=
  bool_decide (r ∈ [lit "OWNER"; lit "PROJECT_MANAGER"; lit "ADMIN"]).

Definition pendingStep (n : string) : ParseStepStatus :=
  mkStep (lit n) pending None None None None.

(** The columns of the inserted row that the parse workflow goes on to
    write. *)
Definition initialRow : ViolationRow :=
  {| biz_status := StatusTransitions.NEW;
     parse_status := lit "pending";
     parse_metadata :=
       Some {| meta_steps :=
                 [pendingStep "ai_parse"; pendingStep "insert_records";
                  pendingStep "analyze_pages"; pendingStep "match_photos";
                  pendingStep "complete"];
               meta_logs := [];
               meta_fields := ∅ |} |}.

(** The object passed to [insert] on [violations]. *)
Record NewViolation := mkNewViolation {
  nv_org_id : jsstring;
  nv_pdf_storage_path : Json;
  nv_source : jsstring;
  nv_row : ViolationRow;
}.

(** The data of the event sent to the workflow. *)
Record ParseRequested := mkParseRequested {
  ev_violationId : jsstring;
  ev_pdfStoragePath : Json;
  ev_orgId : jsstring;
}.

(** The record store's answer to the insert: the id of the new row, or an
    error with its message, or neither. *)
Record InsertAnswer := mkInsertAnswer {
  new_id : option jsstring;
  insertError : option jsstring;
}.

(** What a call of the handler did: the row it asked the store to insert,
    the event it sent and its response. *)
Record Handled := mkHandled {
  inserted : option NewViolation;
  sent : option ParseRequested;
  response : Response;
}.

Definition errorResponse (msg : jsstring) (st : Z) : Response :=
  mkResponse st [("error", JStr msg)].

(** [POST]; a body that is null makes the destructuring throw. *)
Definition POST (req : Request) (answer : InsertAnswer) : JsDate.Completion Handled :=
  if authError req || negb (bool_decide (is_Some (user req))) then
    JsDate.Returns (mkHandled None None (errorResponse (lit "Unauthorized") 401))
  else
    match body req with
    | JNull => JsDate.Throws (lit "TypeError")
    | _ =>
        let pdfStoragePath := get_field (body req) "pdfStoragePath" in
        if negb (truthyField pdfStoragePath) then
          JsDate.Returns
            (mkHandled None None (errorResponse (lit "pdfStoragePath is required") 400))
        else
          match profile req with
          | Some p =>
              if managerRole (role p) then
                let row :=
                  mkNewViolation (org_id p) (default JNull pdfStoragePath)
                    (lit "parser") initialRow in
                match insertError answer, new_id answer with
                | None, Some vid =>
                    JsDate.Returns
                      (mkHandled (Some row)
                         (Some (mkParseRequested vid (default JNull pdfStoragePath) (org_id p)))
                         (mkResponse 200
                            [("violationId", JStr vid);
                             ("message", JStr (lit "Parse job started"))]))
                | Some msg, _ =>
                    JsDate.Returns
                      (mkHandled (Some row) None
                         (errorResponse
                            (if truthy msg then msg else lit "Failed to create violation") 500))
                | None, None =>
                    JsDate.Returns
                      (mkHandled (Some row) None
                         (errorResponse (lit "Failed to create violation") 500))
                end
              else
                JsDate.Returns
                  (mkHandled None None (errorResponse (lit "Insufficient permissions") 403))
          | None =>
              JsDate.Returns
                (mkHandled None None (errorResponse (lit "Insufficient permissions") 403))
          end
    end.

End ParseRoute.

(** ** Runs of the ledger *)

Module LedgerRuns.

Import Ledger LedgerSpec.

(** The persisted log of a violation. *)
Definition persistedLogs (db : Violations) (vid : jsstring) : list LogEntry :=
  from_option meta_logs [] ((db !! vid) ≫= parse_metadata).

(** The persisted metadata fields of a violation, [steps] and [logs] apart. *)
Definition persistedFields (db : Violations) (vid : jsstring) : gmap string Json :=
  from_option meta_fields ∅ ((db !! vid) ≫= parse_metadata).

(** What the workflow does to the ledger and to the row of its violation: a
    new invocation creates its logger, the step bodies call the lifecycle
    methods and the log methods, the init step and the last step update the
    row themselves. *)
Inductive Call :=
| NewInvocation
| Start (n msg : jsstring) (ck : Clock)
| Complete (n msg : jsstring) (v : option StepVerification)
    (e : option (gmap string Json)) (ck : Clock)
| Fail (n msg : jsstring) (d : option (gmap string Json)) (ck : Clock)
| Log (lv : LogLevel) (n msg : jsstring) (d : option (gmap string Json)) (now : jsstring)
| MarkParsing
| MarkParsed.

(** The step a lifecycle call names. *)
Definition stepOf (c : Call) : option jsstring :=
  match c with
  | Start n _ _ | Complete n _ _ _ _ | Fail n _ _ _ => Some n
  | _ => None
  end.

(** [update({ status: 'PARSING', parse_status: 'processing' })] of the init
    step. *)
Definition markParsing (row : ViolationRow) : ViolationRow :=
  {| biz_status := StatusTransitions.PARSING;
     parse_status := lit "processing";
     parse_metadata := parse_metadata row |}.

(** [update({ status: 'PARSED' })] of the last step. *)
Definition markParsed (row : ViolationRow) : ViolationRow :=
  {| biz_status := StatusTransitions.PARSED;
     parse_status := parse_status row;
     parse_metadata := parse_metadata row |}.

Definition call (st : ParseLogger * Violations) (c : Call) : ParseLogger * Violations :=
  match c with
  | NewInvocation => (new_logger (violationId st.1), st.2)
  | Start n msg ck => stepStart n msg ck st.1 st.2
  | Complete n msg v e ck => stepComplete n msg v e ck st.1 st.2
  | Fail n msg d ck => stepFail n msg d ck st.1 st.2
  | Log lv n msg d now => (addLog lv n msg d now st.1, st.2)
  | MarkParsing => (st.1, alter markParsing (violationId st.1) st.2)
  | MarkParsed => (st.1, alter markParsed (violationId st.1) st.2)
  end.

Definition run (cs : list Call) (st : ParseLogger * Violations) : ParseLogger * Violations :=
  foldl call st cs.

(** A step whose persisted entry reads [st]. *)
Definition stepReads (db : Violations) (vid n : jsstring) (st : StepState) : Prop :=
  exists s, lookupStep n (persistedSteps db vid) = Some s /\ status s = st.

(** The ledger of a run: the logger belongs to the violation, whose row
    lists the five known steps; its workflow status is completed only when
    each of them is; and no step held in memory is pending or has another
    name. *)
Definition ledger_ok (vid : jsstring) (st : ParseLogger * Violations) : Prop :=
  violationId st.1 = vid
  /\ (exists row, st.2 !! vid = Some row
        /\ step <$> persistedSteps st.2 vid = knownSteps
        /\ (parse_status row = lit "completed" ->
            forall s, s ∈ persistedSteps st.2 vid -> status s = completed))
  /\ Forall (fun s => step s ∈ knownSteps /\ status s <> pending) (steps st.1).

End LedgerRuns.

(** ** The ledger by step name and status *)

Module LedgerView.

Import Ledger LedgerSpec.

(** The persisted steps of a violation by name and status. *)
Definition ledgerView (db : Violations) (vid : jsstring) : list (jsstring * StepState) :=
  (fun s => (step s, status s)) <$> persistedSteps db vid.

(** The view with the status of a name replaced. *)
Definition setView (n : jsstring) (st : StepState) (v : list (jsstring * StepState))
    : list (jsstring * StepState) :=
  (fun p => if streq p.1 n then (n, st) else p) <$> v.

(** [deriveParseStatus] on the statuses alone. *)
Definition deriveStates (sts : list StepState) : option jsstring :=
  if existsb (fun s => bool_decide (s = failed)) sts then Some (lit "failed")
  else if (0 <? length sts)%nat && forallb (fun s => bool_decide (s = completed)) sts
  then Some (lit "completed")
  else if existsb (fun s => bool_decide (s = running)) sts then Some (lit "processing")
  else None.

(** A violation's row by what the workflow reads of it. *)
Definition ledgerIs (db : Violations) (vid : jsstring)
    (v : list (jsstring * StepState)) (p : jsstring)
    (b : StatusTransitions.ViolationStatus) : Prop :=
  exists row, db !! vid = Some row /\ ledgerView db vid = v
              /\ parse_status row = p /\ biz_status row = b.

End LedgerView.

(** ** src/lib/ai/gemini.ts: what the two calls resolve with *)

Module Gemini.

Import Ledger.

(** [GeminiUsage]; [cost_usd] is a fraction of a dollar, kept as the JSON
    value it is stored as. *)
Record GeminiUsage := mkUsage {
  prompt_tokens : Z;
  output_tokens : Z;
  thoughts_tokens : Z;
  total_tokens : Z;
  cost_usd : Json;
}.

Record FieldValidation := mkValidation {
  has_notice_id : bool;
  has_respondent : bool;
  has_address : bool;
  has_date : bool;
  has_fines : bool;
  all_items_have_code : bool;
  all_items_have_description : bool;
}.

(** [NOIParseResult] *)
Record NOIParseResult := mkParsed {
  notice_level_data : InsertRecords.NoticeLevelData;
  work_orders : list InsertRecords.WorkOrder;
}.

Record ParseNOIMeta := mkParseMeta {
  raw_response_length : Z;
  model : jsstring;
  pdf_size_bytes : Z;
  work_order_count : Z;
  validation : FieldValidation;
  usage : GeminiUsage;
}.

Record ParseNOIResponse := mkParseResponse {
  parsed : NOIParseResult;
  meta : ParseNOIMeta;
}.

(** A match of [\d{2}\/\d{2}\/\d{4}] at the head of a string. *)
Definition dateShapeAt (s : jsstring) : bool :=
  match s with
  | m1 :: m2 :: s1 :: d1 :: d2 :: s2 :: y1 :: y2 :: y3 :: y4 :: _ =>
      forallb isDigit [m1; m2] && (s1 =? 47)%N && forallb isDigit [d1; d2]
      && (s2 =? 47)%N && forallb isDigit [y1; y2; y3; y4]
  | _ => false
  end.

(** [/\d{2}\/\d{2}\/\d{4}/.test(s)]: a match starting anywhere. *)
Fixpoint dateShapeTest (s : jsstring) : bool :=
  dateShapeAt s || match s with [] => false | _ :: s' => dateShapeTest s' end.

(** [s.includes('$')] *)
Definition includesDollar (s : jsstring) : bool := existsb (fun c => (c =? 36)%N) s.

(** The [validation] object of [parseNOIPdf]. *)
Definition validate (p : NOIParseResult) : FieldValidation :=
  let nld := notice_level_data p in
  {| has_notice_id := truthy (InsertRecords.notice_id nld);
     has_respondent := truthy (InsertRecords.respondent nld);
     has_address := truthy (InsertRecords.infraction_address nld);
     has_date := truthy (InsertRecords.date_of_service nld)
                 && dateShapeTest (InsertRecords.date_of_service nld);
     has_fines := truthy (InsertRecords.total_fines nld)
                  && includesDollar (InsertRecords.total_fines nld);
     all_items_have_code :=
       forallb (fun wo => truthy (InsertRecords.violation_code wo)) (work_orders p);
     all_items_have_description :=
       forallb (fun wo => truthy (InsertRecords.violation_description wo)) (work_orders p) |}.

(** What [parseNOIPdf] resolves with when the response text parses to [p]:
    [pdf_len] is [pdfBuffer.length], [text_len] is [text.length] and [u] the
    usage extracted from the response. *)
Definition parseNOIPdf_response (p : NOIParseResult) (text_len pdf_len : Z)
    (u : GeminiUsage) : ParseNOIResponse :=
  {| parsed := p;
     meta := {| raw_response_length := text_len;
                model := lit "gemini-2.5-flash";
                pdf_size_bytes := pdf_len;
                work_order_count := Z.of_nat (length (work_orders p));
                validation := validate p;
                usage := u |} |}.

Record AnalyzePagesMeta := mkPagesMeta {
  pm_raw_response_length : Z;
  pm_model : jsstring;
  pm_pdf_size_bytes : Z;
  total_pages : Z;
  evidence_photo_count : Z;
  pages_with_codes : Z;
  pm_usage : GeminiUsage;
}.

Record AnalyzePagesResponse := mkPagesResponse {
  analysis : list MatchPhotos.Page;
  pages_meta : AnalyzePagesMeta;
}.

(** What [analyzePdfPages] resolves with when the response text parses to
    the pages [pages]. *)
Definition analyzePdfPages_response (pages : list MatchPhotos.Page)
    (text_len pdf_len : Z) (u : GeminiUsage) : AnalyzePagesResponse :=
  {| analysis := pages;
     pages_meta :=
       {| pm_raw_response_length := text_len;
          pm_model := lit "gemini-2.5-flash";
          pm_pdf_size_bytes := pdf_len;
          total_pages := Z.of_nat (length pages);
          evidence_photo_count :=
            Z.of_nat (length (List.filter MatchPhotos.is_evidence_photo pages));
          pages_with_codes :=
            Z.of_nat (length (List.filter
                                (fun p => truthy_opt (MatchPhotos.violation_code p)) pages));
          pm_usage := u |} |}.

Definition usage_json (u : GeminiUsage) : Json :=
  JObj [("prompt_tokens", JNum (prompt_tokens u));
        ("output_tokens", JNum (output_tokens u));
        ("thoughts_tokens", JNum (thoughts_tokens u));
        ("total_tokens", JNum (total_tokens u));
        ("cost_usd", cost_usd u)].

Definition validation_json (v : FieldValidation) : Json :=
  JObj [("has_notice_id", JBool (has_notice_id v));
        ("has_respondent", JBool (has_respondent v));
        ("has_address", JBool (has_address v));
        ("has_date", JBool (has_date v));
        ("has_fines", JBool (has_fines v));
        ("all_items_have_code", JBool (all_items_have_code v));
        ("all_items_have_description", JBool (all_items_have_description v))].

Definition parse_meta_json (m : ParseNOIMeta) : Json :=
  JObj [("raw_response_length", JNum (raw_response_length m));
        ("model", JStr (model m));
        ("pdf_size_bytes", JNum (pdf_size_bytes m));
        ("work_order_count", JNum (work_order_count m));
        ("validation", validation_json (validation m));
        ("usage", usage_json (usage m))].

Definition pages_meta_json (m : AnalyzePagesMeta) : Json :=
  JObj [("raw_response_length", JNum (pm_raw_response_length m));
        ("model", JStr (pm_model m));
        ("pdf_size_bytes", JNum (pm_pdf_size_bytes m));
        ("total_pages", JNum (total_pages m));
        ("evidence_photo_count", JNum (evidence_photo_count m));
        ("pages_with_codes", JNum (pages_with_codes m));
        ("usage", usage_json (pm_usage m))].

(** The token counts and the cost that both Gemini steps log. *)
Definition usage_log (u : GeminiUsage) : gmap string Json :=
  {[ "prompt_tokens" := JNum (prompt_tokens u);
     "output_tokens" := JNum (output_tokens u);
     "thoughts_tokens" := JNum (thoughts_tokens u);
     "cost_usd" := cost_usd u ]}.

End Gemini.

(** ** parseNOI: the bodies of the other steps, and the workflow *)

Module Pipeline.

Import Ledger Timed Gemini.

(** A string or null as a JSON value. *)
Definition opt_json (o : option jsstring) : Json := from_option JStr JNull o.

(** A count reported by the record store, or null. *)
Definition count_json (o : option Z) : Json := from_option JNum JNull o.

(** String interpolation of a count that may be null. *)
Definition count_string (o : option Z) : jsstring :=
  from_option Number_toString (lit "null") o.

(** [s || 'empty'] *)
Definition or_empty (s : jsstring) : jsstring := if truthy s then s else lit "empty".

(** An error object of the storage or of the record store: its message and
    the other fields the workflow logs. *)
Record StoreError := mkStoreError {
  se_message : jsstring;
  se_name : option Json;
  se_code : option Json;
  se_details : option Json;
}.

(** One optional key of a log payload: left out when undefined. *)
Definition opt_key (k : string) (o : option Json) : gmap string Json :=
  from_option (fun v => {[ k := v ]}) ∅ o.

(** What [storage.download] resolves with: the size of the blob when there
    is one, and the error when there is one. *)
Record Download := mkDownload {
  dl_size : option Z;
  dl_error : option StoreError;
}.

(** The clock readings of a step body, in the order of its logger calls. *)
Record StepClock := mkStepClock {
  ck_start : Clock;
  ck_timed1 : TimedClock;
  ck_timed2 : TimedClock;
  ck_fail : Clock;
  t_info1 : jsstring;
  t_info2 : jsstring;
  ck_complete : Clock;
}.

(** The items, the violation update and the photo rows a step sent to the
    record store. *)
Record ItemRecord := mkItemRecord {
  ir_org_id : jsstring;
  ir_violation_id : jsstring;
  ir_item_number : Z;
  ir_violation_code : jsstring;
  ir_priority : Z;
  ir_abatement_deadline : jsstring;
  ir_fine : option JsNumber;
  ir_violation_description : jsstring;
  ir_specific_location : jsstring;
  ir_floor_number : jsstring;
  ir_date_of_infraction : option jsstring;
  ir_time_of_infraction : jsstring;
  ir_task_description : jsstring;
}.

Record Sent := mkSent {
  sent_update : option (InsertRecords.ViolationUpdate * NOIParseResult);
  sent_items : option (list ItemRecord);
}.

Section Host.

Variable LocalTZA : Z -> bool -> Z.
Variable parse_other : jsstring -> option Z.

(** The stack the engine attaches to a [new Error(message)]. *)
Variable newErrorStack : jsstring -> option jsstring.

(** The JSON value of a Number that is not an integer. *)
Variable number_json : JsNumber -> Json.

(** The [+] of two values read from the metadata. *)
Variable js_add : Json -> Json -> Json.

Variable event_data : MatchPhotos.EventData.
Variable event_id : Json.

Definition newError (msg : jsstring) : Thrown := ErrorObject msg (newErrorStack msg).

(** The RangeError of [toISOString] on an invalid date, the one exception
    the deadline computation raises. *)
Definition rangeError : Thrown := newError (lit "Invalid time value").

(** *** init *)

Definition initStep (now : jsstring) (lg : ParseLogger) (db : Violations)
    : ParseLogger * Violations :=
  (addLog info (lit "init") (lit "Parse pipeline started")
     (Some {[ "violationId" := JStr (MatchPhotos.violationId event_data);
              "pdfStoragePath" := JStr (MatchPhotos.pdfStoragePath event_data);
              "orgId" := JStr (MatchPhotos.orgId event_data);
              "event_id" := event_id ]})
     now lg,
   alter LedgerRuns.markParsing (MatchPhotos.violationId event_data) db).

(** *** ai-parse *)

(** The [verification] object of the step. *)
Definition aiParseVerification (r : ParseNOIResponse) : StepVerification :=
  let v := validation (meta r) in
  let nld := notice_level_data (parsed r) in
  let n := work_order_count (meta r) in
  {| passed := has_notice_id v && has_address v && (0 <? n);
     checks :=
       [mkCheck (lit "notice_id present") (has_notice_id v)
          (Some (or_empty (InsertRecords.notice_id nld)));
        mkCheck (lit "respondent present") (has_respondent v)
          (Some (or_empty (InsertRecords.respondent nld)));
        mkCheck (lit "address present") (has_address v)
          (Some (or_empty (InsertRecords.infraction_address nld)));
        mkCheck (lit "date valid") (has_date v)
          (Some (or_empty (InsertRecords.date_of_service nld)));
        mkCheck (lit "fines present") (has_fines v)
          (Some (or_empty (InsertRecords.total_fines nld)));
        mkCheck (lit "work_orders found") (0 <? n)
          (Some (Number_toString n ++ lit " items"));
        mkCheck (lit "all items have codes") (all_items_have_code v) None;
        mkCheck (lit "all items have descriptions") (all_items_have_description v) None] |}.

Definition aiParseExtras (r : ParseNOIResponse) : gmap string Json :=
  {[ "items_found" := JNum (work_order_count (meta r));
     "gemini_meta" := parse_meta_json (meta r);
     "costs" := JObj [("ai_parse", usage_json (usage (meta r)))] ]}.

(** The body of the step: how it settles, and the logger and the store it
    leaves.  [download] and [extraction] are how the storage download and
    [parseNOIPdf] settle. *)
Definition aiParseStep (ck : StepClock) (download : Outcome Download)
    (extraction : Outcome ParseNOIResponse) (lg : ParseLogger) (db : Violations)
    : Outcome NOIParseResult * (ParseLogger * Violations) :=
  let n := lit "ai_parse" in
  let st1 :=
    stepStart n (lit "Downloading PDF and sending to Gemini for structured extraction")
      (ck_start ck) lg db in
  let t1 := timed n (lit "Download PDF from Supabase Storage") (ck_timed1 ck) download st1.1 in
  match t1.1 with
  | Rejected err => (Rejected err, (t1.2, st1.2))
  | Resolved d =>
      match dl_error d, dl_size d with
      | None, Some size =>
          let lg3 :=
            addLog info n (lit "PDF downloaded")
              (Some {[ "pdf_size_bytes" := JNum size ]}) (t_info1 ck) t1.2 in
          let t2 := timed n (lit "Gemini structured extraction") (ck_timed2 ck) extraction lg3 in
          match t2.1 with
          | Rejected err => (Rejected err, (t2.2, st1.2))
          | Resolved geminiResult =>
              let lg5 :=
                addLog info n (lit "Token usage")
                  (Some (usage_log (usage (meta geminiResult)))) (t_info2 ck) t2.2 in
              (Resolved (parsed geminiResult),
               stepComplete n
                 (lit "Extracted " ++ Number_toString (work_order_count (meta geminiResult))
                  ++ lit " violation items from "
                  ++ Number_toString (pdf_size_bytes (meta geminiResult)) ++ lit " byte PDF")
                 (Some (aiParseVerification geminiResult))
                 (Some (aiParseExtras geminiResult)) (ck_complete ck) lg5 st1.2)
          end
      | downloadError, _ =>
          let message := se_message <$> downloadError in
          (Rejected (newError (lit "Failed to download PDF: " ++ interp message)),
           stepFail n
             (lit "PDF download failed: "
              ++ (if truthy_opt message then default [] message else lit "No data returned"))
             (Some (<[ "storage_path" := JStr (MatchPhotos.pdfStoragePath event_data) ]>
                      (opt_key "error_code" (downloadError ≫= se_name))))
             (ck_fail ck) t1.2 st1.2)
      end
  end.

(** *** insert-records *)

Definition itemRecord (wo : InsertRecords.WorkOrder) : ItemRecord :=
  {| ir_org_id := MatchPhotos.orgId event_data;
     ir_violation_id := MatchPhotos.violationId event_data;
     ir_item_number := InsertRecords.item_number wo;
     ir_violation_code := InsertRecords.violation_code wo;
     ir_priority := InsertRecords.priority wo;
     ir_abatement_deadline := InsertRecords.abatement_deadline wo;
     ir_fine := InsertRecords.parseFine (InsertRecords.fine wo);
     ir_violation_description := InsertRecords.violation_description wo;
     ir_specific_location := InsertRecords.specific_location wo;
     ir_floor_number := InsertRecords.floor_number wo;
     ir_date_of_infraction := InsertRecords.parseDate (InsertRecords.date_of_infraction wo);
     ir_time_of_infraction := InsertRecords.time_of_infraction wo;
     ir_task_description := InsertRecords.task_description wo |}.

Definition storeErrorData (e : StoreError) : gmap string Json :=
  opt_key "error_code" (se_code e) ∪ opt_key "error_details" (se_details e).

(** The verification of the step; [count] is the number of item rows the
    store reports for the violation. *)
Definition insertVerification (count : option Z) (n_items : Z) : StepVerification :=
  {| passed := bool_decide (count = Some n_items);
     checks :=
       [mkCheck (lit "violation updated") true None;
        mkCheck (lit "items inserted") true
          (Some (Number_toString n_items ++ lit " items"));
        mkCheck (lit "count matches") (bool_decide (count = Some n_items))
          (Some (lit "DB has " ++ count_string count ++ lit ", expected "
                 ++ Number_toString n_items))] |}.

(** The body of the step.  [update] and [insert] are how the two writes
    settle, each with the error the store answered, if any; [count] is the
    store's count of the violation's items afterwards. *)
Definition insertRecordsStep (ck : StepClock) (aiResult : NOIParseResult)
    (update insert : Outcome (option StoreError)) (count : option Z)
    (lg : ParseLogger) (db : Violations)
    : Outcome unit * Sent * (ParseLogger * Violations) :=
  let n := lit "insert_records" in
  let nld := notice_level_data aiResult in
  let wos := work_orders aiResult in
  let st1 := stepStart n (lit "Saving parsed data to database") (ck_start ck) lg db in
  match InsertRecords.violationUpdate LocalTZA parse_other nld wos with
  | JsDate.Throws _ => (Rejected rangeError, mkSent None None, st1)
  | JsDate.Returns upd =>
      let lg2 :=
        addLog info n (lit "Parsed notice-level fields")
          (Some {[ "notice_id" := JStr (InsertRecords.notice_id nld);
                   "respondent" := JStr (InsertRecords.respondent nld);
                   "service_date" := opt_json (InsertRecords.upd_date_of_service upd);
                   "deadline_date" := opt_json (InsertRecords.upd_abatement_deadline upd);
                   "total_fines" :=
                     from_option number_json JNull (InsertRecords.upd_total_fines upd) ]})
          (t_info1 ck) st1.1 in
      let t1 := timed n (lit "Update violation record") (ck_timed1 ck) update lg2 in
      let sent1 := Some (upd, aiResult) in
      match t1.1 with
      | Rejected err => (Rejected err, mkSent sent1 None, (t1.2, st1.2))
      | Resolved (Some updateError) =>
          (Rejected (newError (lit "Failed to update violation: " ++ se_message updateError)),
           mkSent sent1 None,
           stepFail n (lit "Violation update failed: " ++ se_message updateError)
             (Some (storeErrorData updateError)) (ck_fail ck) t1.2 st1.2)
      | Resolved None =>
          let items := itemRecord <$> wos in
          let n_items := Z.of_nat (length items) in
          let t2 :=
            timed n (lit "Insert " ++ Number_toString n_items ++ lit " violation items")
              (ck_timed2 ck) insert t1.2 in
          let sent2 := mkSent sent1 (Some items) in
          match t2.1 with
          | Rejected err => (Rejected err, sent2, (t2.2, st1.2))
          | Resolved (Some insertError) =>
              (Rejected
                 (newError (lit "Failed to insert violation items: " ++ se_message insertError)),
               sent2,
               stepFail n (lit "Item insert failed: " ++ se_message insertError)
                 (Some (<[ "items_attempted" := JNum n_items ]> (storeErrorData insertError)))
                 (ck_fail ck) t2.2 st1.2)
          | Resolved None =>
              (Resolved (), sent2,
               stepComplete n (lit "Saved " ++ count_string count ++ lit " violation items")
                 (Some (insertVerification count n_items)) None (ck_complete ck) t2.2 st1.2)
          end
      end
  end.

(** *** analyze-pages *)

Definition pageSummary (p : MatchPhotos.Page) : Json :=
  JObj [("page", JNum (MatchPhotos.page_number p));
        ("code", opt_json (MatchPhotos.violation_code p));
        ("is_photo", JBool (MatchPhotos.is_evidence_photo p));
        ("desc", JStr (take 80 (MatchPhotos.description p)))].

Definition analyzeVerification (m : AnalyzePagesMeta) : StepVerification :=
  {| passed := 0 <? total_pages m;
     checks :=
       [mkCheck (lit "pages detected") (0 <? total_pages m)
          (Some (Number_toString (total_pages m) ++ lit " pages"));
        mkCheck (lit "evidence photos found") (0 <? evidence_photo_count m)
          (Some (Number_toString (evidence_photo_count m) ++ lit " photos"))] |}.

Definition analyzeExtras (m : AnalyzePagesMeta) : gmap string Json :=
  {[ "total_pages" := JNum (total_pages m);
     "gemini_page_meta" := pages_meta_json m;
     "costs" := JObj [("analyze_pages", usage_json (pm_usage m))] ]}.

(** The body of the step; [download] resolves with the size of the blob
    when there is one. *)
Definition analyzePagesStep (ck : StepClock) (download : Outcome (option Z))
    (pageAnalysis : Outcome AnalyzePagesResponse) (lg : ParseLogger) (db : Violations)
    : Outcome (list MatchPhotos.Page) * (ParseLogger * Violations) :=
  let n := lit "analyze_pages" in
  let st1 :=
    stepStart n (lit "Sending PDF to Gemini for page-level analysis") (ck_start ck) lg db in
  let t1 := timed n (lit "Re-download PDF for page analysis") (ck_timed1 ck) download st1.1 in
  match t1.1 with
  | Rejected err => (Rejected err, (t1.2, st1.2))
  | Resolved None =>
      (Rejected (newError (lit "Failed to download PDF for page analysis")),
       stepFail n (lit "Failed to re-download PDF for page analysis") None
         (ck_fail ck) t1.2 st1.2)
  | Resolved (Some _) =>
      let t2 := timed n (lit "Gemini page-level analysis") (ck_timed2 ck) pageAnalysis t1.2 in
      match t2.1 with
      | Rejected err => (Rejected err, (t2.2, st1.2))
      | Resolved geminiResult =>
          let m := pages_meta geminiResult in
          let lg3 :=
            addLog info n (lit "Page analysis details")
              (Some {[ "total_pages" := JNum (total_pages m);
                       "evidence_photos" := JNum (evidence_photo_count m);
                       "pages_with_codes" := JNum (pages_with_codes m);
                       "page_summary" := JArr (pageSummary <$> analysis geminiResult) ]})
              (t_info1 ck) t2.2 in
          let lg4 :=
            addLog info n (lit "Token usage") (Some (usage_log (pm_usage m)))
              (t_info2 ck) lg3 in
          (Resolved (analysis geminiResult),
           stepComplete n
             (lit "Analyzed " ++ Number_toString (total_pages m) ++ lit " pages, found "
              ++ Number_toString (evidence_photo_count m) ++ lit " evidence photos")
             (Some (analyzeVerification m)) (Some (analyzeExtras m))
             (ck_complete ck) lg4 st1.2)
      end
  end.

(** *** mark-complete *)

(** [v ?? d] *)
Definition nullish (o : option Json) (d : Json) : Json :=
  match o with
  | Some JNull | None => d
  | Some v => v
  end.

(** [o?.k]: undefined when [o] is null or undefined. *)
Definition chain (o : option Json) (k : string) : option Json :=
  match o with
  | Some JNull | None => None
  | Some v => ParseRoute.get_field v k
  end.

(** The own properties of a value that a spread copies, in order; the keys
    of an array or of a string are its indices. *)
Definition index_key (i : nat) : string :=
  DecimalString.NilZero.string_of_uint (Nat.to_uint i).

Definition own_entries (v : Json) : list (string * Json) :=
  match v with
  | JObj kvs => kvs
  | JArr xs => imap (fun i x => (index_key i, x)) xs
  | JStr s => imap (fun i c => (index_key i, JStr [c])) s
  | _ => []
  end.

(** Assignment to a key of an object literal: in place when the key is
    there, at the end otherwise. *)
Fixpoint obj_set (k : string) (v : Json) (kvs : list (string * Json)) : list (string * Json) :=
  match kvs with
  | [] => [(k, v)]
  | (k', v') :: kvs' =>
      if String.eqb k' k then (k, v) :: kvs' else (k', v') :: obj_set k v kvs'
  end.

(** [(meta.costs || {}) as ParseCosts], [meta] being the persisted metadata
    of the violation. *)
Definition existingCosts (db : Violations) : Json :=
  match LedgerRuns.persistedFields db (MatchPhotos.violationId event_data) !! "costs" with
  | Some c => if ParseRoute.truthyJson c then c else JObj []
  | None => JObj []
  end.

Definition totalCost (costs : Json) : Json :=
  js_add (nullish (chain (ParseRoute.get_field costs "ai_parse") "cost_usd") (JNum 0))
         (nullish (chain (ParseRoute.get_field costs "analyze_pages") "cost_usd") (JNum 0)).

Definition completeVerification (itemCount photoCount : option Z) : StepVerification :=
  {| passed := 0 <? default 0 itemCount;
     checks :=
       [mkCheck (lit "violation items exist") (0 <? default 0 itemCount)
          (Some (count_string itemCount ++ lit " items"));
        mkCheck (lit "photos exist") (0 <? default 0 photoCount)
          (Some (count_string photoCount ++ lit " photos"))] |}.

(** The body of the step; [itemCount] and [photoCount] are the store's
    counts of the violation's items and photos. *)
Definition markCompleteStep (ck : StepClock) (itemCount photoCount : option Z)
    (lg : ParseLogger) (db : Violations) : ParseLogger * Violations :=
  let n := lit "complete" in
  let st1 := stepStart n (lit "Finalizing parse") (ck_start ck) lg db in
  let costs := existingCosts st1.2 in
  let total := totalCost costs in
  let lg2 :=
    addLog info n (lit "Final counts")
      (Some {[ "item_count" := count_json itemCount;
               "photo_count" := count_json photoCount;
               "total_cost_usd" := total ]})
      (t_info1 ck) st1.1 in
  let db2 := alter LedgerRuns.markParsed (MatchPhotos.violationId event_data) st1.2 in
  stepComplete n (lit "Parse pipeline finished successfully")
    (Some (completeVerification itemCount photoCount))
    (Some {[ "costs" := JObj (obj_set "total_usd" total (own_entries costs)) ]})
    (ck_complete ck) lg2 db2.

End Host.

(** *** The workflow, one attempt of each step *)

(** How the calls of one run settle, and the store's answers, for the calls
    whose answer the workflow looks at.  The two updates of the status
    column and the reads and writes of the ledger are not among them: the
    source does not look at their errors, and here the store applies them
    ([PipelineWrites] has the workflow with the outcome of the two updates
    explicit). *)
Record Oracles := mkOracles {
  o_download : Outcome Download;
  o_extraction : Outcome ParseNOIResponse;
  o_update : Outcome (option StoreError);
  o_insert : Outcome (option StoreError);
  o_count : option Z;
  o_redownload : Outcome (option Z);
  o_pageAnalysis : Outcome AnalyzePagesResponse;
  o_items : option (list MatchPhotos.Item);
  o_itemCount : option Z;
  o_photoCount : option Z;
}.

Record Clocks := mkClocks {
  c_init : jsstring;
  c_ai : StepClock;
  c_insert : StepClock;
  c_analyze : StepClock;
  c_match1 : Clock;
  c_match2 : Clock;
  c_match : nat -> jsstring;
  c_complete : StepClock;
}.

(** What a run leaves: the violations, the photo rows and what
    insert-records sent. *)
Record Left := mkLeft {
  violations : Violations;
  photo_rows : list MatchPhotos.PhotoRow;
  records : Sent;
}.

Section Workflow.

Variable LocalTZA : Z -> bool -> Z.
Variable parse_other : jsstring -> option Z.
Variable newErrorStack : jsstring -> option jsstring.
Variable number_json : JsNumber -> Json.
Variable js_add : Json -> Json -> Json.
Variable toLowerCase : jsstring -> jsstring.
Variable photoError : list MatchPhotos.PhotoRow -> MatchPhotos.PhotoRow -> option jsstring.
Variable event_data : MatchPhotos.EventData.
Variable event_id : Json.

(** [parseNOI]: the steps in order, each attempted once, a step that throws
    ending the run.  Each step body runs in an invocation of its own and so
    on the logger that invocation creates (parse-logger.ts, on [flush]);
    the values the steps return are handed on.  The updates of the status
    by [init] and by [mark-complete], whose result the source discards, are
    applied. *)
Definition parseNOI (o : Oracles) (c : Clocks) (db : Violations)
    (table : list MatchPhotos.PhotoRow) : Outcome unit * Left :=
  let log := new_logger (MatchPhotos.violationId event_data) in
  let db0 := (initStep event_data event_id (c_init c) log db).2 in
  let ai := aiParseStep newErrorStack event_data (c_ai c) (o_download o) (o_extraction o) log db0 in
  match ai.1 with
  | Rejected err => (Rejected err, mkLeft ai.2.2 table (mkSent None None))
  | Resolved aiResult =>
      let ins :=
        insertRecordsStep LocalTZA parse_other newErrorStack number_json event_data
          (c_insert c) aiResult (o_update o) (o_insert o) (o_count o) log ai.2.2 in
      match ins.1.1 with
      | Rejected err => (Rejected err, mkLeft ins.2.2 table ins.1.2)
      | Resolved _ =>
          let an :=
            analyzePagesStep newErrorStack (c_analyze c) (o_redownload o)
              (o_pageAnalysis o) log ins.2.2 in
          match an.1 with
          | Rejected err => (Rejected err, mkLeft an.2.2 table ins.1.2)
          | Resolved pages =>
              let mp :=
                MatchPhotos.matchPhotosStep toLowerCase photoError event_data
                  (c_match1 c) (c_match2 c) (c_match c) (o_items o) pages table log an.2.2 in
              let done :=
                markCompleteStep js_add event_data (c_complete c)
                  (o_itemCount o) (o_photoCount o) log mp.1.2 in
              (Resolved (), mkLeft done.2 mp.2 ins.1.2)
          end
      end
  end.

End Workflow.

End Pipeline.

(** ** The workflow when the store may leave a status update undone *)

(** The workflow sends its two updates of the status column and does not
    look at what the store answers (layout.tsx, the [init] and the
    [mark-complete] step): an update the store refuses leaves the row as it
    was, and the run goes on.  The definitions of this module are those of
    [Pipeline] with the outcome of the two updates made explicit. *)
Module PipelineWrites.

Import Ledger Timed Gemini Pipeline.

(** Whether the store applies the update to PARSING and the update to
    PARSED. *)
Record StatusWrites := mkStatusWrites {
  w_parsing : bool;
  w_parsed : bool;
}.

(** [update(fields).eq('id', vid)], applied or not. *)
Definition statusUpdate (applied : bool) (f : ViolationRow -> ViolationRow)
    (vid : jsstring) (db : Violations) : Violations :=
  if applied then alter f vid db else db.

Section Workflow.

Variable LocalTZA : Z -> bool -> Z.
Variable parse_other : jsstring -> option Z.
Variable newErrorStack : jsstring -> option jsstring.
Variable number_json : JsNumber -> Json.
Variable js_add : Json -> Json -> Json.
Variable toLowerCase : jsstring -> jsstring.
Variable photoError : list MatchPhotos.PhotoRow -> MatchPhotos.PhotoRow -> option jsstring.
Variable event_data : MatchPhotos.EventData.
Variable event_id : Json.

(** The [init] step. *)
Definition initStepWith (applied : bool) (now : jsstring) (lg : ParseLogger)
    (db : Violations) : ParseLogger * Violations :=
  (addLog info (lit "init") (lit "Parse pipeline started")
     (Some {[ "violationId" := JStr (MatchPhotos.violationId event_data);
              "pdfStoragePath" := JStr (MatchPhotos.pdfStoragePath event_data);
              "orgId" := JStr (MatchPhotos.orgId event_data);
              "event_id" := event_id ]})
     now lg,
   statusUpdate applied LedgerRuns.markParsing (MatchPhotos.violationId event_data) db).

(** The [mark-complete] step. *)
Definition markCompleteStepWith (applied : bool) (ck : StepClock)
    (itemCount photoCount : option Z) (lg : ParseLogger) (db : Violations)
    : ParseLogger * Violations :=
  let n := lit "complete" in
  let st1 := stepStart n (lit "Finalizing parse") (ck_start ck) lg db in
  let costs := existingCosts event_data st1.2 in
  let total := totalCost js_add costs in
  let lg2 :=
    addLog info n (lit "Final counts")
      (Some {[ "item_count" := count_json itemCount;
               "photo_count" := count_json photoCount;
               "total_cost_usd" := total ]})
      (t_info1 ck) st1.1 in
  let db2 :=
    statusUpdate applied LedgerRuns.markParsed (MatchPhotos.violationId event_data) st1.2 in
  stepComplete n (lit "Parse pipeline finished successfully")
    (Some (completeVerification itemCount photoCount))
    (Some {[ "costs" := JObj (obj_set "total_usd" total (own_entries costs)) ]})
    (ck_complete ck) lg2 db2.

(** The workflow: [Pipeline.parseNOI] with the two steps above. *)
Definition parseNOIWith (w : StatusWrites) (o : Oracles) (c : Clocks) (db : Violations)
    (table : list MatchPhotos.PhotoRow) : Outcome unit * Left :=
  let log := new_logger (MatchPhotos.violationId event_data) in
  let db0 := (initStepWith (w_parsing w) (c_init c) log db).2 in
  let ai := aiParseStep newErrorStack event_data (c_ai c) (o_download o) (o_extraction o) log db0 in
  match ai.1 with
  | Rejected err => (Rejected err, mkLeft ai.2.2 table (mkSent None None))
  | Resolved aiResult =>
      let ins :=
        insertRecordsStep LocalTZA parse_other newErrorStack number_json event_data
          (c_insert c) aiResult (o_update o) (o_insert o) (o_count o) log ai.2.2 in
      match ins.1.1 with
      | Rejected err => (Rejected err, mkLeft ins.2.2 table ins.1.2)
      | Resolved _ =>
          let an :=
            analyzePagesStep newErrorStack (c_analyze c) (o_redownload o)
              (o_pageAnalysis o) log ins.2.2 in
          match an.1 with
          | Rejected err => (Rejected err, mkLeft an.2.2 table ins.1.2)
          | Resolved pages =>
              let mp :=
                MatchPhotos.matchPhotosStep toLowerCase photoError event_data
                  (c_match1 c) (c_match2 c) (c_match c) (o_items o) pages table log an.2.2 in
              let done :=
                markCompleteStepWith (w_parsed w) (c_complete c)
                  (o_itemCount o) (o_photoCount o) log mp.1.2 in
              (Resolved (), mkLeft done.2 mp.2 ins.1.2)
          end
      end
  end.

End Workflow.

End PipelineWrites.

(** ** A concrete run of the workflow, used in the statements *)

Module PipelineRuns.

Import Ledger Timed Gemini Pipeline.

(** A host on UTC whose [Date] reads the ISO formats only, whose errors
    carry no stack, that writes integral numbers as they are and the others
    as null, and adds integers. *)
Definition utc : Z -> bool -> Z := fun _ _ => 0.
Definition iso_only : jsstring -> option Z := fun _ => None.
Definition no_stack : jsstring -> option jsstring := fun _ => None.
Definition integral_json (x : JsNumber) : Json :=
  match x with
  | Decimal neg d e => if 0 <=? e then JNum ((if neg then -1 else 1) * d * 10 ^ e) else JNull
  | _ => JNull
  end.
Definition integer_add (a b : Json) : Json :=
  match a, b with JNum x, JNum y => JNum (x + y) | _, _ => JNull end.

Definition timedClock : TimedClock := mkTimedClock 0 5 Runs.T1 Runs.T1.
Definition stepClock : StepClock :=
  mkStepClock (Runs.at_time Runs.T1) timedClock timedClock (Runs.at_time Runs.T2)
    Runs.T1 Runs.T1 (Runs.at_time Runs.T2).
Definition clocks : Clocks :=
  mkClocks Runs.T1 stepClock stepClock stepClock (Runs.at_time Runs.T1)
    (Runs.at_time Runs.T2) (fun _ => Runs.T1) stepClock.

(** A notice served on 01/01/2025 with one work order of sixty days. *)
Definition notice : InsertRecords.NoticeLevelData :=
  InsertRecords.mkNotice (lit "25NOIR-INS-07709") (lit "ACME LLC") (lit "1 MAIN ST NW")
    (lit "01/01/2025") (lit "$500").
Definition order : InsertRecords.WorkOrder :=
  InsertRecords.mkWorkOrder 1 MatchPhotosSpec.code_regular 2 (lit "60 Days") (lit "$500")
    (lit "Peeling paint") (lit "Kitchen") (lit "1") (lit "12/20/2024") (lit "10:00")
    (lit "Repaint").
Definition parsedNotice : NOIParseResult := mkParsed notice [order].
Definition usage0 : GeminiUsage := mkUsage 100 20 0 120 (JNum 0).
Definition extraction : ParseNOIResponse := parseNOIPdf_response parsedNotice 400 1000 usage0.

(** The same notice without an address. *)
Definition parsedNoAddress : NOIParseResult :=
  mkParsed (InsertRecords.mkNotice (lit "25NOIR-INS-07709") (lit "ACME LLC") []
              (lit "01/01/2025") (lit "$500")) [order].

(** The same notice with a date of service that is no date. *)
Definition parsedBadDate : NOIParseResult :=
  mkParsed (InsertRecords.mkNotice (lit "25NOIR-INS-07709") (lit "ACME LLC")
              (lit "1 MAIN ST NW") (lit "x/y/z") (lit "$500")) [order].

Definition pageAnalysis : AnalyzePagesResponse :=
  analyzePdfPages_response
    [MatchPhotosSpec.page_of 1 None false;
     MatchPhotosSpec.page_of 2 (Some MatchPhotosSpec.code_page) true] 300 1000 usage0.

(** The row the parse route inserted, and the answers of a run in which
    every call succeeds. *)
Definition routed : Violations := {[ lit "v1" := ParseRoute.initialRow ]}.
Definition oracles : Oracles :=
  mkOracles (Resolved (mkDownload (Some 1000) None)) (Resolved extraction)
    (Resolved None) (Resolved None) (Some 1) (Resolved (Some 1000)) (Resolved pageAnalysis)
    (Some [MatchPhotos.mkItem (lit "a") (Some MatchPhotosSpec.code_regular)])
    (Some 1) (Some 1).

Definition storeDown : Thrown := ErrorObject (lit "fetch failed") None.

(** A request of a project manager for an uploaded notice, and the store's
    answer to the insert. *)
Definition request : ParseRoute.Request :=
  ParseRoute.mkRequest (Some (lit "u1")) false
    (JObj [("pdfStoragePath", JStr (lit "org/v1/notice.pdf"))])
    (Some (ParseRoute.mkProfile (lit "org") (lit "PROJECT_MANAGER"))).
Definition answer : ParseRoute.InsertAnswer := ParseRoute.mkInsertAnswer (Some (lit "v1")) None.

End PipelineRuns.

(** ** Vocabulary of the statements about the workflow *)

Module PipelineSpec.

Import Ledger.

(** Two states of the [violations] table that differ at most in the parse
    columns of one violation: every other row is the same, and that
    violation is there or not, with the same status, in both. *)
Definition sameStatus (vid : jsstring) (db db' : Violations) : Prop :=
  (forall k, k <> vid -> db' !! k = db !! k)
  /\ (biz_status <$> db' !! vid) = (biz_status <$> db !! vid).

End PipelineSpec.

(** ** The progress bar and the timeline of the parse page *)

Module ParseProgress.

Import Ledger.

Definition VISIBLE_STEPS : list jsstring :=
  [lit "ai_parse"; lit "insert_records"; lit "analyze_pages";
   lit "match_photos"; lit "complete"].

(** [100 / VISIBLE_STEPS.length]: 20, and half of it 10, so that every sum
    the component forms is an integer. *)
Definition STEP_WEIGHT : Z := 100 / Z.of_nat (length VISIBLE_STEPS).

(** [VISIBLE_STEPS.includes(name)] *)
Definition isVisible (n : jsstring) : bool := existsb (streq n) VISIBLE_STEPS.

(** The callback of [steps.reduce]. *)
Definition progressStep (acc : Z) (s : ParseStepStatus) : Z :=
  if negb (isVisible (step s)) then acc
  else match status s with
       | completed => acc + STEP_WEIGHT
       | running => acc + STEP_WEIGHT / 2
       | _ => acc
       end.

(** [progress]; [steps] is [metadata?.steps || []]. *)
Definition progress (steps : list ParseStepStatus) : Z := foldl progressStep 0 steps.

(** [visibleSteps]: for each visible name the first entry of that name, or
    a pending entry. *)
Definition visibleSteps (steps : list ParseStepStatus) : list ParseStepStatus :=
  (fun n => default (mkStep n pending None None None None)
              (find (fun s => streq (step s) n) steps)) <$> VISIBLE_STEPS.

(** What an entry of the timeline stands for in the bar: a full weight when
    it is shown as done, half of it when it is shown as active. *)
Definition shownWeight (s : ParseStepStatus) : Z :=
  match status s with
  | completed => STEP_WEIGHT
  | running => STEP_WEIGHT / 2
  | _ => 0
  end.

End ParseProgress.

(** ** The photo groups of the detail page and of the parsed results *)

Module PhotoGroups.

Section Photos.

(** A row of [photos] as the page selected it, and its [violation_item_id]. *)
Variable Photo : Type.
Variable item_id : Photo -> option jsstring.

(** The map [photosByItem] and the array [unmatchedPhotos]. *)
Definition Groups : Type := gmap jsstring (list Photo) * list Photo.

(** One iteration of [for (const photo of photos)]. *)
Definition groupStep (g : Groups) (photo : Photo) : Groups :=
  if truthy_opt (item_id photo) then
    let key := default [] (item_id photo) in
    let existing := default [] (g.1 !! key) in
    (<[key := existing ++ [photo]]> g.1, g.2)
  else (g.1, g.2 ++ [photo]).

Definition groupPhotos (photos : list Photo) : Groups := foldl groupStep (∅, []) photos.

(** [photosByItem.get(id) || []] *)
Definition itemPhotos (g : Groups) (id : jsstring) : list Photo := default [] (g.1 !! id).

(** The photos of an item id that is not empty. *)
Definition ofItem (id : jsstring) (p : Photo) : Prop := item_id p = Some id /\ id <> [].

#[global] Instance ofItem_dec id p : Decision (ofItem id p).
Proof. unfold ofItem. apply _. Defined.

End Photos.

End PhotoGroups.

(** ** The CSV import: the column mapping of the page and the import route *)

Module CsvImport.

Import Ledger ParseRoute.

(** A parsed row of the CSV file: its columns, header and value, in the
    order of [Object.keys]; the headers are distinct. *)
Definition ParsedRow : Type := list (jsstring * jsstring).

(** [row[k]] *)
Definition cell (row : ParsedRow) (k : jsstring) : option jsstring :=
  snd <$> find (fun e => streq e.1 k) row.

(** The fields of the object [mapColumns] returns. *)
Record Mapped := mkMapped {
  m_notice_id : jsstring;
  m_respondent : jsstring;
  m_infraction_address : jsstring;
  m_date_of_service : jsstring;
  m_total_fines : jsstring;
  m_priority : jsstring;
  m_abatement_deadline : jsstring;
  m_notes : jsstring;
  m_status : jsstring;
}.

(** The accepted names of the fields, in the order [findValue] tries them. *)
Definition notice_id_keys : list jsstring :=
  [lit "notice_id"; lit "noticeid"; lit "noi"; lit "noinumber"; lit "noi_number"].
Definition respondent_keys : list jsstring :=
  [lit "respondent"; lit "owner"; lit "propertyowner"; lit "llc"].
Definition infraction_address_keys : list jsstring :=
  [lit "address"; lit "infraction_address"; lit "infractionaddress"; lit "property";
   lit "propertyaddress"].
Definition date_of_service_keys : list jsstring :=
  [lit "date_of_service"; lit "dateofservice"; lit "servicedate"; lit "date"].
Definition total_fines_keys : list jsstring :=
  [lit "total_fines"; lit "totalfines"; lit "fines"; lit "fineamount"; lit "fine"].
Definition priority_keys : list jsstring := [lit "priority"; lit "urgency"; lit "level"].
Definition abatement_deadline_keys : list jsstring :=
  [lit "abatement_deadline"; lit "deadline"; lit "duedate"; lit "due_date"].
Definition notes_keys : list jsstring := [lit "notes"; lit "comments"; lit "description"].
Definition status_keys : list jsstring := [lit "status"].

Section Host.

(** [String.prototype.toLowerCase]. *)
Variable toLowerCase : jsstring -> jsstring.

(** [k.toLowerCase().replace(/[_\s-]/g, '')] *)
Definition normalizeHeader (k : jsstring) : jsstring :=
  List.filter (fun c => negb ((c =? 95)%N || isWhiteSpace c || (c =? 45)%N)) (toLowerCase k).

(** [findValue(...keys)]: for each key in turn, the first column whose
    normalized header is the normalized key, taken when its header and its
    value are not empty. *)
Fixpoint findValue (row : ParsedRow) (keys : list jsstring) : jsstring :=
  match keys with
  | [] => []
  | key :: keys' =>
      match find (fun e => streq (normalizeHeader e.1) (normalizeHeader key)) row with
      | Some e =>
          if truthy e.1 && truthy_opt (cell row e.1)
          then default [] (cell row e.1)
          else findValue row keys'
      | None => findValue row keys'
      end
  end.

(** The column a key selects: the first one whose normalized header is the
    normalized key. *)
Definition selected (row : ParsedRow) (key : jsstring) : option (jsstring * jsstring) :=
  find (fun e => streq (normalizeHeader e.1) (normalizeHeader key)) row.

(** Two rows whose headers are the same up to normalization, column by
    column, with the same values. *)
Definition sameColumns (row row' : ParsedRow) : Prop :=
  Forall2 (fun e e' => normalizeHeader e.1 = normalizeHeader e'.1
                       /\ truthy e.1 = truthy e'.1 /\ e.2 = e'.2) row row'.

Definition mapColumns (row : ParsedRow) : Mapped :=
  {| m_notice_id := findValue row notice_id_keys;
     m_respondent := findValue row respondent_keys;
     m_infraction_address := findValue row infraction_address_keys;
     m_date_of_service := findValue row date_of_service_keys;
     m_total_fines := findValue row total_fines_keys;
     m_priority := findValue row priority_keys;
     m_abatement_deadline := findValue row abatement_deadline_keys;
     m_notes := findValue row notes_keys;
     m_status :=
       (let s := findValue row status_keys in if truthy s then s else lit "NEW") |}.

End Host.

(** The mapped row as the route receives it, through [JSON.stringify] and
    [request.json()]. *)
Definition mapped_json (m : Mapped) : Json :=
  JObj [("notice_id", JStr (m_notice_id m));
        ("respondent", JStr (m_respondent m));
        ("infraction_address", JStr (m_infraction_address m));
        ("date_of_service", JStr (m_date_of_service m));
        ("total_fines", JStr (m_total_fines m));
        ("priority", JStr (m_priority m));
        ("abatement_deadline", JStr (m_abatement_deadline m));
        ("notes", JStr (m_notes m));
        ("status", JStr (m_status m))].

(** [String(v)] of a value of a parsed JSON text. *)
Fixpoint js_String (v : Json) : jsstring :=
  match v with
  | JNull => lit "null"
  | JBool b => if b then lit "true" else lit "false"
  | JNum n => Number_toString n
  | JStr s => s
  | JArr xs =>
      join (lit ",")
        ((fix elements (l : list Json) : list jsstring :=
            match l with
            | [] => []
            | x :: l' => (match x with JNull => [] | _ => js_String x end) :: elements l'
            end) xs)
  | JObj _ => lit "[object Object]"
  end.

(** [v || d] *)
Definition or_else (o : option Json) (d : Json) : Json :=
  match o with
  | Some v => if truthyJson v then v else d
  | None => d
  end.

(** The object the route builds for one element of [violations]. *)
Record ImportRecord := mkImportRecord {
  r_org_id : jsstring;
  r_notice_id : Json;
  r_respondent : Json;
  r_infraction_address : Json;
  r_date_of_service : Json;
  r_total_fines : option JsNumber;
  r_status : Json;
  r_priority : option Z;
  r_abatement_deadline : Json;
  r_notes : Json;
  r_source : jsstring;
}.

(** The callback of [violations.map]: reading a property of null throws;
    [r_total_fines] is [None] for null, [r_priority] is [None] for NaN. *)
Definition importRecord (org : jsstring) (v : Json) : JsDate.Completion ImportRecord :=
  match v with
  | JNull => JsDate.Throws (lit "TypeError")
  | _ =>
      JsDate.Returns
        {| r_org_id := org;
           r_notice_id := or_else (get_field v "notice_id") JNull;
           r_respondent := or_else (get_field v "respondent") JNull;
           r_infraction_address :=
             or_else (get_field v "infraction_address")
               (or_else (get_field v "address") JNull);
           r_date_of_service := or_else (get_field v "date_of_service") JNull;
           r_total_fines :=
             (if truthyField (get_field v "total_fines")
              then Some (parseFloat
                           (strip_dollar_comma
                              (js_String (default JNull (get_field v "total_fines")))))
              else None);
           r_status := or_else (get_field v "status") (JStr (lit "NEW"));
           r_priority :=
             (if truthyField (get_field v "priority")
              then parseInt (js_String (default JNull (get_field v "priority")))
              else Some 3);
           r_abatement_deadline := or_else (get_field v "abatement_deadline") JNull;
           r_notes := or_else (get_field v "notes") JNull;
           r_source := lit "csv_import" |}
  end.

(** [violations.map(...)]: the records, unless an element makes the callback
    throw. *)
Fixpoint importRecords (org : jsstring) (vs : list Json)
    : JsDate.Completion (list ImportRecord) :=
  match vs with
  | [] => JsDate.Returns []
  | v :: vs' =>
      match importRecord org v with
      | JsDate.Throws e => JsDate.Throws e
      | JsDate.Returns r =>
          match importRecords org vs' with
          | JsDate.Throws e => JsDate.Throws e
          | JsDate.Returns rs => JsDate.Returns (r :: rs)
          end
      end
  end.

(** The record store's answer to the insert: an error with its message, or
    the number of rows it returns. *)
Record ImportAnswer := mkImportAnswer {
  importError : option jsstring;
  returned : Z;
}.

(** What a call of the handler did: the records it asked the store to
    insert, and its response. *)
Record Imported := mkImported {
  import_records : option (list ImportRecord);
  import_response : Response;
}.

(** [POST] of the import route; a body that is null makes the destructuring
    throw. *)
Definition POST (req : Request) (answer : ImportAnswer) : JsDate.Completion Imported :=
  if authError req || negb (bool_decide (is_Some (user req))) then
    JsDate.Returns (mkImported None (errorResponse (lit "Unauthorized") 401))
  else
    match profile req with
    | Some p =>
        if managerRole (role p) then
          match body req with
          | JNull => JsDate.Throws (lit "TypeError")
          | _ =>
              match get_field (body req) "violations" with
              | Some (JArr (v :: vs)) =>
                  match importRecords (org_id p) (v :: vs) with
                  | JsDate.Throws e => JsDate.Throws e
                  | JsDate.Returns recs =>
                      match importError answer with
                      | Some msg =>
                          JsDate.Returns
                            (mkImported (Some recs) (mkResponse 500 [("error", JStr msg)]))
                      | None =>
                          JsDate.Returns
                            (mkImported (Some recs)
                               (mkResponse 200
                                  [("imported", JNum (returned answer));
                                   ("message",
                                    JStr (lit "Successfully imported "
                                          ++ Number_toString (returned answer)
                                          ++ lit " violations"))]))
                      end
                  end
              | _ =>
                  JsDate.Returns
                    (mkImported None (errorResponse (lit "violations array is required") 400))
              end
          end
        else
          JsDate.Returns (mkImported None (errorResponse (lit "Insufficient permissions") 403))
    | None =>
        JsDate.Returns (mkImported None (errorResponse (lit "Insufficient permissions") 403))
    end.

End CsvImport.

(** ** The pages of the violation list: the route and the table *)

Module Pagination.

(** [from] and [to] of the route: [range(from, to)] selects the rows at the
    offsets from [from] to [to], both included. *)
Definition rangeOf (page pageSize : Z) : Z * Z :=
  let from := (page - 1) * pageSize in
  (from, from + pageSize - 1).

(** [Math.ceil((count || 0) / pageSize)], and [Math.ceil(total / pageSize)]
    of the table, for a count and a positive page size below 2^53, where the
    quotient rounds to an integer only when it is one. *)
Definition totalPages (count pageSize : Z) : Z := StatusDisplay.ceilDiv count pageSize.

(** The two numbers of the table's [Showing a-b of total]. *)
Definition showing (page pageSize total : Z) : Z * Z :=
  ((page - 1) * pageSize + 1, Z.min (page * pageSize) total).

(** The [disabled] of the two buttons of the table's pager. *)
Definition prevDisabled (page : Z) : bool := page <=? 1.
Definition nextDisabled (page total pageSize : Z) : bool := totalPages total pageSize <=? page.

End Pagination.

(** ** The storage path of an uploaded notice *)

Module Upload.

(** The code units [/[^a-zA-Z0-9.-]/] does not match. *)
Definition isSafeUnit (c : N) : bool :=
  ((97 <=? c) && (c <=? 122) || (65 <=? c) && (c <=? 90) || (48 <=? c) && (c <=? 57)
   || (c =? 46) || (c =? 45))%N.

(** [file.name.replace(/[^a-zA-Z0-9.-]/g, '_')] *)
Definition safeName (name : jsstring) : jsstring :=
  (fun c => if isSafeUnit c then c else 95%N) <$> name.

(** [`uploads/${timestamp}_${safeName}`] *)
Definition storagePath (timestamp : Z) (name : jsstring) : jsstring :=
  lit "uploads/" ++ Number_toString timestamp ++ lit "_" ++ safeName name.

(** A code unit of a safe name: one the pattern leaves, or the underscore. *)
Definition inSafeName (c : N) : Prop := isSafeUnit c = true \/ c = 95%N.

End Upload.

(** * Facts *)

(** ** The status allow-list *)

Module StatusTransitionsFacts.

Import StatusTransitions.

Lemma includes_In l to : includes l to = true <-> In to l.
Proof.
  induction l as [|x l IH]; simpl.
  - split; [discriminate | tauto].
  - destruct (decide (x = to)) as [->|Hne].
    + split; auto.
    + rewrite IH. split; [auto | intros [H|H]; [congruence | exact H]].
Qed.

(** C8.  A transition is accepted exactly when the target is listed in the
    allow-list of the current state.  Nothing leaves CLOSED, in particular
    not towards ASSIGNED; SUBMITTED to APPROVED is accepted; NEW admits
    PARSING, ASSIGNED and CLOSED and nothing else. *)
Theorem canTransition_is_allow_list :
  (forall from to, canTransition from to = true <-> In to (VALID_TRANSITIONS from))
  /\ (forall to, canTransition CLOSED to = false)
  /\ canTransition CLOSED ASSIGNED = false
  /\ canTransition SUBMITTED APPROVED = true
  /\ (forall to, canTransition NEW to = true
                 <-> to = PARSING \/ to = ASSIGNED \/ to = CLOSED).
Proof.
  split; [|split; [|split; [|split]]].
  - intros from to. apply includes_In.
  - intros to. reflexivity.
  - reflexivity.
  - reflexivity.
  - intros to. unfold canTransition. rewrite includes_In. simpl.
    split.
    + intros [H|[H|[H|[]]]]; auto.
    + intros [H|[H|H]]; subst; auto.
Qed.

End StatusTransitionsFacts.

(** ** The progress ledger *)

Module LedgerFacts.

Import Ledger LedgerSpec.

(** *** [findIndex], [find] and update by index, read recursively *)

Lemma findIndex_nil {A} (P : A -> bool) : findIndex P [] = None.
Proof. reflexivity. Qed.

Lemma findIndex_cons {A} (P : A -> bool) x l :
  findIndex P (x :: l) = if P x then Some 0%nat else S <$> findIndex P l.
Proof.
  unfold findIndex. simpl. destruct (P x); simpl.
  - reflexivity.
  - destruct (list_find _ l) as [[i y]|]; reflexivity.
Qed.

Lemma find_cons {A} (P : A -> bool) x l :
  find P (x :: l) = if P x then Some x else find P l.
Proof.
  unfold find. simpl. destruct (P x); simpl.
  - reflexivity.
  - destruct (list_find _ l) as [[i y]|]; reflexivity.
Qed.

Lemma streq_true a b : streq a b = true <-> a = b.
Proof. unfold streq. apply bool_decide_eq_true. Qed.

Lemma streq_false a b : streq a b = false <-> a <> b.
Proof. unfold streq. apply bool_decide_eq_false. Qed.

Lemma streq_refl a : streq a a = true.
Proof. by apply streq_true. Qed.

Lemma mergeStep_nil s : mergeStep [] s = [s].
Proof. reflexivity. Qed.

Lemma mergeStep_cons m l s :
  mergeStep (m :: l) s =
  if streq (step m) (step s) then s :: l else m :: mergeStep l s.
Proof.
  unfold mergeStep. rewrite findIndex_cons.
  destruct (streq (step m) (step s)); [reflexivity|].
  destruct (findIndex _ l); reflexivity.
Qed.

Lemma mergeSteps_nil_r l : mergeSteps l [] = l.
Proof. reflexivity. Qed.

Lemma mergeSteps_cons_r l s ss :
  mergeSteps l (s :: ss) = mergeSteps (mergeStep l s) ss.
Proof. reflexivity. Qed.

(** *** What a merge does to the names *)

Lemma mergeStep_names l s :
  step <$> mergeStep l s =
  if bool_decide (step s ∈ step <$> l) then step <$> l else (step <$> l) ++ [step s].
Proof.
  induction l as [|m l IH].
  - reflexivity.
  - rewrite mergeStep_cons.
    destruct (streq (step m) (step s)) eqn:E.
    + apply streq_true in E. rewrite !fmap_cons, E.
      rewrite bool_decide_eq_true_2; [reflexivity | left].
    + apply streq_false in E. rewrite !fmap_cons, IH.
      destruct (bool_decide (step s ∈ step <$> l)) eqn:B.
      * apply bool_decide_eq_true in B.
        rewrite bool_decide_eq_true_2; [reflexivity | by right].
      * apply bool_decide_eq_false in B.
        rewrite bool_decide_eq_false_2; [reflexivity|].
        intros H. apply elem_of_cons in H as [H|H]; [congruence | contradiction].
Qed.

Lemma mergeStep_NoDup l s :
  NoDup (step <$> l) -> NoDup (step <$> mergeStep l s).
Proof.
  intros H. rewrite mergeStep_names. case_bool_decide as B; [exact H|].
  apply NoDup_app. split; [exact H|]. split.
  - intros x Hx Hx'. apply list_elem_of_singleton in Hx'. subst. contradiction.
  - apply NoDup_singleton.
Qed.

Lemma mergeSteps_NoDup ss : forall l,
  NoDup (step <$> l) -> NoDup (step <$> mergeSteps l ss).
Proof.
  induction ss as [|s ss IH]; intros l H; [exact H|].
  rewrite mergeSteps_cons_r. apply IH. by apply mergeStep_NoDup.
Qed.

Lemma mergeStep_keeps_names l s n :
  n ∈ step <$> l -> n ∈ step <$> mergeStep l s.
Proof.
  intros H. rewrite mergeStep_names. case_bool_decide as B; [exact H|].
  apply elem_of_app. by left.
Qed.

Lemma mergeStep_adds_name l s : step s ∈ step <$> mergeStep l s.
Proof.
  rewrite mergeStep_names. case_bool_decide as B; [exact B|].
  apply elem_of_app. right. apply list_elem_of_singleton. reflexivity.
Qed.

Lemma mergeSteps_keeps_names ss : forall l n,
  n ∈ step <$> l -> n ∈ step <$> mergeSteps l ss.
Proof.
  induction ss as [|s ss IH]; intros l n H; [exact H|].
  rewrite mergeSteps_cons_r. apply IH. by apply mergeStep_keeps_names.
Qed.

Lemma mergeSteps_adds_names ss : forall l s,
  s ∈ ss -> step s ∈ step <$> mergeSteps l ss.
Proof.
  induction ss as [|s' ss IH]; intros l s H.
  - by apply elem_of_nil in H.
  - rewrite mergeSteps_cons_r. apply elem_of_cons in H as [->|H].
    + apply mergeSteps_keeps_names, mergeStep_adds_name.
    + by apply IH.
Qed.

(** *** The entry of a name after a merge *)

Lemma lookupStep_nil n : lookupStep n [] = None.
Proof. reflexivity. Qed.

Lemma lookupStep_cons n m l :
  lookupStep n (m :: l) = if streq (step m) n then Some m else lookupStep n l.
Proof. unfold lookupStep. by rewrite find_cons. Qed.

Lemma lookupStep_mergeStep n l s :
  lookupStep n (mergeStep l s) = if streq (step s) n then Some s else lookupStep n l.
Proof.
  induction l as [|m l IH].
  - rewrite mergeStep_nil, lookupStep_cons. reflexivity.
  - rewrite mergeStep_cons.
    destruct (streq (step m) (step s)) eqn:E.
    + apply streq_true in E. rewrite !lookupStep_cons, E.
      destruct (streq (step s) n); reflexivity.
    + apply streq_false in E. rewrite !lookupStep_cons, IH.
      destruct (streq (step m) n) eqn:E1, (streq (step s) n) eqn:E2; try reflexivity.
      apply streq_true in E1, E2. congruence.
Qed.

Lemma lookupStep_mergeSteps n ss : forall l,
  lookupStep n (mergeSteps l ss) = lastNamed n (lookupStep n l) ss.
Proof.
  induction ss as [|s ss IH]; intros l; [reflexivity|].
  rewrite mergeSteps_cons_r, IH, lookupStep_mergeStep. reflexivity.
Qed.

Lemma lastNamed_default n d ss :
  lastNamed n d ss = match lastNamed n None ss with Some x => Some x | None => d end.
Proof.
  revert d. induction ss as [|s ss IH]; intros d; [reflexivity|].
  simpl. destruct (streq (step s) n).
  - rewrite (IH (Some s)). destruct (lastNamed n None ss); reflexivity.
  - apply IH.
Qed.

Lemma lastNamed_step n ss x : lastNamed n None ss = Some x -> step x = n /\ x ∈ ss.
Proof.
  induction ss as [|s ss IH]; [discriminate|].
  simpl. rewrite lastNamed_default.
  destruct (lastNamed n None ss) as [y|] eqn:E.
  - intros [= <-]. destruct (IH eq_refl) as [? ?]. split; [done | by right].
  - destruct (streq (step s) n) eqn:E1; [|discriminate].
    intros [= <-]. apply streq_true in E1. split; [done | left].
Qed.

Lemma lastNamed_NoDup n ss s :
  NoDup (step <$> ss) -> s ∈ ss -> step s = n -> lastNamed n None ss = Some s.
Proof.
  induction ss as [|s' ss IH]; intros Hnd Hin Hn.
  - by apply elem_of_nil in Hin.
  - rewrite fmap_cons in Hnd. apply NoDup_cons in Hnd as [Hni Hnd].
    simpl. rewrite lastNamed_default.
    apply elem_of_cons in Hin as [<-|Hin].
    + rewrite (proj2 (streq_true _ _) Hn).
      destruct (lastNamed n None ss) as [y|] eqn:E; [|reflexivity].
      apply lastNamed_step in E as [E1 E2]. exfalso. apply Hni.
      rewrite Hn, <- E1. by apply list_elem_of_fmap_2.
    + by rewrite (IH Hnd Hin Hn).
Qed.

(** *** Merging twice *)

(** The head of the persisted collection takes the last in-memory step of its
    name; the in-memory steps of the other names go to the tail. *)
Lemma mergeSteps_cons_l ss : forall m l,
  mergeSteps (m :: l) ss =
  default m (lastNamed (step m) None ss)
  :: mergeSteps l (filter (fun s => step s <> step m) ss).
Proof.
  induction ss as [|s ss IH]; intros m l; [reflexivity|].
  rewrite mergeSteps_cons_r, mergeStep_cons.
  destruct (streq (step m) (step s)) eqn:E.
  - apply streq_true in E. rewrite IH.
    rewrite filter_cons_False by (intros H; congruence).
    simpl. rewrite <- E, streq_refl, (lastNamed_default _ (Some s)).
    rewrite E. destruct (lastNamed (step s) None ss); reflexivity.
  - apply streq_false in E. rewrite IH.
    rewrite filter_cons_True by congruence.
    simpl. rewrite (proj2 (streq_false _ _)) by congruence.
    reflexivity.
Qed.

Lemma step_default_lastNamed m ss :
  step (default m (lastNamed (step m) None ss)) = step m.
Proof.
  destruct (lastNamed (step m) None ss) as [x|] eqn:E; [|reflexivity].
  by apply lastNamed_step in E as [? _].
Qed.

Lemma mergeSteps_nil_idem ss :
  mergeSteps (mergeSteps [] ss) ss = mergeSteps [] ss.
Proof.
  remember (length ss) as k eqn:Hk. revert ss Hk.
  induction k as [k IH] using lt_wf_ind. intros [|s ss] Hk; [reflexivity|].
  rewrite (mergeSteps_cons_r [] s ss), mergeStep_nil, (mergeSteps_cons_l ss s []).
  set (h := default s (lastNamed (step s) None ss)).
  set (ss1 := filter (fun s0 => step s0 <> step s) ss).
  assert (Hh : step h = step s) by apply step_default_lastNamed.
  rewrite mergeSteps_cons_r, mergeStep_cons, Hh, streq_refl, mergeSteps_cons_l.
  fold ss1. fold h. f_equal.
  eapply IH; [|reflexivity].
  simpl in Hk. pose proof (length_filter (fun s0 => step s0 <> step s) ss).
  subst ss1. lia.
Qed.

Lemma mergeSteps_idem l : forall ss,
  mergeSteps (mergeSteps l ss) ss = mergeSteps l ss.
Proof.
  induction l as [|m l IH]; intros ss; [apply mergeSteps_nil_idem|].
  rewrite !mergeSteps_cons_l, step_default_lastNamed, IH. f_equal.
  destruct (lastNamed (step m) None ss); reflexivity.
Qed.

(** *** The derived status *)

Lemma existsb_has_status st l :
  existsb (has_status st) l = true <-> anyStatus st l.
Proof.
  rewrite existsb_exists. unfold anyStatus, has_status. split.
  - intros (s & Hs & Hst). exists s. rewrite list_elem_of_In.
    apply bool_decide_eq_true in Hst. done.
  - intros (s & Hs & Hst). exists s. rewrite <- list_elem_of_In.
    split; [done | by apply bool_decide_eq_true].
Qed.

Lemma forallb_has_status st l :
  forallb (has_status st) l = true <-> forall s, s ∈ l -> status s = st.
Proof.
  rewrite forallb_forall. unfold has_status. split.
  - intros H s Hs. eapply bool_decide_eq_true_1, H. by apply list_elem_of_In.
  - intros H s Hs. apply bool_decide_eq_true_2, H. by apply list_elem_of_In.
Qed.

Lemma allComplete_allCompleted l :
  (0 <? length l)%nat && forallb (has_status completed) l = true <-> allCompleted l.
Proof.
  unfold allCompleted. rewrite andb_true_iff, forallb_has_status.
  rewrite Nat.ltb_lt. split; intros [H1 H2]; (split; [|exact H2]).
  - intros ->. simpl in H1. lia.
  - destruct l; [done | simpl; lia].
Qed.

Lemma deriveParseStatus_failed l :
  anyStatus failed l -> deriveParseStatus l = Some (lit "failed").
Proof.
  intros H. apply existsb_has_status in H. unfold deriveParseStatus. by rewrite H.
Qed.

Lemma deriveParseStatus_completed l :
  ~ anyStatus failed l -> allCompleted l ->
  deriveParseStatus l = Some (lit "completed").
Proof.
  intros Hf Hc. unfold deriveParseStatus.
  destruct (existsb (has_status failed) l) eqn:E.
  - exfalso. by apply Hf, existsb_has_status.
  - apply allComplete_allCompleted in Hc. by rewrite Hc.
Qed.

Lemma deriveParseStatus_processing l :
  ~ anyStatus failed l -> ~ allCompleted l -> anyStatus running l ->
  deriveParseStatus l = Some (lit "processing").
Proof.
  intros Hf Hc Hr. unfold deriveParseStatus.
  destruct (existsb (has_status failed) l) eqn:E.
  { exfalso. by apply Hf, existsb_has_status. }
  destruct ((0 <? length l)%nat && forallb (has_status completed) l) eqn:E1.
  { exfalso. by apply Hc, allComplete_allCompleted. }
  apply existsb_has_status in Hr. by rewrite Hr.
Qed.

Lemma deriveParseStatus_unset l :
  ~ anyStatus failed l -> ~ allCompleted l -> ~ anyStatus running l ->
  deriveParseStatus l = None.
Proof.
  intros Hf Hc Hr. unfold deriveParseStatus.
  destruct (existsb (has_status failed) l) eqn:E.
  { exfalso. by apply Hf, existsb_has_status. }
  destruct ((0 <? length l)%nat && forallb (has_status completed) l) eqn:E1.
  { exfalso. by apply Hc, allComplete_allCompleted. }
  destruct (existsb (has_status running) l) eqn:E2; [|reflexivity].
  exfalso. by apply Hr, existsb_has_status.
Qed.

(** *** [flush] on the store *)

Lemma flush_logger ps lg db :
  violationId (flush ps lg db).1 = violationId lg
  /\ steps (flush ps lg db).1 = steps lg
  /\ extras (flush ps lg db).1 = extras lg
  /\ logs (flush ps lg db).1 = [].
Proof. done. Qed.

Lemma flush_absent ps lg db :
  db !! violationId lg = None -> (flush ps lg db).2 = db.
Proof.
  intros H. unfold flush. simpl. apply map_eq. intros k.
  rewrite lookup_alter. case_decide; [|reflexivity]. subst. by rewrite H.
Qed.

Lemma flush_other ps lg db k :
  k <> violationId lg -> (flush ps lg db).2 !! k = db !! k.
Proof. intros H. unfold flush. simpl. by rewrite lookup_alter_ne. Qed.

Lemma flush_row ps lg db row :
  db !! violationId lg = Some row ->
  let merged := mergeSteps (persistedSteps db (violationId lg)) (steps lg) in
  (flush ps lg db).2 !! violationId lg =
  Some {| biz_status := biz_status row;
          parse_status :=
            from_option id (parse_status row)
              (if truthy_opt ps then ps else deriveParseStatus merged);
          parse_metadata :=
            Some {| meta_steps := merged;
                    meta_logs :=
                      from_option meta_logs [] (parse_metadata row) ++ logs lg;
                    meta_fields :=
                      extras lg ∪ from_option meta_fields ∅ (parse_metadata row) |} |}.
Proof.
  intros H. unfold flush, persistedSteps. simpl.
  rewrite lookup_alter_eq, H. reflexivity.
Qed.

Lemma persistedSteps_flush ps lg db :
  is_Some (db !! violationId lg) ->
  persistedSteps (flush ps lg db).2 (violationId lg) =
  mergeSteps (persistedSteps db (violationId lg)) (steps lg).
Proof.
  intros [row H]. unfold persistedSteps at 1. by rewrite (flush_row _ _ _ _ H).
Qed.

Lemma persistedSteps_absent db vid :
  db !! vid = None -> persistedSteps db vid = [].
Proof. intros H. unfold persistedSteps. by rewrite H. Qed.

(** *** [upsertStep], read recursively *)

Lemma upsertStep_steps_nil n st msg now vi lgs ex :
  steps (upsertStep n st msg now (mkLogger vi lgs [] ex)) = [newStepData n st msg now].
Proof. reflexivity. Qed.

Lemma upsertStep_steps_cons n st msg now vi lgs m l ex :
  steps (upsertStep n st msg now (mkLogger vi lgs (m :: l) ex)) =
  if streq (step m) n
  then preserveStarted (started_at m) (newStepData n st msg now) :: l
  else m :: steps (upsertStep n st msg now (mkLogger vi lgs l ex)).
Proof.
  unfold upsertStep. simpl. rewrite findIndex_cons.
  destruct (streq (step m) n); [reflexivity|].
  destruct (findIndex _ l); reflexivity.
Qed.

Lemma step_preserveStarted p sd : step (preserveStarted p sd) = step sd.
Proof. unfold preserveStarted. by destruct (_ && _). Qed.

Lemma status_preserveStarted p sd : status (preserveStarted p sd) = status sd.
Proof. unfold preserveStarted. by destruct (_ && _). Qed.

Lemma lookupStep_upsertStep n st msg now lg :
  lookupStep n (steps (upsertStep n st msg now lg)) =
  Some (preserveStarted (lookupStep n (steps lg) ≫= started_at)
                        (newStepData n st msg now)).
Proof.
  destruct lg as [vi lgs l ex]. simpl steps at 2.
  induction l as [|m l IH].
  - rewrite upsertStep_steps_nil, lookupStep_cons. simpl. by rewrite streq_refl.
  - rewrite upsertStep_steps_cons, (lookupStep_cons n m l).
    destruct (streq (step m) n) eqn:E.
    + rewrite lookupStep_cons, step_preserveStarted. simpl. by rewrite streq_refl.
    + rewrite lookupStep_cons, E. exact IH.
Qed.

Lemma upsertStep_names n st msg now lg :
  step <$> steps (upsertStep n st msg now lg) =
  if bool_decide (n ∈ step <$> steps lg) then step <$> steps lg
  else (step <$> steps lg) ++ [n].
Proof.
  destruct lg as [vi lgs l ex]. simpl steps at 2 3 4.
  induction l as [|m l IH]; [reflexivity|].
  rewrite upsertStep_steps_cons.
  destruct (streq (step m) n) eqn:E.
  - apply streq_true in E. rewrite !fmap_cons, step_preserveStarted. simpl.
    rewrite bool_decide_eq_true_2; [by rewrite E | rewrite E; left].
  - apply streq_false in E. rewrite !fmap_cons, IH.
    destruct (bool_decide (n ∈ step <$> l)) eqn:B.
    + apply bool_decide_eq_true in B.
      rewrite bool_decide_eq_true_2; [reflexivity | by right].
    + apply bool_decide_eq_false in B.
      rewrite bool_decide_eq_false_2; [reflexivity|].
      intros H. apply elem_of_cons in H as [H|H]; [congruence | contradiction].
Qed.

(** The in-memory steps keep distinct names. *)
Lemma upsertStep_NoDup n st msg now lg :
  NoDup (step <$> steps lg) -> NoDup (step <$> steps (upsertStep n st msg now lg)).
Proof.
  intros H. rewrite upsertStep_names. case_bool_decide as B; [exact H|].
  apply NoDup_app. split; [exact H|]. split.
  - intros x Hx Hx'. apply list_elem_of_singleton in Hx'. subst. contradiction.
  - apply NoDup_singleton.
Qed.

(** After a flush the entry of an in-memory step's name is that step as it
    stands in memory. *)
Lemma flush_entry_is_memory_step ps lg db s :
  is_Some (db !! violationId lg) -> NoDup (step <$> steps lg) -> s ∈ steps lg ->
  lookupStep (step s) (persistedSteps (flush ps lg db).2 (violationId lg)) = Some s.
Proof.
  intros Hrow Hnd Hin.
  rewrite persistedSteps_flush by done.
  rewrite lookupStep_mergeSteps, lastNamed_default.
  by rewrite (lastNamed_NoDup (step s) (steps lg) s).
Qed.

(** *** Workflow status written by a flush *)

(** C1, as the code has it.  A flush with no forced status, on an existing
    row, writes a workflow status determined by the merged steps and the
    status already stored: failed when a merged step is failed; otherwise
    completed when the merged collection is not empty and each of its steps
    is completed, whichever step names it holds; otherwise processing when a
    merged step is running; otherwise the stored status, unchanged. *)
Theorem flush_status_from_merged_steps ps lg db row :
  db !! violationId lg = Some row ->
  truthy_opt ps = false ->
  let merged := persistedSteps (flush ps lg db).2 (violationId lg) in
  let written := persistedStatus (flush ps lg db).2 (violationId lg) in
  merged = mergeSteps (persistedSteps db (violationId lg)) (steps lg)
  /\ (anyStatus failed merged -> written = Some (lit "failed"))
  /\ (~ anyStatus failed merged -> allCompleted merged ->
      written = Some (lit "completed"))
  /\ (~ anyStatus failed merged -> ~ allCompleted merged ->
      anyStatus running merged -> written = Some (lit "processing"))
  /\ (~ anyStatus failed merged -> ~ allCompleted merged ->
      ~ anyStatus running merged -> written = Some (parse_status row)).
Proof.
  intros Hrow Hps merged written.
  assert (Hm : merged = mergeSteps (persistedSteps db (violationId lg)) (steps lg)).
  { subst merged. apply persistedSteps_flush. by exists row. }
  assert (Hw : written =
    Some (from_option id (parse_status row) (deriveParseStatus merged))).
  { subst written. unfold persistedStatus.
    rewrite (flush_row _ _ _ _ Hrow), Hps, Hm. reflexivity. }
  split; [exact Hm|]. rewrite Hw. repeat split.
  - intros H. by rewrite deriveParseStatus_failed.
  - intros H1 H2. by rewrite deriveParseStatus_completed.
  - intros H1 H2 H3. by rewrite deriveParseStatus_processing.
  - intros H1 H2 H3. by rewrite deriveParseStatus_unset.
Qed.

(** The theorem at a flush of a completed first step. *)
Lemma flush_status_from_merged_steps_witness :
  Runs.db0 !! violationId Runs.completed_in_memory = Some Runs.row0
  /\ truthy_opt None = false
  /\ persistedStatus (flush None Runs.completed_in_memory Runs.db0).2 Runs.vid
     = Some (lit "completed").
Proof.
  split; [reflexivity|]. split; [reflexivity|].
  destruct (flush_status_from_merged_steps None Runs.completed_in_memory
              Runs.db0 Runs.row0 eq_refl eq_refl) as (Hm & _ & Hc & _).
  apply Hc.
  - rewrite Hm. intros (s & Hin & Hst). vm_compute in Hin.
    apply list_elem_of_singleton in Hin. subst s. discriminate.
  - rewrite Hm. split; [vm_compute; discriminate|].
    intros s Hin. vm_compute in Hin.
    apply list_elem_of_singleton in Hin. subst s. reflexivity.
Defined.

(** C1, as stated, fails: once the first step of a run has completed, the
    stored workflow status is completed although four of the five known
    steps have no entry yet. *)
Lemma completed_before_all_known_steps :
  persistedStatus Runs.first_step_done.2 Runs.vid = Some (lit "completed")
  /\ ~ allKnownCompleted (persistedSteps Runs.first_step_done.2 Runs.vid).
Proof.
  split; [vm_compute; reflexivity|].
  intros H. destruct (H (lit "complete")) as (s & Hin & Hn & _).
  { unfold knownSteps. rewrite !elem_of_cons. auto 10. }
  assert (E : step <$> persistedSteps Runs.first_step_done.2 Runs.vid
              = [lit "ai_parse"]) by (vm_compute; reflexivity).
  apply (list_elem_of_fmap_2 step) in Hin. rewrite E, Hn in Hin.
  apply list_elem_of_singleton in Hin. vm_compute in Hin. discriminate.
Qed.

(** *** Start timestamps *)

(** C2, as the code has it.  Within a logger, [upsertStep] keeps the
    non-empty start time of the step's entry when the new status is not
    running, and stamps the time of the call, whatever the entry held, when
    the new status is running.  A flush puts, for each step held in memory,
    that step in the place of the persisted entry of its name; so it writes
    the start time of a step held in memory with one into the persisted
    entry, whatever that entry held. *)
Theorem started_at_kept_in_memory_taken_from_memory :
  (forall n st msg now lg prev T,
     lookupStep n (steps lg) = Some prev ->
     started_at prev = Some T -> T <> [] -> st <> running ->
     exists s, lookupStep n (steps (upsertStep n st msg now lg)) = Some s
               /\ status s = st /\ started_at s = Some T)
  /\ (forall ps lg db s T,
       is_Some (db !! violationId lg) -> NoDup (step <$> steps lg) ->
       s ∈ steps lg -> started_at s = Some T ->
       exists s', lookupStep (step s)
                    (persistedSteps (flush ps lg db).2 (violationId lg)) = Some s'
                  /\ started_at s' = Some T)
  /\ (forall n msg now lg,
        now <> [] ->
        exists s, lookupStep n (steps (upsertStep n running msg now lg)) = Some s
                  /\ status s = running /\ started_at s = Some now)
  /\ (forall ps lg db s,
        is_Some (db !! violationId lg) -> NoDup (step <$> steps lg) ->
        s ∈ steps lg ->
        lookupStep (step s) (persistedSteps (flush ps lg db).2 (violationId lg))
        = Some s).
Proof.
  split; [|split; [|split]].
  - intros n st msg now lg prev T Hl Hs HT Hst.
    eexists. split; [apply lookupStep_upsertStep|].
    rewrite Hl. simpl. rewrite Hs. unfold preserveStarted. simpl.
    destruct T as [|c T]; [done|]. simpl.
    destruct st; try done.
  - intros ps lg db s T Hrow Hnd Hin Hs. exists s. split; [|exact Hs].
    by apply flush_entry_is_memory_step.
  - intros n msg now lg Hnow.
    eexists. split; [apply lookupStep_upsertStep|].
    unfold preserveStarted. cbn [newStepData started_at truthy_opt].
    destruct now as [|c now]; [done|]. cbn [truthy negb].
    rewrite andb_false_r. by split.
  - intros ps lg db s Hrow Hnd Hin. by apply flush_entry_is_memory_step.
Qed.

(** The theorem on the logger and the store of a started step: the step is
    completed and keeps its start time, it is started again and gets a new
    one, and the flush stores the entry of the logger. *)
Lemma started_at_kept_in_memory_taken_from_memory_witness :
  (exists s, lookupStep (lit "ai_parse")
               (steps (upsertStep (lit "ai_parse") completed None Runs.T2
                         Runs.started.1)) = Some s
             /\ status s = completed /\ started_at s = Some Runs.T1)
  /\ (exists s', lookupStep (lit "ai_parse")
                   (persistedSteps (flush None Runs.started.1 Runs.started.2).2
                      Runs.vid) = Some s'
                 /\ started_at s' = Some Runs.T1)
  /\ (exists s, lookupStep (lit "ai_parse")
                  (steps (upsertStep (lit "ai_parse") running None Runs.T2
                            Runs.started.1)) = Some s
                /\ status s = running /\ started_at s = Some Runs.T2)
  /\ lookupStep (lit "ai_parse")
       (persistedSteps (flush None Runs.completed_in_memory Runs.started.2).2 Runs.vid)
     = Some (newStepData (lit "ai_parse") completed
               (Some (lit "Extracted 2 violation items")) Runs.T2).
Proof.
  destruct started_at_kept_in_memory_taken_from_memory as (H1 & H2 & H3 & H4).
  split; [|split; [|split]].
  - apply (H1 (lit "ai_parse") completed None Runs.T2 Runs.started.1
             (newStepData (lit "ai_parse") running (Some (lit "Downloading PDF")) Runs.T1)
             Runs.T1); [reflexivity | reflexivity | discriminate | discriminate].
  - apply (H2 None Runs.started.1 Runs.started.2
             (newStepData (lit "ai_parse") running (Some (lit "Downloading PDF")) Runs.T1)
             Runs.T1).
    + vm_compute. eauto.
    + vm_compute. apply NoDup_singleton.
    + vm_compute. left.
    + reflexivity.
  - apply (H3 (lit "ai_parse") None Runs.T2 Runs.started.1). discriminate.
  - apply (H4 None Runs.completed_in_memory Runs.started.2
             (newStepData (lit "ai_parse") completed
                (Some (lit "Extracted 2 violation items")) Runs.T2)).
    + vm_compute. eauto.
    + vm_compute. apply NoDup_singleton.
    + vm_compute. left.
Defined.

(** C2, as stated, fails.  The step is started at T1 and persisted; the run
    is retried, the new logger starts the step again at T2, and the flush
    overwrites the persisted start time with T2.  And when a new logger,
    which holds no start time for the step, flushes the step as failed, the
    merged entry has no start time. *)
Lemma restart_overwrites_started_at :
  started_at <$> lookupStep (lit "ai_parse") (persistedSteps Runs.started.2 Runs.vid)
    = Some (Some Runs.T1)
  /\ started_at <$> lookupStep (lit "ai_parse") (persistedSteps Runs.restarted.2 Runs.vid)
    = Some (Some Runs.T2)
  /\ Runs.T1 <> Runs.T2
  /\ started_at <$> lookupStep (lit "ai_parse")
                      (persistedSteps Runs.failed_by_new_logger.2 Runs.vid)
    = Some None.
Proof.
  split; [vm_compute; reflexivity|]. split; [vm_compute; reflexivity|].
  split; [vm_compute; discriminate | vm_compute; reflexivity].
Qed.

(** *** Entries per name *)

Lemma occurrences_0 n l : occurrences n l = 0%nat <-> n ∉ step <$> l.
Proof.
  unfold occurrences. rewrite length_zero_iff_nil. split.
  - intros H Hin. eapply (filter_nil_not_elem_of _ _ n) in H; done.
  - intros H. induction (step <$> l) as [|m ms IH]; [reflexivity|].
    rewrite filter_cons_False.
    + apply IH. intros Hin. apply H. by right.
    + intros ->. apply H. left.
Qed.

Lemma occurrences_mergeStep n l s :
  occurrences n (mergeStep l s) =
  if bool_decide (step s ∈ step <$> l) then occurrences n l
  else (occurrences n l + if bool_decide (step s = n) then 1 else 0)%nat.
Proof.
  unfold occurrences. rewrite mergeStep_names.
  case_bool_decide; [reflexivity|].
  rewrite filter_app, length_app. f_equal.
  case_bool_decide.
  - by rewrite filter_cons_True.
  - by rewrite filter_cons_False.
Qed.

(** A merge adds one entry for an in-memory name that has none and no entry
    for any other name. *)
Lemma occurrences_mergeSteps n ss : forall l,
  occurrences n (mergeSteps l ss) =
  if (occurrences n l =? 0)%nat
  then (if bool_decide (n ∈ step <$> ss) then 1%nat else 0%nat)
  else occurrences n l.
Proof.
  induction ss as [|s ss IH]; intros l.
  - rewrite mergeSteps_nil_r. simpl.
    destruct (occurrences n l =? 0)%nat eqn:E; [|reflexivity].
    by apply Nat.eqb_eq in E.
  - rewrite mergeSteps_cons_r, IH, occurrences_mergeStep, fmap_cons.
    destruct (bool_decide (step s ∈ step <$> l)) eqn:B.
    + apply bool_decide_eq_true in B.
      destruct (occurrences n l =? 0)%nat eqn:E; [|reflexivity].
      apply Nat.eqb_eq, occurrences_0 in E.
      assert (step s <> n) by (intros Heq; rewrite Heq in B; contradiction).
      destruct (bool_decide (n ∈ step <$> ss)) eqn:B2.
      * apply bool_decide_eq_true in B2.
        rewrite bool_decide_eq_true_2; [reflexivity | by right].
      * apply bool_decide_eq_false in B2.
        rewrite bool_decide_eq_false_2; [reflexivity|].
        intros [?|?]%elem_of_cons; congruence.
    + apply bool_decide_eq_false in B.
      destruct (bool_decide (step s = n)) eqn:B1.
      * apply bool_decide_eq_true in B1. subst n.
        apply occurrences_0 in B. rewrite B. simpl.
        rewrite bool_decide_eq_true_2; [reflexivity | left].
      * apply bool_decide_eq_false in B1. rewrite Nat.add_0_r.
        destruct (occurrences n l =? 0)%nat eqn:E; [|reflexivity].
        destruct (bool_decide (n ∈ step <$> ss)) eqn:B2.
        -- apply bool_decide_eq_true in B2.
           rewrite bool_decide_eq_true_2; [reflexivity | by right].
        -- apply bool_decide_eq_false in B2.
           rewrite bool_decide_eq_false_2; [reflexivity|].
           intros [?|?]%elem_of_cons; congruence.
Qed.
(** *** Flushing twice *)

Lemma lastNamed_not_in n d ss : n ∉ step <$> ss -> lastNamed n d ss = d.
Proof.
  revert d. induction ss as [|s ss IH]; intros d H; [reflexivity|].
  rewrite fmap_cons in H. apply not_elem_of_cons in H as [H1 H2].
  simpl. rewrite (proj2 (streq_false (step s) n)) by congruence. by apply IH.
Qed.

(** A merge leaves the names that were there where they were, and puts the
    new ones after them. *)
Lemma mergeSteps_names_prefix ss : forall l,
  exists added, step <$> mergeSteps l ss = (step <$> l) ++ added.
Proof.
  induction ss as [|s ss IH]; intros l.
  - exists []. by rewrite app_nil_r.
  - rewrite mergeSteps_cons_r. destruct (IH (mergeStep l s)) as [added H].
    rewrite H, mergeStep_names. case_bool_decide.
    + by exists added.
    + exists (step s :: added). by rewrite <- app_assoc.
Qed.

(** C6.  A second flush in a row leaves the persisted steps as the first one
    wrote them.  The merge upserts by step name.  It adds no second entry
    for a name: a name that has entries keeps as many, an in-memory name
    that has none gets one, and no other name gets any; so persisted steps
    with distinct names stay so and every in-memory step's name has an
    entry.  It updates in place: the entry of the name of a step held in
    memory is that step, the entry of any other name is the one that was
    there, and the names that were there keep their places, new ones coming
    after them. *)
Theorem flush_twice_same_steps ps ps' lg db :
  let vid := violationId lg in
  let once := flush ps lg db in
  let twice := flush ps' once.1 once.2 in
  persistedSteps twice.2 vid = persistedSteps once.2 vid
  /\ (NoDup (step <$> persistedSteps db vid) ->
      NoDup (step <$> persistedSteps once.2 vid))
  /\ (is_Some (db !! vid) ->
      forall s, s ∈ steps lg -> step s ∈ step <$> persistedSteps once.2 vid)
  /\ (is_Some (db !! vid) ->
      forall n,
        occurrences n (persistedSteps once.2 vid) =
        if (occurrences n (persistedSteps db vid) =? 0)%nat
        then (if bool_decide (n ∈ step <$> steps lg) then 1%nat else 0%nat)
        else occurrences n (persistedSteps db vid))
  /\ (is_Some (db !! vid) -> NoDup (step <$> steps lg) ->
      forall s, s ∈ steps lg ->
        lookupStep (step s) (persistedSteps once.2 vid) = Some s)
  /\ (forall n, n ∉ step <$> steps lg ->
        lookupStep n (persistedSteps once.2 vid) = lookupStep n (persistedSteps db vid))
  /\ (exists added,
        step <$> persistedSteps once.2 vid = (step <$> persistedSteps db vid) ++ added).
Proof.
  intros vid once twice.
  assert (Hid : violationId once.1 = vid) by reflexivity.
  assert (Hst : steps once.1 = steps lg) by reflexivity.
  destruct (db !! vid) as [row|] eqn:Hrow.
  - assert (H1 : persistedSteps once.2 vid
                 = mergeSteps (persistedSteps db vid) (steps lg)).
    { apply persistedSteps_flush. by exists row. }
    assert (H2 : persistedSteps twice.2 vid
                 = mergeSteps (persistedSteps once.2 vid) (steps lg)).
    { subst twice. rewrite <- Hid, <- Hst. apply persistedSteps_flush.
      rewrite Hid. subst once vid. rewrite (flush_row _ _ _ _ Hrow). eauto. }
    split; [|split; [|split; [|split; [|split; [|split]]]]].
    + rewrite H2, H1. apply mergeSteps_idem.
    + intros Hnd. rewrite H1. by apply mergeSteps_NoDup.
    + intros _ s Hs. rewrite H1. by apply mergeSteps_adds_names.
    + intros _ n. rewrite H1. apply occurrences_mergeSteps.
    + intros _ Hnd s Hs. subst once vid. apply flush_entry_is_memory_step; eauto.
    + intros n Hn. rewrite H1, lookupStep_mergeSteps. by apply lastNamed_not_in.
    + rewrite H1. apply mergeSteps_names_prefix.
  - assert (E1 : once.2 = db) by (by apply flush_absent).
    assert (E2 : twice.2 = db).
    { subst twice. transitivity once.2; [|exact E1]. apply flush_absent.
      rewrite Hid, E1. exact Hrow. }
    split; [by rewrite E1, E2|]. split; [by rewrite E1|].
    split; [intros [? ?]; discriminate|]. split; [intros [? ?]; discriminate|].
    split; [intros [? ?]; discriminate|]. split; [by rewrite E1|].
    exists []. by rewrite E1, app_nil_r.
Qed.

(** The theorem on the logger and the store of a started step, and on a
    logger that holds the step as completed: its flush puts the completed
    step in the place of the started one. *)
Lemma flush_twice_same_steps_witness :
  NoDup (step <$> persistedSteps Runs.started.2 Runs.vid)
  /\ is_Some (Runs.started.2 !! Runs.vid)
  /\ persistedSteps
       (flush None (flush None Runs.started.1 Runs.started.2).1
          (flush None Runs.started.1 Runs.started.2).2).2 Runs.vid
     = persistedSteps (flush None Runs.started.1 Runs.started.2).2 Runs.vid
  /\ NoDup (step <$> persistedSteps (flush None Runs.started.1 Runs.started.2).2 Runs.vid)
  /\ NoDup (step <$> steps Runs.completed_in_memory)
  /\ (status <$> lookupStep (lit "ai_parse") (persistedSteps Runs.started.2 Runs.vid))
     = Some running
  /\ lookupStep (lit "ai_parse")
       (persistedSteps (flush None Runs.completed_in_memory Runs.started.2).2 Runs.vid)
     = Some (newStepData (lit "ai_parse") completed
               (Some (lit "Extracted 2 violation items")) Runs.T2).
Proof.
  assert (Hnd : NoDup (step <$> persistedSteps Runs.started.2 Runs.vid))
    by (vm_compute; apply NoDup_singleton).
  assert (Hrow : is_Some (Runs.started.2 !! Runs.vid)) by (vm_compute; eauto).
  pose proof (flush_twice_same_steps None None Runs.started.1 Runs.started.2)
    as (H1 & H2 & _).
  split; [exact Hnd|]. split; [exact Hrow|]. split; [exact H1|].
  split; [exact (H2 Hnd)|].
  assert (Hm : NoDup (step <$> steps Runs.completed_in_memory))
    by (vm_compute; apply NoDup_singleton).
  split; [exact Hm|]. split; [vm_compute; reflexivity|].
  pose proof (flush_twice_same_steps None None Runs.completed_in_memory Runs.started.2)
    as (_ & _ & _ & _ & H5 & _).
  apply (H5 Hrow Hm
           (newStepData (lit "ai_parse") completed
              (Some (lit "Extracted 2 violation items")) Runs.T2)).
  vm_compute. left.
Defined.

(** *** Extras handed to [stepComplete] *)




End LedgerFacts.

(** ** The calendar of the Date built-in *)

Module JsDateFacts.

Import JsDate CalendarCheck.

Lemma allBelow_spec P n :
  allBelow P n = true -> forall i, 0 <= i < Z.pos n -> P i = true.
Proof.
  unfold allBelow.
  pose (Q := fun (p : positive) (st : Z * bool) =>
    st.1 = Z.pos p /\ (st.2 = true -> forall i, 0 <= i < Z.pos p -> P i = true)).
  assert (H : Q n (Pos.iter (fun st : Z * bool => (st.1 + 1, st.2 && P st.1)) (0, true) n)).
  { apply Pos.iter_ind; unfold Q; simpl.
    - split; [reflexivity|]. intros H i Hi. assert (i = 0) as -> by lia. exact H.
    - intros p [a b] [H1 H2]. simpl in *. split; [lia|].
      intros H i Hi. apply andb_true_iff in H as [Hb HP].
      destruct (decide (i = Z.pos p)) as [->|Hne]; [by rewrite <- H1|].
      apply H2; [exact Hb | lia]. }
  destruct H as [_ H]. exact H.
Qed.

Lemma era_check_all : allBelow era_check 146097 = true.
Proof. vm_compute. reflexivity. Qed.

Lemma isLeapYear_period y k : isLeapYear (y + k * 400) = isLeapYear y.
Proof.
  unfold isLeapYear.
  replace ((y + k * 400) mod 4) with (y mod 4)
    by (replace (y + k * 400) with (y + (k * 100) * 4) by lia;
        by rewrite Z.mod_add).
  replace ((y + k * 400) mod 100) with (y mod 100)
    by (replace (y + k * 400) with (y + (k * 4) * 100) by lia;
        by rewrite Z.mod_add).
  by rewrite Z.mod_add.
Qed.

Lemma daysInMonth_period y k m : daysInMonth (y + k * 400) m = daysInMonth y m.
Proof. unfold daysInMonth. by rewrite isLeapYear_period. Qed.

(** Four hundred years are 146097 days. *)
Lemma days_from_civil_period y k m d :
  days_from_civil (y + k * 400) m d = days_from_civil y m d + k * 146097.
Proof.
  unfold days_from_civil.
  assert (E : (if m <=? 2 then y + k * 400 - 1 else y + k * 400)
              = (if m <=? 2 then y - 1 else y) + k * 400)
    by (destruct (m <=? 2); lia).
  rewrite E. set (y' := if m <=? 2 then y - 1 else y).
  rewrite Z.div_add by lia.
  replace (y' + k * 400 - (y' / 400 + k) * 400) with (y' - y' / 400 * 400) by lia.
  lia.
Qed.

(** The day of the month enters the day number linearly. *)
Lemma days_from_civil_day y m d :
  days_from_civil y m d = days_from_civil y m 1 + d - 1.
Proof. unfold days_from_civil. lia. Qed.

(** Every day number is the day number of its date, which is a date of the
    calendar. *)
Lemma civil_from_days_inv z :
  days_from_civil (civil_from_days z).1.1 (civil_from_days z).1.2 (civil_from_days z).2 = z
  /\ 1 <= (civil_from_days z).1.2 <= 12
  /\ 1 <= (civil_from_days z).2
          <= daysInMonth (civil_from_days z).1.1 (civil_from_days z).1.2.
Proof.
  unfold civil_from_days. cbn [fst snd].
  set (z' := z + 719468). set (era := z' / 146097). set (doe := z' - era * 146097).
  assert (Hdoe : 0 <= doe < 146097).
  { subst doe era. pose proof (Z.mod_pos_bound z' 146097 ltac:(lia)) as Hb.
    rewrite Z.mod_eq in Hb by lia. lia. }
  pose proof (allBelow_spec _ _ era_check_all doe Hdoe) as Hc.
  unfold era_check in Hc. cbn zeta in Hc.
  set (cv := civil_of_doe doe) in *.
  repeat (apply andb_true_iff in Hc as [Hc ?]).
  rewrite days_from_civil_period, daysInMonth_period.
  split; [|lia]. apply Z.eqb_eq in Hc. rewrite Hc. subst doe z'. lia.
Qed.

Lemma MakeDay_civil y m dt :
  1 <= m <= 12 -> MakeDay y (m - 1) dt = days_from_civil y m 1 + dt - 1.
Proof.
  intros Hm. unfold MakeDay.
  rewrite Z.div_small, Z.mod_small by lia.
  replace (y + 0) with y by lia. replace (m - 1 + 1) with m by lia. reflexivity.
Qed.

(** [setDate(getDate() + n)] moves a time value by [n] days when the local
    time zone adjustment is the same everywhere. *)
Lemma setDate_getDate_add LocalTZA c t n :
  (forall u b, LocalTZA u b = c) ->
  setDate LocalTZA (Some t) (add (getDate LocalTZA (Some t)) (Some n))
  = TimeClip (t + n * msPerDay).
Proof.
  intros Hc. unfold setDate, getDate, add, LocalTime, UTC. rewrite !Hc.
  unfold YearFromTime, MonthFromTime, DateFromTime.
  destruct (civil_from_days_inv (Day (t + c))) as (H1 & H2 & H3).
  set (cv := civil_from_days (Day (t + c))) in *.
  rewrite MakeDay_civil by exact H2.
  f_equal. unfold MakeDate, TimeWithinDay.
  rewrite days_from_civil_day in H1. unfold Day in *.
  pose proof (Z.div_mod (t + c) msPerDay ltac:(unfold msPerDay; lia)).
  set (q := (t + c) / msPerDay) in *. set (r := (t + c) mod msPerDay) in *.
  set (D := days_from_civil cv.1.1 cv.1.2 1) in *. unfold msPerDay in *. lia.
Qed.

Lemma succ_check_all : allBelow succ_check 146097 = true.
Proof. vm_compute. reflexivity. Qed.

Lemma tomorrow_period y k m d :
  tomorrow (y + k * 400, m, d) =
  ((tomorrow (y, m, d)).1.1 + k * 400, (tomorrow (y, m, d)).1.2, (tomorrow (y, m, d)).2).
Proof.
  unfold tomorrow. rewrite daysInMonth_period.
  destruct (d <? daysInMonth y m); [reflexivity|].
  destruct (m <? 12); cbn [fst snd]; f_equal; f_equal; lia.
Qed.

(** Day 0 is 1970-01-01 and the date of the next day number is the day after:
    [civil_from_days] counts the days of the proleptic Gregorian calendar. *)
Lemma civil_from_days_calendar :
  civil_from_days 0 = (1970, 1, 1)
  /\ forall z, civil_from_days (z + 1) = tomorrow (civil_from_days z).
Proof.
  split; [reflexivity|]. intros z.
  unfold civil_from_days.
  set (z' := z + 719468). replace (z + 1 + 719468) with (z' + 1) by (subst z'; lia).
  set (era := z' / 146097). set (doe := z' - era * 146097).
  assert (Hdoe : 0 <= doe < 146097).
  { subst doe era. pose proof (Z.mod_pos_bound z' 146097 ltac:(lia)) as Hb.
    rewrite Z.mod_eq in Hb by lia. lia. }
  pose proof (allBelow_spec _ _ succ_check_all doe Hdoe) as Hc.
  unfold succ_check in Hc. cbn zeta in Hc.
  destruct (civil_of_doe doe) as [[ye m] d] eqn:Ec. cbn [fst snd].
  rewrite tomorrow_period.
  set (t := tomorrow (ye, m, d)) in *.
  repeat (apply andb_true_iff in Hc as [Hc ?]).
  destruct (doe =? 146096) eqn:E.
  - apply Z.eqb_eq in E.
    assert (E1 : (z' + 1) / 146097 = era + 1).
    { symmetry. apply (Z.div_unique _ _ _ 0); subst doe; lia. }
    rewrite E1.
    replace (z' + 1 - (era + 1) * 146097) with 0 by (subst doe; lia).
    cbn [fst snd] in *.
    f_equal; [f_equal|]; lia.
  - apply Z.eqb_neq in E.
    assert (E1 : (z' + 1) / 146097 = era).
    { symmetry. apply (Z.div_unique _ _ _ (doe + 1)); subst doe; lia. }
    rewrite E1.
    replace (z' + 1 - era * 146097) with (doe + 1) by (subst doe; lia).
    f_equal; [f_equal|]; lia.
Qed.

Lemma radixValue_10_bounds c : 0 <= default 0 (radixValue 10 c) <= 9.
Proof.
  unfold radixValue. destruct (hexValue c) as [v|] eqn:E; simpl; [|lia].
  destruct (v <? 10) eqn:E1; simpl; [|lia].
  apply Z.ltb_lt in E1. split; [|lia].
  unfold hexValue in E.
  destruct (isDigit c) eqn:Ed.
  - unfold isDigit in Ed. apply andb_true_iff in Ed as [Ha Hb].
    apply N.leb_le in Ha, Hb. injection E as <-. lia.
  - destruct ((97 <=? c) && (c <=? 102))%N eqn:E2.
    + apply andb_true_iff in E2 as [Ha Hb].
      apply N.leb_le in Ha, Hb. injection E as <-. lia.
    + destruct ((65 <=? c) && (c <=? 70))%N eqn:E3; [|discriminate].
      apply andb_true_iff in E3 as [Ha Hb].
      apply N.leb_le in Ha, Hb. injection E as <-. lia.
Qed.

Lemma isoDateOnly_bounds s y m d :
  isoDateOnly s = Some (y, m, d) ->
  0 <= y <= 9999 /\ 1 <= m <= 12 /\ 1 <= d <= daysInMonth y m.
Proof.
  unfold isoDateOnly.
  destruct s as [|y1 [|y2 [|y3 [|y4 [|s1 [|m1 [|m2 [|s2 [|d1 [|d2 [|? ?]]]]]]]]]]];
    try discriminate.
  destruct (_ && forallb _ _); [|discriminate].
  assert (Hy : 0 <= digitsValue 10 0 [y1; y2; y3; y4] <= 9999).
  { cbn [digitsValue].
    pose proof (radixValue_10_bounds y1). pose proof (radixValue_10_bounds y2).
    pose proof (radixValue_10_bounds y3). pose proof (radixValue_10_bounds y4).
    lia. }
  set (y0 := digitsValue 10 0 [y1; y2; y3; y4]) in *.
  set (m0 := digitsValue 10 0 [m1; m2]).
  set (d0 := digitsValue 10 0 [d1; d2]).
  cbn zeta.
  destruct (_ && _ && _ && _) eqn:E; [|discriminate].
  intros [= <- <- <-].
  repeat (apply andb_true_iff in E as [E ?]).
  repeat match goal with H : (_ <=? _) = true |- _ => apply Z.leb_le in H end.
  lia.
Qed.

Lemma daysInMonth_le_31 y m : daysInMonth y m <= 31.
Proof.
  unfold daysInMonth.
  destruct (m =? 2); [destruct (isLeapYear y); lia|].
  destruct (_ || _); lia.
Qed.

Lemma days_from_civil_bounds y m d :
  0 <= y <= 9999 -> 1 <= m <= 12 -> 1 <= d <= 31 ->
  -720000 <= days_from_civil y m d <= 2940000.
Proof.
  intros Hy Hm Hd. unfold days_from_civil.
  destruct (m <=? 2) eqn:E.
  - apply Z.leb_le in E. Z.to_euclidean_division_equations. lia.
  - apply Z.leb_gt in E. Z.to_euclidean_division_equations. lia.
Qed.

(** [new Date(s)] on a calendar date is UTC midnight of that day. *)
Lemma Date_new_calendar parse_other s y m d :
  isoDateOnly s = Some (y, m, d) ->
  Date_new parse_other s = Some (days_from_civil y m d * msPerDay).
Proof.
  intros H. unfold Date_new. rewrite H.
  apply isoDateOnly_bounds in H as (Hy & Hm & Hd).
  pose proof (daysInMonth_le_31 y m).
  pose proof (days_from_civil_bounds y m d Hy Hm ltac:(lia)).
  unfold TimeClip, MakeDate, msPerDay.
  rewrite (proj2 (Z.leb_le _ _)) by lia. f_equal. lia.
Qed.


End JsDateFacts.

(** ** Fields derived by insert-records *)

Module InsertRecordsFacts.

Import JsDate InsertRecords InsertRecordsSpec JsDateFacts.

(** *** [split] and the date part of [toISOString] *)

Lemma split_app_sep sep a b :
  (forall c, c ∈ a -> c <> sep) ->
  split sep (a ++ sep :: b) = a :: split sep b.
Proof.
  induction a as [|c a IH]; intros H; simpl.
  - by rewrite N.eqb_refl.
  - rewrite (proj2 (N.eqb_neq c sep)) by (apply H; left).
    rewrite IH; [reflexivity|]. intros c' Hc'. apply H. by right.
Qed.

Lemma padDigits_digits w : forall n c, c ∈ padDigits w n -> (48 <= c <= 57)%N.
Proof.
  induction w as [|w IH]; intros n c H; simpl in H.
  - by apply elem_of_nil in H.
  - apply elem_of_app in H as [H|H]; [by eapply IH|].
    apply list_elem_of_singleton in H. subst c.
    pose proof (Z.mod_pos_bound n 10 ltac:(lia)). lia.
Qed.

Lemma padDigits_no_T w n : Forall (fun c => c <> 84%N) (padDigits w n).
Proof.
  apply Forall_forall. intros c Hc. apply padDigits_digits in Hc. lia.
Qed.

Lemma isoDate_no_T ymd c : c ∈ isoDate ymd -> c <> 84%N.
Proof.
  revert c. apply Forall_forall. unfold isoDate, isoYear.
  assert (Hm : Forall (fun c => c <> 84%N) (lit "-")) by (by repeat constructor).
  assert (Hp : Forall (fun c => c <> 84%N) (lit "+")) by (by repeat constructor).
  apply Forall_app; split.
  - destruct (_ && _); [apply padDigits_no_T|].
    apply Forall_app; split; [|apply padDigits_no_T].
    by destruct (_ <? _).
  - apply Forall_app; split; [exact Hm|].
    apply Forall_app; split; [apply padDigits_no_T|].
    apply Forall_app; split; [exact Hm | apply padDigits_no_T].
Qed.

Lemma toISOString_date_part u :
  match toISOString (Some u) with
  | Returns s => head (split 84 s) = Some (isoDate (civil_from_days (Day u)))
  | Throws _ => False
  end.
Proof.
  unfold toISOString.
  change (head (split 84 (isoDate (civil_from_days (Day u))
                          ++ 84%N :: (isoTime (TimeWithinDay u) ++ lit "Z")))
          = Some (isoDate (civil_from_days (Day u)))).
  rewrite split_app_sep by apply isoDate_no_T. reflexivity.
Qed.

(** *** [Math.min] *)

Lemma foldl_min_spec l : forall x,
  foldl Z.min x l ∈ x :: l /\ forall y, y ∈ x :: l -> foldl Z.min x l <= y.
Proof.
  induction l as [|a l IH]; intros x; simpl.
  - split; [left|]. intros y Hy. apply list_elem_of_singleton in Hy. lia.
  - destruct (IH (Z.min x a)) as [H1 H2]. split.
    + apply elem_of_cons in H1 as [H1|H1].
      * rewrite H1. destruct (Z.min_spec x a) as [[_ ->]|[_ ->]].
        -- left.
        -- right. left.
      * right. by right.
    + intros y Hy.
      assert (Hm : foldl Z.min (Z.min x a) l <= Z.min x a) by (apply H2; left).
      apply elem_of_cons in Hy as [->|Hy]; [lia|].
      apply elem_of_cons in Hy as [->|Hy]; [lia|].
      apply H2. by right.
Qed.

Lemma Math_min_Some l :
  l <> [] ->
  exists m, Math_min l = Some m /\ m ∈ l /\ forall y, y ∈ l -> m <= y.
Proof.
  destruct l as [|x l]; [done|]. intros _.
  exists (foldl Z.min x l). split; [reflexivity|]. apply foldl_min_spec.
Qed.



(** *** Deadline *)

Lemma deadlineDays_cases wo :
  (forall v, parseInt (abatement_deadline wo) = Some v -> v <> 0 -> deadlineDays wo = v)
  /\ (parseInt (abatement_deadline wo) = Some 0 -> deadlineDays wo = 60)
  /\ (parseInt (abatement_deadline wo) = None -> deadlineDays wo = 60).
Proof.
  unfold deadlineDays. repeat split.
  - intros v -> Hv. by rewrite (proj2 (Z.eqb_neq v 0)).
  - by intros ->.
  - by intros ->.
Qed.

Lemma shortestDeadline_Some wos :
  wos <> [] ->
  exists n, shortestDeadline wos = Some n
            /\ (exists wo, wo ∈ wos /\ deadlineDays wo = n)
            /\ (forall wo, wo ∈ wos -> n <= deadlineDays wo).
Proof.
  intros Hne. unfold shortestDeadline.
  destruct (Math_min_Some (deadlineDays <$> wos)) as (n & Hn & Hin & Hle).
  { by destruct wos. }
  exists n. split; [exact Hn|]. split.
  - apply list_elem_of_fmap in Hin as (wo & -> & Hwo). by exists wo.
  - intros wo Hwo. apply Hle. by apply list_elem_of_fmap_2.
Qed.

Lemma isoDateOnly_truthy s ymd : isoDateOnly s = Some ymd -> truthy s = true.
Proof. by destruct s. Qed.

Lemma deadlineDate_constant_zone LocalTZA parse_other c notice wos sd y m d n :
  (forall u b, LocalTZA u b = c) ->
  parseDate (date_of_service notice) = Some sd ->
  isoDateOnly sd = Some (y, m, d) ->
  wos <> [] ->
  shortestDeadline wos = Some n ->
  deadlineDate LocalTZA parse_other notice wos =
  if Z.abs ((days_from_civil y m d + n) * msPerDay) <=? 8640000000000000
  then Returns (Some (isoDate (civil_from_days (days_from_civil y m d + n))))
  else Throws (lit "RangeError: Invalid time value").
Proof.
  intros Hc Hsd Hiso Hne Hn. unfold deadlineDate.
  rewrite Hsd. simpl truthy_opt. rewrite (isoDateOnly_truthy _ _ Hiso).
  assert (Hlen : (0 <? length wos)%nat = true).
  { apply Nat.ltb_lt. destruct wos; [done | simpl; lia]. }
  rewrite Hlen. simpl andb. cbn [default from_option id].
  rewrite (Date_new_calendar _ _ _ _ _ Hiso), Hn.
  rewrite (setDate_getDate_add LocalTZA c) by exact Hc.
  replace (days_from_civil y m d * msPerDay + n * msPerDay)
    with ((days_from_civil y m d + n) * msPerDay) by lia.
  unfold TimeClip.
  destruct (Z.abs _ <=? _); [|reflexivity].
  pose proof (toISOString_date_part ((days_from_civil y m d + n) * msPerDay)) as H.
  destruct (toISOString _) as [s|e]; [|done].
  rewrite H. unfold Day. rewrite Z.div_mul by (unfold msPerDay; lia). reflexivity.
Qed.



(** C3, as the code has it.  In a host whose local time zone adjustment is
    constant, for a service date that [parseDate] turns into a calendar date
    YYYY-MM-DD and a non-empty list of work orders, the deadline is the
    service date plus the least of the per-item day counts, where an item
    counts for the integer its deadline text starts with and for 60 when that
    text starts with no integer or with 0: the default takes part in the
    minimum as soon as one item does not parse.  (The result is a RangeError
    when that day lies outside the range of Date.)  Service date 01/01/2025
    with item deadlines 60 Days, 30 Days and not a number gives 2025-01-31. *)
Theorem deadline_is_service_date_plus_least_item_days :
  (forall LocalTZA parse_other c notice wos sd y m d,
     (forall u b, LocalTZA u b = c) ->
     parseDate (date_of_service notice) = Some sd ->
     isoDateOnly sd = Some (y, m, d) ->
     wos <> [] ->
     exists n,
       (exists wo, wo ∈ wos /\ deadlineDays wo = n)
       /\ (forall wo, wo ∈ wos -> n <= deadlineDays wo)
       /\ deadlineDate LocalTZA parse_other notice wos =
          if Z.abs ((days_from_civil y m d + n) * msPerDay) <=? 8640000000000000
          then Returns (Some (isoDate (civil_from_days (days_from_civil y m d + n))))
          else Throws (lit "RangeError: Invalid time value"))
  /\ (forall wo,
       (forall v, parseInt (abatement_deadline wo) = Some v -> v <> 0 ->
                  deadlineDays wo = v)
       /\ (parseInt (abatement_deadline wo) = Some 0 -> deadlineDays wo = 60)
       /\ (parseInt (abatement_deadline wo) = None -> deadlineDays wo = 60))
  /\ (forall LocalTZA parse_other c,
       (forall u b, LocalTZA u b = c) ->
       deadlineDate LocalTZA parse_other (notice_of "01/01/2025")
         [wo_of "60 Days" 2; wo_of "30 Days" 1; wo_of "not a number" 3]
       = Returns (Some (lit "2025-01-31"))).
Proof.
  split; [|split].
  - intros LocalTZA parse_other c notice wos sd y m d Hc Hsd Hiso Hne.
    destruct (shortestDeadline_Some wos Hne) as (n & Hn & Hin & Hle).
    exists n. split; [exact Hin|]. split; [exact Hle|].
    by eapply deadlineDate_constant_zone.
  - apply deadlineDays_cases.
  - intros LocalTZA parse_other c Hc.
    rewrite (deadlineDate_constant_zone LocalTZA parse_other c _ _
               (lit "2025-01-01") 2025 1 1 30 Hc); try reflexivity.
    discriminate.
Qed.

(** The theorem in UTC, at a service date of 01/01/2025 and the deadlines
    90 Days and not a number: the deadline is sixty days later. *)
Lemma deadline_is_service_date_plus_least_item_days_witness :
  (forall u b, (fun (_ : Z) (_ : bool) => 0) u b = 0)
  /\ parseDate (date_of_service (notice_of "01/01/2025")) = Some (lit "2025-01-01")
  /\ isoDateOnly (lit "2025-01-01") = Some (2025, 1, 1)
  /\ [wo_of "90 Days" 2; wo_of "not a number" 3] <> []
  /\ exists n,
       (exists wo, wo ∈ [wo_of "90 Days" 2; wo_of "not a number" 3]
                   /\ deadlineDays wo = n)
       /\ (forall wo, wo ∈ [wo_of "90 Days" 2; wo_of "not a number" 3] ->
                      n <= deadlineDays wo)
       /\ deadlineDate (fun _ _ => 0) (fun _ => None) (notice_of "01/01/2025")
            [wo_of "90 Days" 2; wo_of "not a number" 3] =
          if Z.abs ((days_from_civil 2025 1 1 + n) * msPerDay) <=? 8640000000000000
          then Returns (Some (isoDate (civil_from_days (days_from_civil 2025 1 1 + n))))
          else Throws (lit "RangeError: Invalid time value").
Proof.
  split; [reflexivity|]. split; [reflexivity|]. split; [reflexivity|].
  split; [discriminate|].
  apply (proj1 deadline_is_service_date_plus_least_item_days
           (fun _ _ => 0) (fun _ => None) 0 (notice_of "01/01/2025")
           [wo_of "90 Days" 2; wo_of "not a number" 3] (lit "2025-01-01") 2025 1 1);
    [reflexivity | reflexivity | reflexivity | discriminate].
Defined.

(** C3, as stated, fails: with deadlines 90 Days and not a number the only
    value that parses is 90, yet the deadline is the service date plus the
    default 60, 2025-03-02, not plus 90, 2025-04-01. *)
Lemma default_60_beats_a_parsed_90 :
  parseInt <$> [lit "90 Days"; lit "not a number"] = [Some 90; None]
  /\ deadlineDate (fun _ _ => 0) (fun _ => None) (notice_of "01/01/2025")
       [wo_of "90 Days" 2; wo_of "not a number" 3]
     = Returns (Some (lit "2025-03-02"))
  /\ isoDate (civil_from_days (days_from_civil 2025 1 1 + 90)) = lit "2025-04-01"
  /\ isoDate (civil_from_days (days_from_civil 2025 1 1 + 60)) = lit "2025-03-02".
Proof. repeat split; vm_compute; reflexivity. Qed.

(** Where the local time zone adjustment changes between the service date
    and the deadline, the local-time [setDate] and the UTC [toISOString] part
    by an hour and the date by a day: thirty days after 2025-03-01 come out as
    2025-03-30 on a host on Eastern time. *)
Lemma deadline_under_daylight_saving :
  deadlineDate us_eastern_2025 (fun _ => None) (notice_of "03/01/2025")
    [wo_of "30 Days" 1]
  = Returns (Some (lit "2025-03-30"))
  /\ isoDate (civil_from_days (days_from_civil 2025 3 1 + 30)) = lit "2025-03-31".
Proof. split; vm_compute; reflexivity. Qed.

(** *** Priority *)



(** *** Currency and dates *)

Lemma split_length s : length (split 47 s) = S (slashes s).
Proof.
  unfold slashes. induction s as [|c s IH]; [reflexivity|].
  simpl split. destruct (c =? 47)%N eqn:E.
  - apply N.eqb_eq in E. subst c.
    rewrite filter_cons_True by done. simpl. by rewrite IH.
  - apply N.eqb_neq in E. rewrite filter_cons_False by done.
    destruct (split 47 s) as [|p ps]; [discriminate IH|]. exact IH.
Qed.

Lemma parseDate_None s : parseDate s = None <-> slashes s <> 2%nat.
Proof.
  unfold parseDate. destruct s as [|c s]; [simpl; split; [intros _; discriminate | done]|].
  simpl truthy. simpl negb. cbv iota.
  pose proof (split_length (c :: s)) as Hlen.
  destruct (split 47 (c :: s)) as [|p1 [|p2 [|p3 [|p4 ps]]]]; simpl in Hlen.
  - discriminate.
  - split; [intros _; lia | done].
  - split; [intros _; lia | done].
  - split; [discriminate | intros H; lia].
  - split; [intros _; lia | done].
Qed.

Lemma takeWhile_nil_iff {A} (P : A -> bool) l :
  takeWhile P l = [] <-> match l with [] => True | x :: _ => P x = false end.
Proof.
  destruct l as [|x l]; simpl; [done|].
  destruct (P x); split; done.
Qed.

Lemma dropWhile_head_false {A} (P : A -> bool) x l :
  P x = false -> dropWhile P (x :: l) = x :: l.
Proof. intros H. simpl. by rewrite H. Qed.

Lemma parseFloat_NaN s :
  parseFloat s = NaN <-> ~ numericStart (stripSign (trimStart s)).2.
Proof.
  unfold parseFloat. set (S1 := (stripSign (trimStart s)).2).
  unfold numericStart.
  destruct (startsWith (lit "Infinity") S1) eqn:EI.
  { split; [discriminate | intros H; exfalso; apply H; by left]. }
  destruct S1 as [|c r].
  { simpl. split; [|done]. intros _ [H|[(c & r & H & _)|(c & r & H & _)]]; discriminate. }
  destruct (isDigit c) eqn:Ed.
  { simpl takeWhile. rewrite Ed. simpl app. split; [discriminate|].
    intros H. exfalso. apply H. right. left. by exists c, r. }
  simpl takeWhile. rewrite Ed. rewrite dropWhile_head_false by exact Ed.
  simpl app. unfold fraction.
  destruct (c =? 46)%N eqn:E46.
  - apply N.eqb_eq in E46. subst c. cbn [fst snd].
    destruct r as [|c' r'].
    + simpl. split; [|done].
      intros _ [H|[(c & r & H & Hd)|(c & r & H & _)]]; simplify_eq; done.
    + destruct (isDigit c') eqn:Ed'.
      * simpl takeWhile. rewrite Ed'. split; [discriminate|].
        intros H. exfalso. apply H. right. right. by exists c', r'.
      * simpl takeWhile. rewrite Ed'. split; [|done].
        intros _ [H|[(c & r & H & Hd)|(c & r & H & Hd)]]; simplify_eq; congruence.
  - cbn [fst snd]. split; [|done].
    intros _ [H|[(c0 & r0 & H & Hd)|(c0 & r0 & H & Hd)]]; simplify_eq.
    congruence.
Qed.

Lemma parseFine_None s :
  parseFine s = None
  <-> ~ numericStart (stripSign (trimStart (strip_dollar_comma s))).2.
Proof.
  unfold parseFine. rewrite <- parseFloat_NaN.
  destruct (parseFloat _); simpl; split; done.
Qed.


(** C7, as the code has it.  $1,234.56 parses to 1234.56 and 02/15/2025 to
    2025-02-15.  Both parsers are total on strings.  [parseFine] gives null
    exactly when the string, once rid of dollar signs, commas, leading white
    space and one sign, does not start with a digit, with a point and a
    digit, or with Infinity; [parseDate] gives null exactly when the string
    does not hold two slashes. *)
Theorem parsers_examples_and_null_cases :
  parseFine (lit "$1,234.56") = Some (Decimal false 123456 (-2))
  /\ (decimalValue false 123456 (-2) == 1234.56)%Q
  /\ parseDate (lit "02/15/2025") = Some (lit "2025-02-15")
  /\ (forall s, parseFine s = None
                <-> ~ numericStart (stripSign (trimStart (strip_dollar_comma s))).2)
  /\ (forall s, parseDate s = None <-> slashes s <> 2%nat).
Proof.
  split; [vm_compute; reflexivity|]. split; [vm_compute; reflexivity|].
  split; [vm_compute; reflexivity|]. split.
  - apply parseFine_None.
  - apply parseDate_None.
Qed.

(** C7, as stated, fails: strings that are no amount and no date get a
    result that is not null. *)
Lemma malformed_strings_parse :
  parseDate (lit "13/45/2025") = Some (lit "2025-13-45")
  /\ parseDate (lit "a/b/c") = Some (lit "c-0a-0b")
  /\ parseFine (lit "12abc") = Some (Decimal false 12 0)
  /\ parseFine (lit "1.2.3") = Some (Decimal false 12 (-1)).
Proof. repeat split; vm_compute; reflexivity. Qed.

End InsertRecordsFacts.

(** ** Photo matching *)

Module MatchPhotosFacts.

Import MatchPhotos MatchPhotosSpec.

Section Step.

Variable toLowerCase : jsstring -> jsstring.
Variable photoError : list PhotoRow -> PhotoRow -> option jsstring.
Variable event_data : EventData.

Abbreviation normalizeCode := (normalizeCode toLowerCase).
Abbreviation codeMatches := (codeMatches toLowerCase).
Abbreviation matchItem := (matchItem toLowerCase).
Abbreviation photoRow := (photoRow toLowerCase event_data).
Abbreviation loopBody := (loopBody toLowerCase photoError event_data).
Abbreviation unmatched := (unmatched toLowerCase).

Lemma codeMatches_spec pc it :
  codeMatches pc it = true
  <-> exists c, item_violation_code it = Some c /\ c <> []
                /\ normalizeCode c = normalizeCode pc.
Proof.
  unfold MatchPhotos.codeMatches. rewrite andb_true_iff.
  destruct (item_violation_code it) as [c|]; simpl.
  - split.
    + intros [H1 H2]. exists c. split; [done|]. split.
      * by destruct c.
      * unfold streq in H2. by apply bool_decide_eq_true in H2.
    + intros (c' & [= <-] & Hne & Hn). split.
      * by destruct c.
      * unfold streq. by apply bool_decide_eq_true.
  - split; [intros [? _]; discriminate | intros (c & ? & _); discriminate].
Qed.

Lemma codeMatches_sameCode pc it :
  codeMatches pc it = true <-> sameCode toLowerCase pc it.
Proof. apply codeMatches_spec. Qed.

Lemma codeMatches_not_sameCode pc it :
  codeMatches pc it = false <-> ~ sameCode toLowerCase pc it.
Proof.
  rewrite <- codeMatches_sameCode. by destruct (MatchPhotos.codeMatches _ pc it).
Qed.

Lemma matchItem_Some items pc it :
  matchItem items pc = Some it
  <-> exists i, items !! i = Some it /\ codeMatches pc it = true
                /\ forall j it', items !! j = Some it' -> (j < i)%nat ->
                                 codeMatches pc it' = false.
Proof.
  unfold MatchPhotos.matchItem, find. split.
  - intros H. destruct (list_find _ items) as [[i x]|] eqn:E; [|discriminate].
    simpl in H. injection H as ->. apply list_find_Some in E as (H1 & H2 & H3).
    exists i. split; [done|]. split; [by apply Is_true_true|].
    intros j it' Hj Hlt. specialize (H3 j it' Hj Hlt).
    by destruct (MatchPhotos.codeMatches toLowerCase pc it').
  - intros (i & H1 & H2 & H3).
    rewrite (proj2 (list_find_Some _ items i it)); [reflexivity|].
    split; [done|]. split; [by apply Is_true_true|].
    intros j it' Hj Hlt. rewrite (H3 j it' Hj Hlt). simpl. tauto.
Qed.

Lemma matchItem_None items pc :
  matchItem items pc = None
  <-> forall it, it ∈ items -> codeMatches pc it = false.
Proof.
  unfold MatchPhotos.matchItem, find. split.
  - intros H. destruct (list_find _ items) as [[i x]|] eqn:E; [discriminate|].
    apply list_find_None in E. rewrite Forall_forall in E.
    intros it Hit. specialize (E it Hit).
    by destruct (MatchPhotos.codeMatches toLowerCase pc it).
  - intros H. rewrite (proj2 (list_find_None _ items)); [reflexivity|].
    apply Forall_forall. intros it Hit. rewrite (H it Hit). simpl. tauto.
Qed.

(** *** The loop *)

Lemma loopBody_skip items st p :
  qualifies p = false -> loopBody items st p = st.
Proof.
  intros H. unfold MatchPhotos.loopBody, qualifies in *.
  destruct (is_evidence_photo p), (truthy_opt (violation_code p)); simpl in *; done.
Qed.

Lemma loopBody_qualifies items st p :
  qualifies p = true ->
  let st' := loopBody items st p in
  let row := photoRow items p in
  let written := match photoError (photos st) row with Some _ => [] | None => [row] end in
  photos st' = photos st ++ written
  /\ matchedCount st' = matchedCount st + Z.of_nat (length written)
  /\ unmatchedCount st' =
     (if unmatched items p then unmatchedCount st + 1 else unmatchedCount st).
Proof.
  intros H. unfold MatchPhotos.loopBody, MatchPhotosSpec.unmatched. rewrite H.
  unfold qualifies in H. apply andb_true_iff in H as [-> ->]. cbn [negb orb andb].
  destruct (MatchPhotos.matchItem toLowerCase items (default [] (violation_code p)))
    as [it|] eqn:E.
  - cbn zeta. destruct (photoError _ _); simpl.
    + rewrite app_nil_r. repeat split; lia.
    + repeat split; lia.
  - cbn zeta. destruct (photoError _ _); simpl.
    + rewrite app_nil_r. repeat split; lia.
    + repeat split; lia.
Qed.

Lemma unmatched_qualifies items p : unmatched items p = true -> qualifies p = true.
Proof. unfold MatchPhotosSpec.unmatched. by intros [? _]%andb_true_iff. Qed.

(** The rows added by the loop are rows of qualifying pages, in page order;
    the first counter counts the rows added, the second the qualifying pages
    that no item matches. *)
Lemma loop_spec items pages : forall st,
  exists added,
    photos (foldl (loopBody items) st pages) = photos st ++ added
    /\ added `sublist_of` (photoRow items <$> filter (fun p => qualifies p = true) pages)
    /\ matchedCount (foldl (loopBody items) st pages)
       = matchedCount st + Z.of_nat (length added)
    /\ unmatchedCount (foldl (loopBody items) st pages)
       = unmatchedCount st
         + Z.of_nat (length (filter (fun p => unmatched items p = true) pages))
    /\ ((forall t r, photoError t r = None) ->
        added = photoRow items <$> filter (fun p => qualifies p = true) pages).
Proof.
  induction pages as [|p pages IH]; intros st.
  - exists []. simpl. rewrite app_nil_r. repeat split; try lia. apply sublist_nil.
  - simpl foldl. destruct (qualifies p) eqn:Hq.
    + destruct (loopBody_qualifies items st p Hq) as (H1 & H2 & H3).
      destruct (IH (loopBody items st p)) as (added & I1 & I2 & I3 & I4 & I5).
      set (row := photoRow items p) in *.
      set (written := match photoError (photos st) row with
                      | Some _ => [] | None => [row] end) in *.
      exists (written ++ added).
      rewrite (filter_cons_True _ p pages) by exact Hq. rewrite fmap_cons.
      split; [|split; [|split; [|split]]].
      * rewrite I1, H1. by rewrite app_assoc.
      * subst written. destruct (photoError _ _).
        -- simpl. by apply sublist_cons.
        -- simpl. by apply sublist_skip.
      * rewrite I3, H2, length_app. lia.
      * rewrite I4, H3. destruct (unmatched items p) eqn:Hu.
        -- rewrite filter_cons_True by exact Hu. simpl. lia.
        -- rewrite filter_cons_False by (by rewrite Hu). lia.
      * intros Hok. subst written. rewrite Hok. simpl. f_equal. by apply I5.
    + rewrite loopBody_skip by exact Hq.
      destruct (IH st) as (added & I1 & I2 & I3 & I4 & I5).
      exists added.
      rewrite (filter_cons_False _ p pages) by (by rewrite Hq).
      rewrite (filter_cons_False (fun p => unmatched items p = true) p pages).
      * done.
      * intros Hu. apply unmatched_qualifies in Hu. congruence.
Qed.

Lemma photoRow_fields items p :
  qualifies p = true ->
  let r := photoRow items p in
  photo_type r = INSPECTOR /\ status r = APPROVED
  /\ storage_path r = pdfStoragePath event_data
  /\ photo_page_number r = page_number p
  /\ violation_code p = Some (matched_violation_code r)
  /\ violation_item_id r
     = itemLink (matchItem items (default [] (violation_code p))).
Proof.
  intros Hq. simpl. repeat split.
  unfold qualifies in Hq. apply andb_true_iff in Hq as [_ Hq].
  by destruct (violation_code p).
Qed.

End Step.

(** *** The counters in the persisted metadata *)


(** *** Normalization, word by word *)

Lemma words_cons_not_ws c s :
  isWhiteSpace c = false ->
  exists w ws, words (c :: s) = (c :: w) :: ws.
Proof.
  intros Hc. simpl. rewrite Hc. destruct s as [|c' s'].
  - by exists [], [].
  - destruct (isWhiteSpace c'); [by eexists [], _|].
    destruct (words (c' :: s')) as [|w ws]; [by exists [], [] | by exists w, ws].
Qed.

(** Every word is a non-empty run without white space. *)
Lemma words_wf s :
  Forall (fun w => w <> [] /\ Forall (fun c => isWhiteSpace c = false) w) (words s).
Proof.
  induction s as [|c s IH]; [constructor|].
  simpl. destruct (isWhiteSpace c) eqn:Hc; [exact IH|].
  destruct s as [|c' s'].
  - repeat constructor; [done | exact Hc].
  - destruct (isWhiteSpace c') eqn:Hc'.
    + constructor; [|exact IH]. split; [done|]. by repeat constructor.
    + destruct (words (c' :: s')) as [|w ws].
      * repeat constructor; [done | exact Hc].
      * inversion IH as [|? ? [Hw1 Hw2] Hws]; subst.
        constructor; [|exact Hws]. split; [done|]. by constructor.
Qed.

(** With a run of white space dropped at the front, each later one turned
    into a space, the string is its words joined by spaces, and a space
    for a run at its end. *)
Lemma replace_ws_runs_words s :
  exists t, (t = [] \/ (t = [32%N] /\ words s <> []))
            /\ replace_ws_runs true s = join [32%N] (words s) ++ t.
Proof.
  induction s as [|c s IH]; [by exists []; split; [left|]|].
  destruct IH as (t & Ht & IH).
  cbn [replace_ws_runs words]. destruct (isWhiteSpace c) eqn:Hc; [by exists t|].
  destruct s as [|c' s'].
  - exists []. split; [by left|]. reflexivity.
  - cbn [replace_ws_runs words] in IH, Ht |- *.
    destruct (isWhiteSpace c') eqn:Hc'.
    + rewrite IH. destruct (words s') as [|w ws] eqn:Ew.
      * destruct Ht as [->|[_ ?]]; [|done]. exists [32%N].
        split; [right; split; done|]. reflexivity.
      * exists t. split.
        -- destruct Ht as [->|[-> _]]; [by left | right; split; done].
        -- cbn [join]. destruct ws; simpl; by rewrite <- ?app_assoc.
    + destruct (words_cons_not_ws c' s' Hc') as (w & ws & Ew).
      cbn [words] in Ew. rewrite Hc' in Ew. rewrite Ew in IH, Ht |- *.
      exists t. split.
      * destruct Ht as [->|[-> _]]; [by left | right; split; done].
      * rewrite IH. cbn [join]. by destruct ws.
Qed.

Lemma replace_ws_runs_false s :
  exists l, Forall (fun c => isWhiteSpace c = true) l
            /\ replace_ws_runs false s = l ++ replace_ws_runs true s.
Proof.
  destruct s as [|c s]; [by exists []|].
  cbn [replace_ws_runs]. destruct (isWhiteSpace c).
  - exists [32%N]. split; [by repeat constructor | reflexivity].
  - by exists [].
Qed.

Lemma dropWhile_app_all {A} (P : A -> bool) l k :
  Forall (fun x => P x = true) l -> dropWhile P (l ++ k) = dropWhile P k.
Proof.
  induction 1 as [|x l Hx _ IH]; [reflexivity|]. simpl. by rewrite Hx.
Qed.

Lemma dropWhile_head_keeps {A} (P : A -> bool) x l :
  P x = false -> dropWhile P (x :: l) = x :: l.
Proof. intros H. simpl. by rewrite H. Qed.

(** A non-empty list of words joined by spaces begins and ends with a code
    unit that is not white space. *)
Lemma join_words_ends ws :
  ws <> [] ->
  Forall (fun w => w <> [] /\ Forall (fun c => isWhiteSpace c = false) w) ws ->
  (exists a x, join [32%N] ws = a :: x /\ isWhiteSpace a = false)
  /\ (exists b y, join [32%N] ws = y ++ [b] /\ isWhiteSpace b = false).
Proof.
  induction ws as [|w ws IH]; [done|]. intros _ Hwf.
  inversion Hwf as [|? ? [Hne Hw] Hws]; subst.
  split.
  - destruct w as [|a w']; [done|]. inversion Hw; subst.
    exists a. cbn [join]. destruct ws; eauto.
  - destruct ws as [|w2 ws].
    + cbn [join]. destruct w as [|b y _] using rev_ind; [done|].
      exists b, y. split; [reflexivity|].
      apply Forall_app in Hw as [_ Hb]. by inversion Hb.
    + destruct (IH ltac:(done) Hws) as [_ (b & y & Hy & Hb)].
      exists b, (w ++ [32%N] ++ y). split; [|exact Hb].
      change (join [32%N] (w :: w2 :: ws)) with (w ++ [32%N] ++ join [32%N] (w2 :: ws)).
      rewrite Hy. by rewrite <- !app_assoc.
Qed.

Lemma trim_between l J t a x b y :
  Forall (fun c => isWhiteSpace c = true) l ->
  Forall (fun c => isWhiteSpace c = true) t ->
  J = a :: x -> isWhiteSpace a = false ->
  J = y ++ [b] -> isWhiteSpace b = false ->
  trim (l ++ J ++ t) = J.
Proof.
  intros Hl Ht Ha Hwa Hb Hwb. unfold trim, trimStart.
  rewrite dropWhile_app_all by exact Hl.
  rewrite Ha at 1. rewrite <- app_comm_cons, dropWhile_head_keeps by exact Hwa.
  rewrite app_comm_cons, <- Ha, Hb.
  rewrite !rev_app_distr. cbn [rev app].
  rewrite dropWhile_app_all by (by apply Forall_rev).
  rewrite dropWhile_head_keeps by exact Hwb.
  cbn [rev]. by rewrite rev_involutive.
Qed.

(** Collapsing the runs of white space and trimming joins the words by single
    spaces. *)
Lemma trim_replace_ws_runs s :
  trim (replace_ws_runs false s) = join [32%N] (words s).
Proof.
  destruct (replace_ws_runs_false s) as (l & Hl & ->).
  destruct (replace_ws_runs_words s) as (t & Ht & ->).
  destruct (words s) as [|w ws] eqn:Ew.
  - destruct Ht as [->|[_ ?]]; [|done]. cbn [join app]. rewrite app_nil_r.
    unfold trim, trimStart.
    rewrite <- (app_nil_r l), dropWhile_app_all by exact Hl. reflexivity.
  - destruct (join_words_ends (w :: ws) ltac:(done))
      as [(a & x & Ha & Hwa) (b & y & Hb & Hwb)].
    { rewrite <- Ew. apply words_wf. }
    eapply trim_between; eauto.
    destruct Ht as [->|[-> _]]; by repeat constructor.
Qed.

Lemma normalizeCode_words toLowerCase code :
  normalizeCode toLowerCase code = toLowerCase (join [32%N] (words code)).
Proof. unfold normalizeCode. by rewrite trim_replace_ws_runs. Qed.

(** *** Matching *)

(** C4, as the code has it.  A page goes to the first item, in the order of
    the items, whose non-empty code is, once normalized, equal to the page's
    normalized code, and to no item when there is none; nothing weaker than
    equality counts.  Normalizing joins the words of the code, its runs
    without white space, by single spaces and lowers the case; it puts no
    space where the code has none: 12-G DCMR § 309.1, also with wider runs of
    white space, matches a page coded 12-g dcmr § 309.1 and the earlier item
    wins, whereas 12-G DCMR  §309.1 normalizes to 12-g dcmr §309.1 and is
    passed over. *)
Theorem page_goes_to_first_item_of_equal_normalized_code :
  (forall toLowerCase items pc it,
     matchItem toLowerCase items pc = Some it
     <-> exists i, items !! i = Some it /\ sameCode toLowerCase pc it
                   /\ forall j it', items !! j = Some it' -> (j < i)%nat ->
                                    ~ sameCode toLowerCase pc it')
  /\ (forall toLowerCase items pc,
       matchItem toLowerCase items pc = None
       <-> forall it, it ∈ items -> ~ sameCode toLowerCase pc it)
  /\ (forall toLowerCase code,
       normalizeCode toLowerCase code = toLowerCase (join [32%N] (words code)))
  /\ normalizeCode latin1_toLowerCase code_regular = code_page
  /\ normalizeCode latin1_toLowerCase code_spaced = code_page
  /\ normalizeCode latin1_toLowerCase code_page = code_page
  /\ normalizeCode latin1_toLowerCase code_unspaced
     = lit "12-g dcmr " ++ sect ++ lit "309.1"
  /\ matchItem latin1_toLowerCase
       [mkItem (lit "a") (Some code_spaced); mkItem (lit "b") (Some code_regular)]
       code_page
     = Some (mkItem (lit "a") (Some code_spaced))
  /\ matchItem latin1_toLowerCase
       [mkItem (lit "u") (Some code_unspaced); mkItem (lit "b") (Some code_regular)]
       code_page
     = Some (mkItem (lit "b") (Some code_regular)).
Proof.
  split; [|split; [|split; [apply normalizeCode_words|]]].
  - intros toLowerCase items pc it. rewrite matchItem_Some.
    split; intros (i & H1 & H2 & H3); exists i; (split; [exact H1|]).
    + split; [by apply codeMatches_sameCode|].
      intros j it' Hj Hlt. apply codeMatches_not_sameCode. by eapply H3.
    + split; [by apply codeMatches_sameCode|].
      intros j it' Hj Hlt. apply codeMatches_not_sameCode. by eapply H3.
  - intros toLowerCase items pc. rewrite matchItem_None.
    split; intros H it Hit.
    + apply codeMatches_not_sameCode. by apply H.
    + apply codeMatches_not_sameCode. by apply H.
  - repeat split; vm_compute; reflexivity.
Qed.

(** C4, as stated, fails: the item coded 12-G DCMR  §309.1 does not
    normalize to the code of the page coded 12-g dcmr § 309.1, and alone it
    leaves the page unmatched. *)
Lemma unspaced_code_does_not_match :
  normalizeCode latin1_toLowerCase code_unspaced
    <> normalizeCode latin1_toLowerCase code_page
  /\ matchItem latin1_toLowerCase [mkItem (lit "u") (Some code_unspaced)] code_page
     = None.
Proof. split; [vm_compute; discriminate | vm_compute; reflexivity]. Qed.

(** *** Photo rows and counters *)





(** C10.  Every row the step adds to the photos table is of type INSPECTOR
    and of status APPROVED, hence never PENDING_REVIEW, is stored under the
    path of the source PDF, and carries the number and the code of a page that
    is flagged as evidence and has a code. *)
Theorem photo_rows_are_approved_inspector_pages :
  forall toLowerCase photoError ev items pages table,
    exists added,
      (matchPhotos toLowerCase photoError ev items pages table).1 = table ++ added
      /\ forall r, r ∈ added ->
           photo_type r = INSPECTOR
           /\ status r = APPROVED
           /\ status r <> PENDING_REVIEW
           /\ storage_path r = pdfStoragePath ev
           /\ exists p, p ∈ pages
                        /\ is_evidence_photo p = true
                        /\ photo_page_number r = page_number p
                        /\ violation_code p = Some (matched_violation_code r).
Proof.
  intros toLowerCase photoError ev items pages table.
  destruct items as [[|item items]|].
  - exists []. split; [simpl; by rewrite app_nil_r|]. intros r Hr.
    by apply elem_of_nil in Hr.
  - destruct (loop_spec toLowerCase photoError ev (item :: items) pages
                (loopInit table)) as (added & H1 & H2 & _).
    exists added. split; [exact H1|]. intros r Hr.
    apply (elem_of_sublist _ _ _ Hr) in H2. rename H2 into Hr'. clear Hr.
    rename Hr' into Hr.
    apply list_elem_of_fmap in Hr as (p & -> & Hp).
    apply list_elem_of_filter in Hp as [Hq Hp].
    destruct (photoRow_fields toLowerCase ev (item :: items) p Hq)
      as (F1 & F2 & F3 & F4 & F5 & _).
    split; [exact F1|]. split; [exact F2|]. split; [by rewrite F2|].
    split; [exact F3|]. exists p. split; [exact Hp|]. split; [|done].
    unfold qualifies in Hq. by apply andb_true_iff in Hq as [? _].
  - exists []. split; [simpl; by rewrite app_nil_r|]. intros r Hr.
    by apply elem_of_nil in Hr.
Qed.

(** The theorem on the row of a page of evidence. *)
Lemma photo_rows_are_approved_inspector_pages_witness :
  exists r,
    (matchPhotos latin1_toLowerCase accept_all event
       (Some [mkItem (lit "a") (Some code_regular)])
       [page_of 3 (Some code_page) true] []).1 = [r]
    /\ photo_type r = INSPECTOR /\ status r = APPROVED
    /\ storage_path r = lit "org/v1/notice.pdf".
Proof.
  destruct (photo_rows_are_approved_inspector_pages latin1_toLowerCase accept_all
              event (Some [mkItem (lit "a") (Some code_regular)])
              [page_of 3 (Some code_page) true] []) as (added & H1 & H2).
  simpl app in H1.
  exists (photoRow latin1_toLowerCase event [mkItem (lit "a") (Some code_regular)]
            (page_of 3 (Some code_page) true)).
  split; [reflexivity|].
  assert (Hin : photoRow latin1_toLowerCase event [mkItem (lit "a") (Some code_regular)]
                  (page_of 3 (Some code_page) true) ∈ added).
  { rewrite <- H1. left. }
  destruct (H2 _ Hin) as (F1 & F2 & _ & F3 & _). done.
Defined.

End MatchPhotosFacts.

(** ** The graph of accepted transitions *)

Module StatusGraphFacts.

Import StatusTransitions StatusGraph.

Local Ltac via b := apply (rtc_l transition _ b); [reflexivity|].

(** X1. Every status is reached from NEW by accepted transitions, and
    CLOSED is reached from every status; CLOSED is the only status with no
    next status, and no status transitions to itself. *)
Theorem workflow_graph_is_connected_and_ends_in_closed :
  (forall s, rtc transition NEW s)
  /\ (forall s, rtc transition s CLOSED)
  /\ (forall s, getNextStatuses s = [] <-> s = CLOSED)
  /\ (forall s, canTransition s s = false).
Proof.
  split; [|split; [|split]].
  - assert (H : rtc transition NEW SUBMITTED).
    { via ASSIGNED. via IN_PROGRESS. via AWAITING_PHOTOS. via PHOTOS_UPLOADED.
      via READY_FOR_SUBMISSION. via SUBMITTED. apply rtc_refl. }
    intros []; try (by apply rtc_once); try apply rtc_refl.
    + via PARSING. by apply rtc_once.
    + via ASSIGNED. by apply rtc_once.
    + via ASSIGNED. via IN_PROGRESS. by apply rtc_once.
    + via ASSIGNED. via IN_PROGRESS. via AWAITING_PHOTOS. by apply rtc_once.
    + via ASSIGNED. via IN_PROGRESS. via AWAITING_PHOTOS. via PHOTOS_UPLOADED.
      by apply rtc_once.
    + exact H.
    + eapply rtc_r; [exact H | reflexivity].
    + eapply rtc_r; [exact H | reflexivity].
    + eapply rtc_r; [exact H | reflexivity].
  - assert (H : rtc transition AWAITING_PHOTOS CLOSED).
    { via IN_PROGRESS. by apply rtc_once. }
    intros []; try (by apply rtc_once); try apply rtc_refl.
    + via NEW. by apply rtc_once.
    + exact H.
    + via AWAITING_PHOTOS. exact H.
    + via AWAITING_PHOTOS. exact H.
    + via APPROVED. by apply rtc_once.
    + via IN_PROGRESS. by apply rtc_once.
    + via IN_PROGRESS. by apply rtc_once.
  - intros []; split; done.
  - intros []; reflexivity.
Qed.

(** X2. Once a violation has left the intake statuses NEW, PARSING and
    PARSED, no sequence of accepted transitions brings it back to one of
    them. *)
Theorem no_way_back_to_intake s t :
  rtc transition s t -> intake s = false -> intake t = false.
Proof.
  induction 1 as [|a b c Hab _ IH]; [done|].
  intros Ha. apply IH. by destruct a, b.
Qed.

(** The theorem on the path REJECTED, IN_PROGRESS, CLOSED. *)
Lemma no_way_back_to_intake_witness :
  rtc transition REJECTED CLOSED /\ intake REJECTED = false /\ intake CLOSED = false.
Proof.
  assert (H : rtc transition REJECTED CLOSED).
  { apply (rtc_l transition _ IN_PROGRESS); [reflexivity|]. by apply rtc_once. }
  split; [exact H|]. split; [reflexivity|].
  exact (no_way_back_to_intake REJECTED CLOSED H eq_refl).
Defined.

End StatusGraphFacts.

(** ** Deadline urgency *)

Module StatusDisplayFacts.

Import StatusTransitions JsDate StatusDisplay JsDateFacts.

Lemma ceilDiv_days D now :
  ceilDiv (D * msPerDay - now) (1000 * 60 * 60 * 24) = D - Day now.
Proof.
  unfold ceilDiv, Day, msPerDay.
  replace (- (D * 86400000 - now)) with (now + (- D) * 86400000) by lia.
  change (1000 * 60 * 60 * 24) with 86400000.
  rewrite Z.div_add by lia. lia.
Qed.

Lemma isoDateOnly_nonempty s ymd : isoDateOnly s = Some ymd -> truthy s = true.
Proof. by destruct s. Qed.

Lemma daysFromNow_calendar parse_other s y m d now :
  isoDateOnly s = Some (y, m, d) ->
  daysFromNow parse_other s now = Some (days_from_civil y m d - Day now).
Proof.
  intros H. unfold daysFromNow. rewrite (Date_new_calendar _ _ _ _ _ H). simpl.
  by rewrite ceilDiv_days.
Qed.

(** X3. For a deadline that is a calendar date YYYY-MM-DD,
    [getDaysRemaining] is the number of days from the UTC day of the
    current instant to the deadline date, whatever the time of day: 0
    during the whole UTC day of the deadline, negative from the next UTC
    midnight on. *)
Theorem days_remaining_counts_calendar_days parse_other s y m d now :
  isoDateOnly s = Some (y, m, d) ->
  getDaysRemaining parse_other (Some s) now
  = Some (Some (days_from_civil y m d - Day now)).
Proof.
  intros H. unfold getDaysRemaining. simpl.
  rewrite (isoDateOnly_nonempty _ _ H). simpl.
  by rewrite (daysFromNow_calendar _ _ _ _ _ _ H).
Qed.

(** The theorem for the deadline 2025-03-01 at 23:00 UTC of 27 February:
    two days. *)
Lemma days_remaining_counts_calendar_days_witness :
  isoDateOnly (lit "2025-03-01") = Some (2025, 3, 1)
  /\ getDaysRemaining (fun _ => None) (Some (lit "2025-03-01"))
       (days_from_civil 2025 2 27 * msPerDay + 23 * 3600000)
     = Some (Some 2).
Proof.
  split; [reflexivity|].
  rewrite (days_remaining_counts_calendar_days (fun _ => None) (lit "2025-03-01")
             2025 3 1 _ eq_refl).
  reflexivity.
Defined.

(** X4. [getUrgencyColor] is gray when there is no deadline or the status
    is APPROVED or CLOSED. Otherwise, for a deadline that is a calendar
    date, with n the number of days from the UTC day of the current instant
    to the deadline date, it is red when n < 0, orange when n <= 10, yellow
    when n <= 30 and green beyond, and the deadline cell of the table reads
    [-n]d overdue when n < 0 and [n]d left otherwise. A deadline that is no
    date at all is shown green, with the text NaNd left. *)
Theorem urgency_color_by_calendar_days parse_other :
  (forall deadline st now,
     truthy_opt deadline = false \/ st = APPROVED \/ st = CLOSED ->
     getUrgencyColor parse_other deadline st now = lit "text-gray-400")
  /\ (forall s y m d st now,
        isoDateOnly s = Some (y, m, d) -> st <> APPROVED -> st <> CLOSED ->
        let n := days_from_civil y m d - Day now in
        getUrgencyColor parse_other (Some s) st now =
          (if n <? 0 then lit "text-red-600 font-bold"
           else if n <=? 10 then lit "text-orange-600 font-semibold"
           else if n <=? 30 then lit "text-yellow-600"
           else lit "text-green-600")
        /\ deadlineCell (getDaysRemaining parse_other (Some s) now) =
           (if n <? 0 then Number_toString (- n) ++ lit "d overdue"
            else Number_toString n ++ lit "d left"))
  /\ (forall s st now,
        truthy s = true -> Date_new parse_other s = None ->
        st <> APPROVED -> st <> CLOSED ->
        getUrgencyColor parse_other (Some s) st now = lit "text-green-600"
        /\ deadlineCell (getDaysRemaining parse_other (Some s) now) = lit "NaNd left").
Proof.
  split; [|split].
  - intros deadline st now [H|[->| ->]]; unfold getUrgencyColor.
    + by rewrite H.
    + by destruct (truthy_opt deadline).
    + by destruct (truthy_opt deadline).
  - intros s y m d st now H Ha Hc n.
    assert (Hi : includes [APPROVED; CLOSED] st = false) by (by destruct st).
    unfold getUrgencyColor, getDaysRemaining. rewrite Hi. cbn [truthy_opt default].
    rewrite (isoDateOnly_nonempty _ _ H). cbn [negb orb].
    rewrite (daysFromNow_calendar _ _ _ _ _ _ H). fold n. cbn [lt le deadlineCell].
    split; [reflexivity|].
    destruct (n <? 0) eqn:E; [|reflexivity].
    apply Z.ltb_lt in E. cbn [fmap option_fmap option_map numberString].
    by rewrite Z.abs_neq by lia.
  - intros s st now Hs Hd Ha Hc.
    assert (Hi : includes [APPROVED; CLOSED] st = false) by (by destruct st).
    unfold getUrgencyColor, getDaysRemaining, daysFromNow. rewrite Hi.
    change (default [] (Some s)) with s. cbn [truthy_opt]. rewrite Hs, Hd. done.
Qed.

(** The theorem for the deadline 2025-03-01: a day late, on the day itself,
    closed, and for a deadline that is no date. *)
Lemma urgency_color_by_calendar_days_witness :
  getUrgencyColor (fun _ => None) (Some (lit "2025-03-01")) IN_PROGRESS
    (days_from_civil 2025 3 2 * msPerDay) = lit "text-red-600 font-bold"
  /\ getUrgencyColor (fun _ => None) (Some (lit "2025-03-01")) IN_PROGRESS
       (days_from_civil 2025 3 1 * msPerDay + 23 * 3600000)
     = lit "text-orange-600 font-semibold"
  /\ getUrgencyColor (fun _ => None) (Some (lit "2025-03-01")) CLOSED
       (days_from_civil 2025 3 2 * msPerDay) = lit "text-gray-400"
  /\ getUrgencyColor (fun _ => None) (Some (lit "soon")) NEW 0 = lit "text-green-600".
Proof.
  destruct (urgency_color_by_calendar_days (fun _ => None)) as (H1 & H2 & H3).
  split; [|split; [|split]].
  - destruct (H2 (lit "2025-03-01") 2025 3 1 IN_PROGRESS
                (days_from_civil 2025 3 2 * msPerDay) eq_refl) as [E _]; try discriminate.
    rewrite E. reflexivity.
  - destruct (H2 (lit "2025-03-01") 2025 3 1 IN_PROGRESS
                (days_from_civil 2025 3 1 * msPerDay + 23 * 3600000) eq_refl) as [E _];
      try discriminate.
    rewrite E. reflexivity.
  - apply H1. auto.
  - apply H3; try discriminate; reflexivity.
Defined.

End StatusDisplayFacts.

(** ** The ledger across flushes *)

Module LedgerRunsFacts.

Import Ledger LedgerSpec LedgerRuns LedgerFacts.

(** *** The lifecycle calls as flushes *)

Lemma upsertStep_addLog n st msg now lv a b d t lg :
  steps (upsertStep n st msg now (addLog lv a b d t lg))
  = steps (upsertStep n st msg now lg).
Proof. reflexivity. Qed.

(** [stepStart] and [stepFail] flush the logger's steps with the named step
    upserted; so does [stepComplete], as failed when the verification did
    not pass, as completed and with the extras otherwise. *)
Lemma stepStart_as_flush n msg ck lg db :
  exists lg',
    stepStart n msg ck lg db = flush None lg' db
    /\ violationId lg' = violationId lg
    /\ steps lg' = steps (upsertStep n running (Some msg) (t_step ck) lg)
    /\ extras lg' = extras lg
    /\ logs lg' = logs lg ++ [mkLog (t_log1 ck) info n (lit "STARTED: " ++ msg) None].
Proof. eexists. split; [reflexivity|]. done. Qed.

Lemma stepFail_as_flush n msg d ck lg db :
  exists lg',
    stepFail n msg d ck lg db = flush (Some (lit "failed")) lg' db
    /\ violationId lg' = violationId lg
    /\ steps lg' = steps (upsertStep n failed (Some msg) (t_step ck) lg)
    /\ extras lg' = extras lg
    /\ logs lg' = logs lg ++ [mkLog (t_log2 ck) error_level n (lit "FAILED: " ++ msg) d].
Proof. eexists. split; [reflexivity|]. done. Qed.

Lemma stepComplete_as_flush n msg v e ck lg db :
  exists lg',
    violationId lg' = violationId lg
    /\ ((from_option passed true v = false
         /\ stepComplete n msg v e ck lg db = flush (Some (lit "failed")) lg' db
         /\ (exists msg', steps lg'
               = steps (upsertStep n failed (Some msg') (t_step ck) lg))
         /\ extras lg' = extras lg)
        \/ (from_option passed true v = true
            /\ stepComplete n msg v e ck lg db = flush None lg' db
            /\ steps lg' = steps (upsertStep n completed (Some msg) (t_step ck) lg)
            /\ extras lg' = from_option (fun e0 => e0 ∪ extras lg) (extras lg) e)).
Proof.
  unfold stepComplete. destruct v as [v|]; simpl.
  - destruct (passed v); simpl.
    + eexists. split; [|right; split; [done|]; split; [reflexivity|]].
      * destruct e; simpl; by destruct (0 <? length _)%nat.
      * split; destruct e; simpl; by destruct (0 <? length _)%nat.
    + eexists. split; [|left; split; [done|]; split; [reflexivity|]].
      * simpl. by destruct (0 <? length _)%nat.
      * split; [eexists|]; simpl; by destruct (0 <? length _)%nat.
  - eexists. split; [|right; split; [done|]; split; [reflexivity|]].
    + by destruct e.
    + split; by destruct e.
Qed.

(** *** The log *)

Lemma persistedLogs_flush ps lg db :
  is_Some (db !! violationId lg) ->
  persistedLogs (flush ps lg db).2 (violationId lg)
  = persistedLogs db (violationId lg) ++ logs lg.
Proof.
  intros [row H]. unfold persistedLogs. rewrite (flush_row _ _ _ _ H), H. reflexivity.
Qed.

Lemma flush_keeps_row ps lg db :
  is_Some (db !! violationId lg) -> is_Some ((flush ps lg db).2 !! violationId lg).
Proof. intros [row H]. rewrite (flush_row _ _ _ _ H). eauto. Qed.

(** X5. On an existing row, a flush appends the buffered log entries to the
    persisted log and empties the buffer, so that a second flush adds
    nothing; and [stepStart] persists the buffered entries followed by its
    STARTED entry. *)
Theorem buffered_logs_are_persisted_once ps ps' lg db :
  is_Some (db !! violationId lg) ->
  let vid := violationId lg in
  let once := flush ps lg db in
  let twice := flush ps' once.1 once.2 in
  persistedLogs once.2 vid = persistedLogs db vid ++ logs lg
  /\ logs once.1 = []
  /\ persistedLogs twice.2 vid = persistedLogs once.2 vid
  /\ (forall n msg ck,
        persistedLogs (stepStart n msg ck lg db).2 vid
        = persistedLogs db vid ++ logs lg
          ++ [mkLog (t_log1 ck) info n (lit "STARTED: " ++ msg) None]).
Proof.
  intros Hrow vid once twice.
  split; [by apply persistedLogs_flush|]. split; [reflexivity|]. split.
  - subst twice.
    transitivity (persistedLogs once.2 vid ++ []); [|apply app_nil_r].
    exact (persistedLogs_flush ps' once.1 once.2 (flush_keeps_row ps lg db Hrow)).
  - intros n msg ck.
    destruct (stepStart_as_flush n msg ck lg db) as (lg' & -> & Hid & _ & _ & Hl).
    subst vid. rewrite <- Hid in *. rewrite (persistedLogs_flush None lg' db Hrow).
    by rewrite Hl.
Qed.

(** The theorem on the first [stepStart] of a run and on a flush after it. *)
Lemma buffered_logs_are_persisted_once_witness :
  is_Some (Runs.db0 !! Runs.vid)
  /\ persistedLogs Runs.started.2 Runs.vid
     = [mkLog Runs.T1 info (lit "ai_parse") (lit "STARTED: Downloading PDF") None]
  /\ persistedLogs (flush None Runs.started.1 Runs.started.2).2 Runs.vid
     = persistedLogs Runs.started.2 Runs.vid.
Proof.
  assert (H : is_Some (Runs.db0 !! violationId (new_logger Runs.vid)))
    by (vm_compute; eauto).
  split; [exact H|].
  destruct (buffered_logs_are_persisted_once None None (new_logger Runs.vid) Runs.db0 H)
    as (_ & _ & _ & H4).
  split; [exact (H4 (lit "ai_parse") (lit "Downloading PDF") (Runs.at_time Runs.T1))|].
  assert (H' : is_Some (Runs.started.2 !! violationId Runs.started.1))
    by (vm_compute; eauto).
  destruct (buffered_logs_are_persisted_once None None Runs.started.1 Runs.started.2 H')
    as (H1 & _ & _ & _).
  etransitivity; [exact H1 | apply app_nil_r].
Defined.

(** *** What a merge keeps and what it holds *)

Lemma mergeStep_keeps_other l s x :
  x ∈ l -> step x <> step s -> x ∈ mergeStep l s.
Proof.
  induction l as [|m l IH]; intros Hin Hne; [by apply elem_of_nil in Hin|].
  rewrite mergeStep_cons. apply elem_of_cons in Hin as [->|Hin].
  - rewrite (proj2 (streq_false _ _) Hne). left.
  - destruct (streq (step m) (step s)); right; [done | by apply IH].
Qed.

Lemma mergeSteps_keeps_other ss : forall l x,
  x ∈ l -> step x ∉ step <$> ss -> x ∈ mergeSteps l ss.
Proof.
  induction ss as [|s ss IH]; intros l x Hin Hni; [done|].
  rewrite mergeSteps_cons_r. rewrite fmap_cons in Hni.
  apply not_elem_of_cons in Hni as [Hne Hni].
  apply IH; [|done]. by apply mergeStep_keeps_other.
Qed.

Lemma elem_of_mergeStep l s x : x ∈ mergeStep l s -> x ∈ l \/ x = s.
Proof.
  induction l as [|m l IH].
  - rewrite mergeStep_nil. intros ->%list_elem_of_singleton. by right.
  - rewrite mergeStep_cons. destruct (streq (step m) (step s)).
    + intros [->|H]%elem_of_cons; [by right | left; by right].
    + intros [->|H]%elem_of_cons; [left; left|].
      destruct (IH H) as [?|?]; [left; by right | by right].
Qed.

Lemma elem_of_mergeSteps ss : forall l x,
  x ∈ mergeSteps l ss -> x ∈ l \/ x ∈ ss.
Proof.
  induction ss as [|s ss IH]; intros l x H; [by left|].
  rewrite mergeSteps_cons_r in H. destruct (IH _ _ H) as [H1|H1].
  - destruct (elem_of_mergeStep _ _ _ H1) as [?| ->]; [by left | right; left].
  - right. by right.
Qed.

Lemma mergeSteps_same_names ss : forall l,
  Forall (fun s => step s ∈ step <$> l) ss ->
  step <$> mergeSteps l ss = step <$> l.
Proof.
  induction ss as [|s ss IH]; intros l H; [done|].
  apply Forall_cons in H as [H1 H2].
  rewrite mergeSteps_cons_r.
  assert (E : step <$> mergeStep l s = step <$> l).
  { rewrite mergeStep_names. by rewrite bool_decide_eq_true_2. }
  rewrite IH; [exact E|]. by rewrite E.
Qed.

Lemma elem_of_upsertStep n st msg now lg x :
  x ∈ steps (upsertStep n st msg now lg) ->
  x ∈ steps lg \/ (step x = n /\ status x = st).
Proof.
  destruct lg as [vi lgs l ex]. simpl steps at 2.
  induction l as [|m l IH].
  - rewrite upsertStep_steps_nil. intros ->%list_elem_of_singleton. by right.
  - rewrite upsertStep_steps_cons. destruct (streq (step m) n).
    + intros [->|H]%elem_of_cons.
      * right. by rewrite step_preserveStarted, status_preserveStarted.
      * left. by right.
    + intros [->|H]%elem_of_cons; [left; left|].
      destruct (IH H) as [?|?]; [left; by right | by right].
Qed.

Lemma upsertStep_other_names n st msg now lg m :
  m <> n -> m ∉ step <$> steps lg ->
  m ∉ step <$> steps (upsertStep n st msg now lg).
Proof.
  intros Hne Hni. rewrite upsertStep_names. case_bool_decide; [done|].
  rewrite elem_of_app, list_elem_of_singleton. tauto.
Qed.

Lemma lit_failed_completed : lit "failed" <> lit "completed".
Proof. vm_compute. discriminate. Qed.

Lemma lit_processing_completed : lit "processing" <> lit "completed".
Proof. vm_compute. discriminate. Qed.

Lemma persistedStatus_flush ps lg db row :
  db !! violationId lg = Some row ->
  persistedStatus (flush ps lg db).2 (violationId lg)
  = Some (from_option id (parse_status row)
            (if truthy_opt ps then ps
             else deriveParseStatus
                    (mergeSteps (persistedSteps db (violationId lg)) (steps lg)))).
Proof.
  intros H. unfold persistedStatus. by rewrite (flush_row _ _ _ _ H).
Qed.

(** *** A failure stays *)

Lemma flush_with_failed_step ps lg db s :
  is_Some (db !! violationId lg) ->
  s ∈ persistedSteps db (violationId lg) -> status s = failed ->
  step s ∉ step <$> steps lg ->
  ps = None \/ ps = Some (lit "failed") ->
  persistedStatus (flush ps lg db).2 (violationId lg) = Some (lit "failed").
Proof.
  intros [row Hrow] Hin Hst Hni Hps.
  rewrite (persistedStatus_flush _ _ _ _ Hrow).
  destruct Hps as [-> | ->]; [|reflexivity]. simpl.
  rewrite deriveParseStatus_failed; [reflexivity|].
  exists s. split; [|exact Hst]. by apply mergeSteps_keeps_other.
Qed.

(** X6. Once a step is persisted as failed, a flush with no forced status,
    a [stepStart] and a [stepComplete] of another step, by a logger that
    does not hold the failed step, all leave the workflow status failed. *)
Theorem failed_step_keeps_the_run_failed lg db s :
  is_Some (db !! violationId lg) ->
  s ∈ persistedSteps db (violationId lg) -> status s = failed ->
  step s ∉ step <$> steps lg ->
  persistedStatus (flush None lg db).2 (violationId lg) = Some (lit "failed")
  /\ (forall n msg ck, n <> step s ->
        persistedStatus (stepStart n msg ck lg db).2 (violationId lg)
        = Some (lit "failed"))
  /\ (forall n msg v e ck, n <> step s ->
        persistedStatus (stepComplete n msg v e ck lg db).2 (violationId lg)
        = Some (lit "failed")).
Proof.
  intros Hrow Hin Hst Hni.
  split; [|split].
  - apply (flush_with_failed_step None lg db s); auto.
  - intros n msg ck Hne.
    destruct (stepStart_as_flush n msg ck lg db) as (lg' & -> & Hid & Hs & _).
    rewrite <- Hid in *. apply (flush_with_failed_step None lg' db s); auto.
    rewrite Hs. by apply upsertStep_other_names.
  - intros n msg v e ck Hne.
    destruct (stepComplete_as_flush n msg v e ck lg db)
      as (lg' & Hid & [(_ & -> & [msg' Hs] & _)|(_ & -> & Hs & _)]);
      rewrite <- Hid in *.
    + apply (flush_with_failed_step _ lg' db s); auto.
      rewrite Hs. by apply upsertStep_other_names.
    + apply (flush_with_failed_step _ lg' db s); auto.
      rewrite Hs. by apply upsertStep_other_names.
Qed.

(** The theorem after a failed [ai_parse]: a new logger starts
    [insert_records] and the run stays failed. *)
Lemma failed_step_keeps_the_run_failed_witness :
  persistedStatus
    (stepStart (lit "insert_records") (lit "Saving parsed data to database")
       (Runs.at_time Runs.T2) (new_logger Runs.vid) Runs.failed_by_new_logger.2).2 Runs.vid
  = Some (lit "failed").
Proof.
  assert (H : match persistedSteps Runs.failed_by_new_logger.2 Runs.vid with
              | s :: _ => status s = failed /\ step s = lit "ai_parse"
              | [] => False
              end) by (vm_compute; split; reflexivity).
  destruct (persistedSteps Runs.failed_by_new_logger.2 Runs.vid) as [|s l] eqn:E;
    [destruct H|]. destruct H as [Hst Hn].
  assert (Hin : s ∈ persistedSteps Runs.failed_by_new_logger.2
                      (violationId (new_logger Runs.vid)))
    by (change (violationId (new_logger Runs.vid)) with Runs.vid; rewrite E; left).
  assert (Hrow : is_Some (Runs.failed_by_new_logger.2 !! violationId (new_logger Runs.vid)))
    by (vm_compute; eauto).
  assert (Hni : step s ∉ step <$> steps (new_logger Runs.vid)) by apply not_elem_of_nil.
  apply (proj1 (proj2 (failed_step_keeps_the_run_failed (new_logger Runs.vid)
                         Runs.failed_by_new_logger.2 s Hrow Hin Hst Hni))).
  rewrite Hn. intros Heq. vm_compute in Heq. discriminate.
Defined.

End LedgerRunsFacts.

(** ** The ledger across the calls of a run *)

Module LedgerRunsFacts2.

Import Ledger LedgerSpec LedgerRuns LedgerFacts LedgerRunsFacts.

Lemma lookupStep_Some n l x : lookupStep n l = Some x -> x ∈ l /\ step x = n.
Proof.
  induction l as [|m l IH]; [discriminate|].
  rewrite lookupStep_cons. destruct (streq (step m) n) eqn:E.
  - intros [= <-]. apply streq_true in E. split; [left | done].
  - intros H. destruct (IH H). split; [by right | done].
Qed.

Lemma persistedFields_flush ps lg db :
  is_Some (db !! violationId lg) ->
  persistedFields (flush ps lg db).2 (violationId lg)
  = extras lg ∪ persistedFields db (violationId lg).
Proof.
  intros [row H]. unfold persistedFields. rewrite (flush_row _ _ _ _ H), H. reflexivity.
Qed.

(** After a flush, the entry of a step that was just upserted in memory. *)
Lemma flush_upserted_entry ps lg' lg db n st msg now :
  is_Some (db !! violationId lg') -> NoDup (step <$> steps lg) ->
  steps lg' = steps (upsertStep n st msg now lg) ->
  exists s, lookupStep n (persistedSteps (flush ps lg' db).2 (violationId lg')) = Some s
            /\ status s = st /\ message s = msg
            /\ completed_at s = match st with completed | failed => Some now | _ => None end.
Proof.
  intros Hrow Hnd Hs.
  pose proof (lookupStep_upsertStep n st msg now lg) as Hl.
  destruct (lookupStep_Some _ _ _ Hl) as [Hin Hn].
  eexists. split.
  - rewrite <- Hn at 1. apply flush_entry_is_memory_step; [done | |by rewrite Hs].
    rewrite Hs. by apply upsertStep_NoDup.
  - rewrite status_preserveStarted. unfold preserveStarted.
    by destruct (_ && _).
Qed.

(** X7. [stepComplete] with a verification, on an existing row. When the
    verification did not pass, the step is persisted as failed with a
    completion time, the workflow status is failed, and the extras of the
    call are dropped: the logger keeps the extras it had and the persisted
    fields are those merged with the logger's. When it passed, the step is
    persisted as completed with the message of the call, and the persisted
    fields are the call's extras over the logger's over the persisted ones. *)
Theorem verification_decides_how_the_step_ends n msg v e ck lg db :
  is_Some (db !! violationId lg) -> NoDup (step <$> steps lg) ->
  let vid := violationId lg in
  let r := stepComplete n msg (Some v) e ck lg db in
  (passed v = false ->
     persistedStatus r.2 vid = Some (lit "failed")
     /\ (exists s, lookupStep n (persistedSteps r.2 vid) = Some s
                   /\ status s = failed /\ completed_at s = Some (t_step ck))
     /\ extras r.1 = extras lg
     /\ persistedFields r.2 vid = extras lg ∪ persistedFields db vid)
  /\ (passed v = true ->
      (exists s, lookupStep n (persistedSteps r.2 vid) = Some s
                 /\ status s = completed /\ message s = Some msg)
      /\ persistedFields r.2 vid
         = from_option (fun e0 => e0 ∪ extras lg) (extras lg) e ∪ persistedFields db vid).
Proof.
  intros Hrow Hnd vid r. subst r vid.
  destruct (stepComplete_as_flush n msg (Some v) e ck lg db)
    as (lg' & Hid & [(Hp & -> & [msg' Hs] & He)|(Hp & -> & Hs & He)]);
    simpl in Hp; rewrite <- Hid in *; (split; intros Hp'; [|]); try congruence.
  - destruct Hrow as [row Hrow]. split; [|split; [|split]].
    + by rewrite (persistedStatus_flush _ _ _ _ Hrow).
    + destruct (flush_upserted_entry (Some (lit "failed")) lg' lg db n failed
                  (Some msg') (t_step ck)) as (s & H1 & H2 & _ & H4); eauto.
    + exact He.
    + rewrite persistedFields_flush by eauto. by rewrite He.
  - split.
    + destruct (flush_upserted_entry None lg' lg db n completed
                  (Some msg) (t_step ck)) as (s & H1 & H2 & H3 & _); eauto.
    + rewrite persistedFields_flush by eauto. by rewrite He.
Qed.

(** The theorem on [ai_parse] completed with a failed check: the run is
    failed. *)
Lemma verification_decides_how_the_step_ends_witness :
  is_Some (Runs.started.2 !! violationId Runs.started.1)
  /\ NoDup (step <$> steps Runs.started.1)
  /\ persistedStatus
       (stepComplete (lit "ai_parse") (lit "Extracted 0 violation items")
          (Some (mkVerification false [mkCheck (lit "work_orders found") false None]))
          (Some {[ "items_found" := JNum 0 ]}) (Runs.at_time Runs.T2)
          Runs.started.1 Runs.started.2).2 Runs.vid
     = Some (lit "failed").
Proof.
  assert (H1 : is_Some (Runs.started.2 !! violationId Runs.started.1))
    by (vm_compute; eauto).
  assert (H2 : NoDup (step <$> steps Runs.started.1))
    by (vm_compute; apply NoDup_singleton).
  split; [exact H1|]. split; [exact H2|].
  destruct (verification_decides_how_the_step_ends (lit "ai_parse")
              (lit "Extracted 0 violation items")
              (mkVerification false [mkCheck (lit "work_orders found") false None])
              (Some {[ "items_found" := JNum 0 ]}) (Runs.at_time Runs.T2)
              Runs.started.1 Runs.started.2 H1 H2) as [Hf _].
  exact (proj1 (Hf eq_refl)).
Defined.

(** *** The five steps of a run *)

Lemma upsertStep_ok n st msg now lg :
  n ∈ knownSteps -> st <> pending ->
  Forall (fun s => step s ∈ knownSteps /\ status s <> pending) (steps lg) ->
  Forall (fun s => step s ∈ knownSteps /\ status s <> pending)
    (steps (upsertStep n st msg now lg)).
Proof.
  intros Hn Hst H. apply Forall_forall. intros x Hx.
  apply elem_of_upsertStep in Hx as [Hx|[-> ->]]; [|done].
  rewrite Forall_forall in H. by apply H.
Qed.

Lemma deriveParseStatus_completed_inv l :
  deriveParseStatus l = Some (lit "completed") -> forall s, s ∈ l -> status s = completed.
Proof.
  unfold deriveParseStatus. destruct (existsb _ l).
  { intros H. apply (inj Some) in H. by apply lit_failed_completed in H. }
  destruct (_ && _) eqn:E.
  - intros _. apply andb_true_iff in E as [_ E]. by apply forallb_has_status.
  - destruct (existsb _ l); [|discriminate].
    intros H. apply (inj Some) in H. by apply lit_processing_completed in H.
Qed.

Lemma deriveParseStatus_None_inv l s :
  deriveParseStatus l = None -> s ∈ l -> status s = pending \/ status s = completed.
Proof.
  unfold deriveParseStatus.
  destruct (existsb (has_status failed) l) eqn:E1; [discriminate|].
  destruct (_ && _); [discriminate|].
  destruct (existsb (has_status running) l) eqn:E2; [discriminate|].
  intros _ Hin.
  destruct (status s) eqn:Es; auto; exfalso.
  - assert (existsb (has_status running) l = true); [|congruence].
    apply existsb_has_status. by exists s.
  - assert (existsb (has_status failed) l = true); [|congruence].
    apply existsb_has_status. by exists s.
Qed.

Lemma flush_ok vid ps lg' lg db :
  ledger_ok vid (lg, db) -> violationId lg' = vid ->
  Forall (fun s => step s ∈ knownSteps /\ status s <> pending) (steps lg') ->
  ps = None \/ ps = Some (lit "failed") ->
  ledger_ok vid (flush ps lg' db).
Proof.
  intros (Hid & (row & Hrow & Hnames & Hdone) & Hmem) Hid' Hmem' Hps.
  simpl in Hid, Hrow, Hnames, Hdone. subst vid.
  assert (Hrow' : db !! violationId lg' = Some row) by (by rewrite Hid').
  split; [exact Hid'|]. split; [|exact Hmem'].
  pose proof (flush_row ps lg' db row Hrow') as Hf. cbn zeta in Hf.
  rewrite Hid' in Hf. eexists. split; [exact Hf|].
  assert (Hm : persistedSteps (flush ps lg' db).2 (violationId lg)
               = mergeSteps (persistedSteps db (violationId lg)) (steps lg')).
  { rewrite <- Hid'. apply persistedSteps_flush. eauto. }
  cbn [fst snd]. rewrite Hm. split.
  - rewrite mergeSteps_same_names; [exact Hnames|].
    rewrite Hnames. eapply Forall_impl; [exact Hmem'|]. by intros s [? _].
  - cbn [parse_status]. destruct Hps as [-> | ->]; cbn [truthy_opt truthy].
    + destruct (deriveParseStatus _) as [x|] eqn:Ed; simpl.
      * intros ->. by apply deriveParseStatus_completed_inv.
      * intros Hc s Hs.
        destruct (deriveParseStatus_None_inv _ s Ed Hs) as [Hp|Hp]; [|exact Hp].
        apply elem_of_mergeSteps in Hs as [Hs|Hs]; [by apply Hdone|].
        rewrite Forall_forall in Hmem'. by destruct (Hmem' s Hs).
    + intros H. by apply lit_failed_completed in H.
Qed.

Lemma call_ok vid st c :
  ledger_ok vid st -> (forall n, stepOf c = Some n -> n ∈ knownSteps) ->
  ledger_ok vid (call st c).
Proof.
  intros Hok Hn. destruct st as [lg db].
  pose proof Hok as (Hid & (row & Hrow & Hnames & Hdone) & Hmem).
  simpl in Hid, Hrow, Hnames, Hdone, Hmem.
  destruct c as [|n msg ck|n msg v e ck|n msg d ck|lv n msg d now| |]; simpl call.
  - split; [exact Hid|]. split; [by exists row | apply Forall_nil_2].
  - destruct (stepStart_as_flush n msg ck lg db) as (lg' & -> & Hid' & Hs & _).
    apply (flush_ok vid None lg' lg db Hok); [congruence| |by left].
    rewrite Hs. apply upsertStep_ok; [by apply Hn | done | exact Hmem].
  - destruct (stepComplete_as_flush n msg v e ck lg db)
      as (lg' & Hid' & [(_ & -> & [msg' Hs] & _)|(_ & -> & Hs & _)]).
    + apply (flush_ok vid _ lg' lg db Hok); [congruence| |by right].
      rewrite Hs. apply upsertStep_ok; [by apply Hn | done | exact Hmem].
    + apply (flush_ok vid _ lg' lg db Hok); [congruence| |by left].
      rewrite Hs. apply upsertStep_ok; [by apply Hn | done | exact Hmem].
  - destruct (stepFail_as_flush n msg d ck lg db) as (lg' & -> & Hid' & Hs & _).
    apply (flush_ok vid _ lg' lg db Hok); [congruence| |by right].
    rewrite Hs. apply upsertStep_ok; [by apply Hn | done | exact Hmem].
  - split; [exact Hid|]. split; [by exists row | exact Hmem].
  - split; [exact Hid|]. split; [|exact Hmem]. simpl. rewrite Hid.
    exists (markParsing row). split; [by rewrite lookup_alter_eq, Hrow|].
    unfold persistedSteps. rewrite lookup_alter_eq, Hrow. simpl.
    unfold persistedSteps in Hnames. rewrite Hrow in Hnames. split; [exact Hnames|].
    intros H. by apply lit_processing_completed in H.
  - split; [exact Hid|]. split; [|exact Hmem]. simpl. rewrite Hid.
    exists (markParsed row). split; [by rewrite lookup_alter_eq, Hrow|].
    unfold persistedSteps. rewrite lookup_alter_eq, Hrow. simpl.
    unfold persistedSteps in Hnames, Hdone. rewrite Hrow in Hnames, Hdone.
    split; [exact Hnames | exact Hdone].
Qed.

Lemma run_ok vid cs : forall st,
  ledger_ok vid st -> Forall (fun c => forall n, stepOf c = Some n -> n ∈ knownSteps) cs ->
  ledger_ok vid (run cs st).
Proof.
  induction cs as [|c cs IH]; intros st Hok Hcs; [exact Hok|].
  apply Forall_cons in Hcs as [Hc Hcs]. simpl. apply IH; [|exact Hcs].
  by apply call_ok.
Qed.

(** X10. From the row the parse route inserts, whatever lifecycle calls,
    log calls, new invocations and status updates the workflow makes on the
    five known step names, the persisted steps stay the five known steps in
    their order, and the workflow status is completed only when each of the
    five is completed. *)
Theorem route_row_keeps_the_five_steps vid db cs :
  db !! vid = Some ParseRoute.initialRow ->
  Forall (fun c => forall n, stepOf c = Some n -> n ∈ knownSteps) cs ->
  let after := (run cs (new_logger vid, db)).2 in
  step <$> persistedSteps after vid = knownSteps
  /\ (persistedStatus after vid = Some (lit "completed") ->
      forall s, s ∈ persistedSteps after vid -> status s = completed)
  /\ (persistedStatus after vid = Some (lit "completed") ->
      allKnownCompleted (persistedSteps after vid)).
Proof.
  intros Hrow Hcs after.
  assert (Hok : ledger_ok vid (new_logger vid, db)).
  { split; [reflexivity|]. split; [|apply Forall_nil_2].
    exists ParseRoute.initialRow. split; [exact Hrow|].
    unfold persistedSteps. simpl. rewrite Hrow. split; [reflexivity|].
    intros H. vm_compute in H. discriminate. }
  destruct (run_ok vid cs _ Hok Hcs) as (_ & (row & Hr & Hnames & Hdone) & _).
  fold after in Hr, Hnames, Hdone.
  assert (Hd : persistedStatus after vid = Some (lit "completed") ->
               forall s, s ∈ persistedSteps after vid -> status s = completed).
  { unfold persistedStatus. rewrite Hr. simpl. intros [= H]. by apply Hdone. }
  split; [exact Hnames|]. split; [exact Hd|].
  intros Hc n Hn. rewrite <- Hnames in Hn.
  apply list_elem_of_fmap in Hn as (s & -> & Hs).
  exists s. split; [exact Hs|]. split; [reflexivity | by apply Hd].
Qed.

Import PipelineRuns.

(** The theorem on the start of a run: init, then [ai_parse] started and
    completed. *)
Lemma route_row_keeps_the_five_steps_witness :
  let cs := [MarkParsing; NewInvocation;
             Start (lit "ai_parse") (lit "Downloading PDF") (Runs.at_time Runs.T1);
             Complete (lit "ai_parse") (lit "Extracted 1 violation items") None None
               (Runs.at_time Runs.T2)] in
  step <$> persistedSteps (run cs (new_logger (lit "v1"), routed)).2 (lit "v1") = knownSteps.
Proof.
  intros cs.
  apply (route_row_keeps_the_five_steps (lit "v1") routed cs); [reflexivity|].
  repeat (apply Forall_cons; split; [intros n Hn; simpl in Hn|]); try discriminate;
    try apply Forall_nil_2;
    injection Hn as <-; apply (bool_decide_unpack _); vm_compute; exact I.
Defined.

End LedgerRunsFacts2.

(** ** [timed] *)

Module TimedFacts.

Import Ledger Timed.

(** *** [split] and [join] *)

Lemma split_nonempty sep s : split sep s <> [].
Proof.
  destruct s as [|c s]; simpl; [done|].
  destruct (c =? sep)%N; [done|]. by destruct (split sep s).
Qed.

Lemma join_cons_cons sep x y l : join sep (x :: y :: l) = x ++ sep ++ join sep (y :: l).
Proof. reflexivity. Qed.

(** [s.split(sep).join(sep)] is [s]. *)
Lemma join_split sep s : join [sep] (split sep s) = s.
Proof.
  induction s as [|c s IH]; [reflexivity|].
  simpl split. destruct (c =? sep)%N eqn:E.
  - apply N.eqb_eq in E. subst c.
    pose proof (split_nonempty sep s) as Hne.
    destruct (split sep s) as [|p ps]; [done|].
    rewrite join_cons_cons, IH. reflexivity.
  - pose proof (split_nonempty sep s) as Hne.
    destruct (split sep s) as [|p ps]; [done|].
    destruct ps as [|q ps].
    + simpl in *. by rewrite IH.
    + rewrite join_cons_cons, <- IH, join_cons_cons. reflexivity.
Qed.

Lemma split_no_sep sep s p : p ∈ split sep s -> sep ∉ p.
Proof.
  revert p. induction s as [|c s IH]; intros p.
  - simpl. intros ->%list_elem_of_singleton. apply not_elem_of_nil.
  - simpl. destruct (c =? sep)%N eqn:E.
    + intros [->|H]%elem_of_cons; [apply not_elem_of_nil | by apply IH].
    + apply N.eqb_neq in E.
      pose proof (split_nonempty sep s) as Hne.
      destruct (split sep s) as [|q qs]; [done|].
      intros [->|H]%elem_of_cons.
      * intros [?|?]%elem_of_cons; [congruence|].
        eapply IH; [left | done].
      * apply IH. by right.
Qed.

Lemma count_app c a b : count c (a ++ b) = (count c a + count c b)%nat.
Proof. unfold count. by rewrite filter_app, length_app. Qed.

Lemma count_none c s : c ∉ s -> count c s = 0%nat.
Proof.
  unfold count. intros H. induction s as [|x s IH]; [reflexivity|].
  apply not_elem_of_cons in H as [H1 H2].
  rewrite filter_cons_False by congruence. by apply IH.
Qed.

Lemma count_join sep ps :
  Forall (fun p => sep ∉ p) ps -> count sep (join [sep] ps) = pred (length ps).
Proof.
  induction ps as [|p ps IH]; [reflexivity|].
  intros [Hp Hps]%Forall_cons. destruct ps as [|q ps].
  - simpl. by apply count_none.
  - rewrite join_cons_cons, !count_app, (count_none _ _ Hp), IH by done.
    unfold count. rewrite filter_cons_True by done. simpl. lia.
Qed.

Lemma join_take_prefix sep n ps :
  exists rest, join [sep] ps = join [sep] (take n ps) ++ rest.
Proof.
  revert n. induction ps as [|p ps IH]; intros n.
  - exists []. by destruct n.
  - destruct n as [|n]; [by eexists|].
    destruct ps as [|q ps].
    + exists []. simpl. destruct n; simpl; by rewrite app_nil_r.
    + destruct (IH n) as [rest Hr].
      destruct n as [|n].
      * simpl take. rewrite join_cons_cons. eexists. simpl. reflexivity.
      * simpl take. simpl take in Hr. rewrite !join_cons_cons, Hr.
        exists rest. by rewrite <- !app_assoc.
Qed.

(** The first five lines of a stack. *)
Lemma stackHead_spec st :
  exists head rest,
    stackHead (Some st) = Some head /\ st = head ++ rest
    /\ (count 10 head <= 4)%nat
    /\ ((count 10 st <= 4)%nat -> head = st).
Proof.
  unfold stackHead. simpl.
  destruct (join_take_prefix 10 5 (split 10 st)) as [rest Hr].
  rewrite join_split in Hr.
  eexists _, rest. split; [reflexivity|]. split; [exact Hr|].
  assert (Hall : Forall (fun p => (10%N) ∉ p) (split 10 st)).
  { apply Forall_forall. intros p Hp. by apply split_no_sep in Hp. }
  split.
  - rewrite count_join by (by apply Forall_take). rewrite length_take. lia.
  - intros Hc. rewrite <- (join_split 10 st) in Hc at 1.
    rewrite count_join in Hc by done.
    rewrite take_ge by lia. apply join_split.
Qed.

(** X8. [timed] hands on the outcome of the function it runs, a rejection
    included, and touches only the log buffer, to which it adds two
    entries: a debug entry and then an info entry, or an error entry on a
    rejection, that carries the duration. For a rejection with an [Error]
    that has a stack, the error entry carries a prefix of the stack with at
    most four line breaks, the whole stack when it has no more than that. *)
Theorem timed_hands_the_outcome_on T n label ck (fn : Outcome T) lg :
  let r := timed n label ck fn lg in
  r.1 = fn
  /\ violationId r.2 = violationId lg /\ steps r.2 = steps lg /\ extras r.2 = extras lg
  /\ (exists last,
        logs r.2 = logs lg ++ [mkLog (t_debug ck) debug n (lit "Starting: " ++ label) None; last]
        /\ level last = match fn with Resolved _ => info | Rejected _ => error_level end
        /\ (data last ≫= (fun d => d !! "duration_ms")) = Some (JNum (finish ck - start ck))
        /\ forall m st, fn = Rejected (ErrorObject m (Some st)) ->
             exists head rest,
               (data last ≫= (fun d => d !! "error_stack")) = Some (JStr head)
               /\ st = head ++ rest
               /\ (count 10 head <= 4)%nat
               /\ ((count 10 st <= 4)%nat -> head = st)).
Proof.
  intros r. subst r. destruct fn as [result|err]; unfold timed; cbn [fst snd].
  - repeat split. eexists. split; [cbn [logs addLog]; by rewrite <- app_assoc|].
    split; [reflexivity|]. split; [apply lookup_singleton_eq|]. intros; discriminate.
  - repeat split. eexists. split; [cbn [logs addLog]; by rewrite <- app_assoc|].
    split; [reflexivity|]. split; [apply lookup_insert_eq|].
    intros m st [= ->]. cbn [data mbind option_bind errorStack].
    destruct (stackHead_spec st) as (head & rest & H1 & H2 & H3 & H4).
    exists head, rest. split; [|done].
    rewrite H1. cbn [from_option]. rewrite lookup_insert_ne by done.
    rewrite lookup_insert_ne by done. apply lookup_singleton_eq.
Qed.

End TimedFacts.

(** ** The parse route *)

Module ParseRouteFacts.

Import Ledger LedgerSpec ParseRoute JsDate.

(** X9. What the parse route does when it returns. A row is inserted only
    for an authenticated caller whose profile has a manager role, under the
    organisation of that profile, with the storage path of the request
    body, which is truthy, source parser, status NEW and parse status
    pending, and the five steps of the workflow, each pending. An event is
    sent only after the insert answered with the id of the new row and no
    error, and carries that id and the row's organisation and path. The
    response is 200 exactly when the event was sent, and 401 for a caller
    who is not authenticated. *)
Theorem parse_route_inserts_for_managers_only req answer h :
  POST req answer = Returns h ->
  (forall row, inserted h = Some row ->
     authError req = false /\ is_Some (user req)
     /\ (exists p, profile req = Some p /\ managerRole (role p) = true
                   /\ nv_org_id row = org_id p)
     /\ get_field (body req) "pdfStoragePath" = Some (nv_pdf_storage_path row)
     /\ truthyJson (nv_pdf_storage_path row) = true
     /\ nv_source row = lit "parser"
     /\ nv_row row = initialRow)
  /\ (forall ev, sent h = Some ev ->
        exists row,
          inserted h = Some row /\ insertError answer = None
          /\ new_id answer = Some (ev_violationId ev)
          /\ ev_orgId ev = nv_org_id row
          /\ ev_pdfStoragePath ev = nv_pdf_storage_path row)
  /\ (http_status (response h) = 200 <-> is_Some (sent h))
  /\ (authError req = true \/ user req = None -> http_status (response h) = 401)
  /\ biz_status initialRow = StatusTransitions.NEW
  /\ parse_status initialRow = lit "pending"
  /\ step <$> from_option meta_steps [] (parse_metadata initialRow) = knownSteps
  /\ (forall s, s ∈ from_option meta_steps [] (parse_metadata initialRow) ->
        status s = pending).
Proof.
  intros H. unfold POST in H.
  cut ((forall row, inserted h = Some row ->
          authError req = false /\ is_Some (user req)
          /\ (exists p, profile req = Some p /\ managerRole (role p) = true
                        /\ nv_org_id row = org_id p)
          /\ get_field (body req) "pdfStoragePath" = Some (nv_pdf_storage_path row)
          /\ truthyJson (nv_pdf_storage_path row) = true
          /\ nv_source row = lit "parser"
          /\ nv_row row = initialRow)
       /\ (forall ev, sent h = Some ev ->
             exists row,
               inserted h = Some row /\ insertError answer = None
               /\ new_id answer = Some (ev_violationId ev)
               /\ ev_orgId ev = nv_org_id row
               /\ ev_pdfStoragePath ev = nv_pdf_storage_path row)
       /\ (http_status (response h) = 200 <-> is_Some (sent h))
       /\ (authError req = true \/ user req = None -> http_status (response h) = 401)).
  { intros (A & B & C & D). split; [exact A|]. split; [exact B|]. split; [exact C|].
    split; [exact D|]. split; [reflexivity|]. split; [reflexivity|].
    split; [reflexivity|]. simpl. intros s Hs.
    repeat (apply elem_of_cons in Hs as [->|Hs]; [done|]). by apply elem_of_nil in Hs. }
  destruct (authError req) eqn:Ea; simpl in H.
  { injection H as <-. simpl.
    repeat split; try done; try (by intros [? ?]); try (by intros [?|?]). }
  destruct (user req) as [u|] eqn:Eu; simpl in H; cycle 1.
  { injection H as <-. simpl.
    repeat split; try done; try (by intros [? ?]); try (by intros [?|?]). }
  assert (Hb : forall hd,
    (if negb (truthyField (get_field (body req) "pdfStoragePath"))
     then Returns (mkHandled None None (errorResponse (lit "pdfStoragePath is required") 400))
     else hd) = Returns h ->
    truthyField (get_field (body req) "pdfStoragePath") = true /\ hd = Returns h
    \/ h = mkHandled None None (errorResponse (lit "pdfStoragePath is required") 400)).
  { intros hd. destruct (truthyField _); simpl; [by left|]. intros [= <-]. by right. }
  assert (Hmain :
    (truthyField (get_field (body req) "pdfStoragePath") = true /\
     match profile req with
     | Some p =>
         if managerRole (role p) then
           let row :=
             mkNewViolation (org_id p)
               (default JNull (get_field (body req) "pdfStoragePath"))
               (lit "parser") initialRow in
           match insertError answer, new_id answer with
           | None, Some vid =>
               Returns
                 (mkHandled (Some row)
                    (Some (mkParseRequested vid
                             (default JNull (get_field (body req) "pdfStoragePath"))
                             (org_id p)))
                    (mkResponse 200
                       [("violationId", JStr vid);
                        ("message", JStr (lit "Parse job started"))]))
           | Some msg, _ =>
               Returns
                 (mkHandled (Some row) None
                    (errorResponse
                       (if truthy msg then msg else lit "Failed to create violation") 500))
           | None, None =>
               Returns
                 (mkHandled (Some row) None
                    (errorResponse (lit "Failed to create violation") 500))
           end
         else Returns (mkHandled None None (errorResponse (lit "Insufficient permissions") 403))
     | None => Returns (mkHandled None None (errorResponse (lit "Insufficient permissions") 403))
     end = Returns h)
    \/ h = mkHandled None None (errorResponse (lit "pdfStoragePath is required") 400)).
  { destruct (body req); try discriminate; by apply Hb in H as [[? ?]|?]; [left|right]. }
  clear H Hb. destruct Hmain as [[Ht H]| ->]; cycle 1.
  { simpl. repeat split; try done; try (by intros [? ?]); try (by intros [?|?]). }
  destruct (get_field (body req) "pdfStoragePath") as [pv|] eqn:Ef; [|discriminate].
  simpl in Ht, H.
  destruct (profile req) as [p|] eqn:Ep; cycle 1.
  { injection H as <-. simpl.
    repeat split; try done; try (by intros [? ?]); try (by intros [?|?]). }
  destruct (managerRole (role p)) eqn:Er; cycle 1.
  { injection H as <-. simpl.
    repeat split; try done; try (by intros [? ?]); try (by intros [?|?]). }
  destruct (insertError answer) as [msg|] eqn:Ei; [|destruct (new_id answer) as [vid|] eqn:En];
    injection H as <-; simpl;
    repeat split; try done; try (by intros [? ?]); try (by intros [?|?]); try (by eauto);
    try (match goal with H : Some _ = Some _ |- _ => injection H as <- end; simpl; by eauto).
  intros ev [= <-]. simpl. eexists. repeat split; eauto.
Qed.

Import PipelineRuns.

(** The theorem on a project manager's request that the store accepts. *)
Lemma parse_route_inserts_for_managers_only_witness :
  exists h, ParseRoute.POST request answer = JsDate.Returns h
            /\ ParseRoute.http_status (ParseRoute.response h) = 200
            /\ forall row, ParseRoute.inserted h = Some row ->
                 ParseRoute.nv_row row = ParseRoute.initialRow.
Proof.
  assert (H : exists h, ParseRoute.POST request answer = JsDate.Returns h
                        /\ is_Some (ParseRoute.sent h))
    by (vm_compute; eauto).
  destruct H as (h & Hh & Hs). exists h. split; [exact Hh|].
  destruct (parse_route_inserts_for_managers_only request answer h Hh)
    as (H1 & _ & H3 & _).
  split; [by apply H3|].
  intros row Hrow. destruct (H1 row Hrow) as (_ & _ & _ & _ & _ & _ & H7). exact H7.
Defined.

End ParseRouteFacts.

(** ** The step bodies: rejected calls *)

Module PipelineFacts.

Import Ledger LedgerSpec LedgerRuns LedgerFacts LedgerRunsFacts LedgerRunsFacts2.
Import Timed Gemini Pipeline.

Lemma stepStart_reads_running n msg ck lg db :
  is_Some (db !! violationId lg) -> NoDup (step <$> steps lg) ->
  stepReads (stepStart n msg ck lg db).2 (violationId lg) n running.
Proof.
  intros Hrow Hnd.
  destruct (stepStart_as_flush n msg ck lg db) as (lg' & -> & Hid & Hs & _).
  rewrite <- Hid in *.
  destruct (flush_upserted_entry None lg' lg db n running (Some msg) (t_step ck))
    as (s & H1 & H2 & _); eauto.
  by exists s.
Qed.

Lemma stepStart_logger n msg ck lg db :
  violationId (stepStart n msg ck lg db).1 = violationId lg
  /\ steps (stepStart n msg ck lg db).1 = steps (upsertStep n running (Some msg) (t_step ck) lg)
  /\ extras (stepStart n msg ck lg db).1 = extras lg
  /\ logs (stepStart n msg ck lg db).1 = [].
Proof. done. Qed.

Lemma timed_logger T n label ck (fn : Outcome T) lg :
  (timed n label ck fn lg).1 = fn
  /\ violationId (timed n label ck fn lg).2 = violationId lg
  /\ steps (timed n label ck fn lg).2 = steps lg
  /\ extras (timed n label ck fn lg).2 = extras lg.
Proof. by destruct fn. Qed.

Lemma timed_rejected_log T n label ck err lg :
  exists e, last (logs (@timed T n label ck (Rejected err) lg).2) = Some e
            /\ level e = error_level /\ log_step e = n.
Proof. eexists. simpl. rewrite last_snoc. done. Qed.


(** What [stepComplete] leaves in the store. *)
Lemma stepComplete_spec n msg v e ck lg db :
  is_Some (db !! violationId lg) -> NoDup (step <$> steps lg) ->
  let vid := violationId lg in
  let r := stepComplete n msg (Some v) e ck lg db in
  violationId r.1 = vid
  /\ (biz_status <$> r.2 !! vid) = (biz_status <$> db !! vid)
  /\ (passed v = false ->
      stepReads r.2 vid n failed
      /\ persistedStatus r.2 vid = Some (lit "failed")
      /\ persistedFields r.2 vid = extras lg ∪ persistedFields db vid)
  /\ (passed v = true ->
      stepReads r.2 vid n completed
      /\ persistedFields r.2 vid
         = from_option (fun e0 => e0 ∪ extras lg) (extras lg) e ∪ persistedFields db vid).
Proof.
  intros Hrow Hnd vid r. subst r vid.
  destruct (stepComplete_as_flush n msg (Some v) e ck lg db)
    as (lg' & Hid & [(Hp & -> & [msg' Hs] & He)|(Hp & -> & Hs & He)]);
    simpl in Hp; rewrite <- Hid in *.
  - split; [done|]. destruct Hrow as [row Hrow]. split.
    { by rewrite (flush_row _ _ _ _ Hrow), Hrow. }
    split; [|intros; congruence]. intros _. split; [|split].
    + destruct (flush_upserted_entry (Some (lit "failed")) lg' lg db n failed
                  (Some msg') (t_step ck)) as (s & H1 & H2 & _); eauto.
      by exists s.
    + by rewrite (persistedStatus_flush _ _ _ _ Hrow).
    + rewrite persistedFields_flush by eauto. by rewrite He.
  - split; [done|]. destruct Hrow as [row Hrow]. split.
    { by rewrite (flush_row _ _ _ _ Hrow), Hrow. }
    split; [intros; congruence|]. intros _. split.
    + destruct (flush_upserted_entry None lg' lg db n completed
                  (Some msg) (t_step ck)) as (s & H1 & H2 & _); eauto.
      by exists s.
    + rewrite persistedFields_flush by eauto. by rewrite He.
Qed.

Lemma stepFail_spec n msg d ck lg db :
  is_Some (db !! violationId lg) -> NoDup (step <$> steps lg) ->
  stepReads (stepFail n msg d ck lg db).2 (violationId lg) n failed
  /\ persistedStatus (stepFail n msg d ck lg db).2 (violationId lg) = Some (lit "failed").
Proof.
  intros Hrow Hnd.
  destruct (stepFail_as_flush n msg d ck lg db) as (lg' & -> & Hid & Hs & _).
  rewrite <- Hid in *. split.
  - destruct (flush_upserted_entry (Some (lit "failed")) lg' lg db n failed
                (Some msg) (t_step ck)) as (s & H1 & H2 & _); eauto.
    by exists s.
  - destruct Hrow as [row Hrow]. by rewrite (persistedStatus_flush _ _ _ _ Hrow).
Qed.

Lemma stepStart_keeps_row n msg ck lg db :
  is_Some (db !! violationId lg) ->
  is_Some ((stepStart n msg ck lg db).2 !! violationId lg).
Proof.
  intros H. destruct (stepStart_as_flush n msg ck lg db) as (lg' & -> & Hid & _).
  rewrite <- Hid in *. by apply flush_keeps_row.
Qed.

Lemma stepStart_NoDup n msg ck lg db :
  NoDup (step <$> steps lg) -> NoDup (step <$> steps (stepStart n msg ck lg db).1).
Proof. intros H. by apply upsertStep_NoDup. Qed.

Lemma stepStart_fields n msg ck lg db :
  is_Some (db !! violationId lg) ->
  persistedFields (stepStart n msg ck lg db).2 (violationId lg)
  = extras lg ∪ persistedFields db (violationId lg).
Proof.
  intros H. destruct (stepStart_as_flush n msg ck lg db) as (lg' & -> & Hid & _ & He & _).
  rewrite <- Hid in *. rewrite persistedFields_flush by done. by rewrite He.
Qed.

Section Host.

Variable LocalTZA : Z -> bool -> Z.
Variable parse_other : jsstring -> option Z.
Variable newErrorStack : jsstring -> option jsstring.
Variable number_json : JsNumber -> Json.
Variable js_add : Json -> Json -> Json.
Variable ev : MatchPhotos.EventData.
Variable event_id : Json.

Abbreviation aiParseStep := (aiParseStep newErrorStack ev).
Abbreviation insertRecordsStep :=
  (insertRecordsStep LocalTZA parse_other newErrorStack number_json ev).
Abbreviation analyzePagesStep := (analyzePagesStep newErrorStack).
Abbreviation markCompleteStep := (markCompleteStep js_add ev).

Abbreviation aiStart ck lg db :=
  (stepStart (lit "ai_parse")
     (lit "Downloading PDF and sending to Gemini for structured extraction")
     (ck_start ck) lg db).
Abbreviation insertStart ck lg db :=
  (stepStart (lit "insert_records") (lit "Saving parsed data to database")
     (ck_start ck) lg db).
Abbreviation analyzeStart ck lg db :=
  (stepStart (lit "analyze_pages") (lit "Sending PDF to Gemini for page-level analysis")
     (ck_start ck) lg db).

(** X11. When the storage download or the Gemini call of [ai-parse] or of
    [analyze-pages] rejects, the step body rejects with the same error and
    writes nothing after its [stepStart]: the step stays persisted as
    running, and the error entry of [timed] stays in the buffer of the
    logger. When the deadline computation of [insert-records] throws its
    RangeError, the step body rejects before any record is sent, again with
    the step persisted as running, and with an empty log buffer. *)
Theorem rejected_calls_leave_the_step_running ck err lg db :
  is_Some (db !! violationId lg) -> NoDup (step <$> steps lg) ->
  let vid := violationId lg in
  let buffered (l : ParseLogger) :=
    exists e, last (logs l) = Some e /\ level e = error_level in
  (forall download extraction,
     download = Rejected err
     \/ (exists size, download = Resolved (mkDownload (Some size) None))
        /\ extraction = Rejected err ->
     let r := aiParseStep ck download extraction lg db in
     r.1 = Rejected err /\ r.2.2 = (aiStart ck lg db).2
     /\ stepReads r.2.2 vid (lit "ai_parse") running /\ buffered r.2.1)
  /\ (forall download pageAnalysis,
        download = Rejected err
        \/ (exists size, download = Resolved (Some size)) /\ pageAnalysis = Rejected err ->
        let r := analyzePagesStep ck download pageAnalysis lg db in
        r.1 = Rejected err /\ r.2.2 = (analyzeStart ck lg db).2
        /\ stepReads r.2.2 vid (lit "analyze_pages") running /\ buffered r.2.1)
  /\ (forall aiResult update insert count e,
        InsertRecords.violationUpdate LocalTZA parse_other
          (notice_level_data aiResult) (work_orders aiResult) = JsDate.Throws e ->
        let r := insertRecordsStep ck aiResult update insert count lg db in
        r.1.1 = Rejected (rangeError newErrorStack) /\ r.1.2 = mkSent None None
        /\ r.2.2 = (insertStart ck lg db).2
        /\ stepReads r.2.2 vid (lit "insert_records") running
        /\ logs r.2.1 = []).
Proof.
  intros Hrow Hnd vid buffered. split; [|split].
  - intros download extraction H r. subst r. unfold Pipeline.aiParseStep.
    destruct H as [-> | [[size ->] ->]]; cbn [fst snd timed dl_error dl_size].
    + split; [done|]. split; [done|].
      split; [by apply stepStart_reads_running|].
      eexists. cbn [logs addLog]. rewrite last_snoc. done.
    + split; [done|]. split; [done|].
      split; [by apply stepStart_reads_running|].
      eexists. cbn [logs addLog]. rewrite last_snoc. done.
  - intros download pageAnalysis H r. subst r. unfold Pipeline.analyzePagesStep.
    destruct H as [-> | [[size ->] ->]]; cbn [fst snd timed].
    + split; [done|]. split; [done|].
      split; [by apply stepStart_reads_running|].
      eexists. cbn [logs addLog]. rewrite last_snoc. done.
    + split; [done|]. split; [done|].
      split; [by apply stepStart_reads_running|].
      eexists. cbn [logs addLog]. rewrite last_snoc. done.
  - intros aiResult update insert count e H r. subst r.
    unfold Pipeline.insertRecordsStep. rewrite H. cbn [fst snd].
    split; [done|]. split; [done|]. split; [done|].
    split; [by apply stepStart_reads_running | done].
Qed.

End Host.

Import PipelineRuns.

(** The theorem on a notice whose date of service is x/y/z, and on a
    storage that is down. *)
Lemma rejected_calls_leave_the_step_running_witness :
  is_Some (routed !! violationId (new_logger (lit "v1")))
  /\ NoDup (step <$> steps (new_logger (lit "v1")))
  /\ InsertRecords.violationUpdate utc iso_only
       (notice_level_data parsedBadDate) (work_orders parsedBadDate)
     = JsDate.Throws (lit "RangeError: Invalid time value")
  /\ stepReads
       (insertRecordsStep utc iso_only no_stack integral_json MatchPhotosSpec.event
          stepClock parsedBadDate (Resolved None) (Resolved None) (Some 1)
          (new_logger (lit "v1")) routed).2.2
       (lit "v1") (lit "insert_records") running
  /\ stepReads
       (aiParseStep no_stack MatchPhotosSpec.event stepClock (Rejected storeDown)
          (Resolved extraction) (new_logger (lit "v1")) routed).2.2
       (lit "v1") (lit "ai_parse") running.
Proof.
  assert (Hrow : is_Some (routed !! violationId (new_logger (lit "v1"))))
    by (vm_compute; eauto).
  assert (Hnd : NoDup (step <$> steps (new_logger (lit "v1")))) by apply NoDup_nil_2.
  assert (Hthrow : InsertRecords.violationUpdate utc iso_only
                     (notice_level_data parsedBadDate) (work_orders parsedBadDate)
                   = JsDate.Throws (lit "RangeError: Invalid time value"))
    by (vm_compute; reflexivity).
  split; [exact Hrow|]. split; [exact Hnd|]. split; [exact Hthrow|].
  destruct (rejected_calls_leave_the_step_running utc iso_only no_stack integral_json
              MatchPhotosSpec.event stepClock storeDown (new_logger (lit "v1")) routed
              Hrow Hnd) as (H1 & _ & H3).
  split.
  - exact (proj1 (proj2 (proj2 (proj2
             (H3 parsedBadDate (Resolved None) (Resolved None) (Some 1) _ Hthrow))))).
  - exact (proj1 (proj2 (proj2
             (H1 (Rejected storeDown) (Resolved extraction) (or_introl eq_refl))))).
Defined.

End PipelineFacts.

(** ** The step bodies: verifications, store errors and costs *)

Module PipelineFacts2.

Import Ledger LedgerSpec LedgerRuns LedgerFacts LedgerRunsFacts LedgerRunsFacts2.
Import Timed Gemini Pipeline PipelineFacts.

Lemma truthy_ne (s : jsstring) : truthy s = true <-> s <> [].
Proof. by destruct s. Qed.

Lemma union_twice (a f : gmap string Json) : a ∪ (a ∪ f) = a ∪ f.
Proof. by rewrite (assoc_L (∪)), (idemp_L (∪)). Qed.

Section Host.

Variable LocalTZA : Z -> bool -> Z.
Variable parse_other : jsstring -> option Z.
Variable newErrorStack : jsstring -> option jsstring.
Variable number_json : JsNumber -> Json.
Variable js_add : Json -> Json -> Json.
Variable ev : MatchPhotos.EventData.
Variable event_id : Json.

Abbreviation aiParseStep := (aiParseStep newErrorStack ev).
Abbreviation insertRecordsStep :=
  (insertRecordsStep LocalTZA parse_other newErrorStack number_json ev).
Abbreviation analyzePagesStep := (analyzePagesStep newErrorStack).
Abbreviation markCompleteStep := (markCompleteStep js_add ev).
Abbreviation newError := (newError newErrorStack).

Abbreviation aiStart ck lg db :=
  (stepStart (lit "ai_parse")
     (lit "Downloading PDF and sending to Gemini for structured extraction")
     (ck_start ck) lg db).
Abbreviation insertStart ck lg db :=
  (stepStart (lit "insert_records") (lit "Saving parsed data to database")
     (ck_start ck) lg db).
Abbreviation analyzeStart ck lg db :=
  (stepStart (lit "analyze_pages") (lit "Sending PDF to Gemini for page-level analysis")
     (ck_start ck) lg db).
Abbreviation completeStart ck lg db :=
  (stepStart (lit "complete") (lit "Finalizing parse") (ck_start ck) lg db).

(** *** The bodies end in a lifecycle call on the started logger *)

Lemma aiParseStep_resolved ck size r lg db :
  exists lg' msg,
    aiParseStep ck (Resolved (mkDownload (Some size) None)) (Resolved r) lg db
    = (Resolved (parsed r),
       stepComplete (lit "ai_parse") msg (Some (aiParseVerification r))
         (Some (aiParseExtras r)) (ck_complete ck) lg' (aiStart ck lg db).2)
    /\ violationId lg' = violationId lg
    /\ steps lg' = steps (aiStart ck lg db).1
    /\ extras lg' = extras lg.
Proof. eexists _, _. split; [reflexivity|]. done. Qed.

Lemma analyzePagesStep_resolved ck size r lg db :
  exists lg' msg,
    analyzePagesStep ck (Resolved (Some size)) (Resolved r) lg db
    = (Resolved (analysis r),
       stepComplete (lit "analyze_pages") msg (Some (analyzeVerification (pages_meta r)))
         (Some (analyzeExtras (pages_meta r))) (ck_complete ck) lg' (analyzeStart ck lg db).2)
    /\ violationId lg' = violationId lg
    /\ steps lg' = steps (analyzeStart ck lg db).1
    /\ extras lg' = extras lg.
Proof. eexists _, _. split; [reflexivity|]. done. Qed.

(** X12. The verification of [ai-parse] passes exactly when the notice id
    and the address are not empty and there is a work order; respondent,
    date, fines and the item checks do not count. Whether it passes or not,
    the step resolves with the parsed notice: when it does not pass, the
    step is persisted as failed, the workflow status is failed and no
    extras are stored; when it passes, the step is persisted as completed
    with the item count and the usage of the call as costs. *)
Theorem ai_parse_passes_on_id_address_and_items p text_len pdf_len u :
  let r := parseNOIPdf_response p text_len pdf_len u in
  let nld := notice_level_data p in
  (passed (aiParseVerification r) = true
   <-> InsertRecords.notice_id nld <> [] /\ InsertRecords.infraction_address nld <> []
       /\ work_orders p <> [])
  /\ forall ck size lg db,
       is_Some (db !! violationId lg) -> NoDup (step <$> steps lg) ->
       let vid := violationId lg in
       let out := aiParseStep ck (Resolved (mkDownload (Some size) None)) (Resolved r) lg db in
       out.1 = Resolved p
       /\ (passed (aiParseVerification r) = false ->
           stepReads out.2.2 vid (lit "ai_parse") failed
           /\ persistedStatus out.2.2 vid = Some (lit "failed")
           /\ persistedFields out.2.2 vid = extras lg ∪ persistedFields db vid)
       /\ (passed (aiParseVerification r) = true ->
           stepReads out.2.2 vid (lit "ai_parse") completed
           /\ persistedFields out.2.2 vid !! "items_found"
              = Some (JNum (Z.of_nat (length (work_orders p))))
           /\ persistedFields out.2.2 vid !! "costs"
              = Some (JObj [("ai_parse", usage_json u)])).
Proof.
  intros r nld. split.
  - simpl. rewrite !andb_true_iff, !truthy_ne, Z.ltb_lt. split.
    + intros [[H1 H2] H3]. split; [done|]. split; [done|].
      intros E. rewrite E in H3. simpl in H3. lia.
    + intros (H1 & H2 & H3). split; [done|].
      destruct (work_orders p); [done | simpl; lia].
  - intros ck size lg db Hrow Hnd vid out. subst out vid.
    destruct (aiParseStep_resolved ck size r lg db) as (lg' & msg & -> & Hid & Hs & He).
    cbn [fst snd].
    assert (Hrow' : is_Some ((aiStart ck lg db).2 !! violationId lg'))
      by (rewrite Hid; by apply stepStart_keeps_row).
    assert (Hnd' : NoDup (step <$> steps lg'))
      by (rewrite Hs; by apply stepStart_NoDup).
    destruct (stepComplete_spec (lit "ai_parse") msg (aiParseVerification r)
                (Some (aiParseExtras r)) (ck_complete ck) lg' _ Hrow' Hnd')
      as (_ & _ & Hf & Hp).
    rewrite Hid, He in Hf, Hp. rewrite stepStart_fields in Hf, Hp by done.
    split; [reflexivity|]. split.
    + intros Hv. destruct (Hf Hv) as (H1 & H2 & H3).
      split; [exact H1|]. split; [exact H2|]. rewrite H3. apply union_twice.
    + intros Hv. destruct (Hp Hv) as (H1 & H2).
      split; [exact H1|]. rewrite H2. cbn [from_option].
      split; apply lookup_union_Some_l, lookup_union_Some_l; reflexivity.
Qed.

(** X13. [insert-records], when the deadline computation returns. An error
    answered to the violation update fails the step and rejects before any
    item is sent; an error answered to the item insert fails the step and
    rejects after the update and the items were sent. With no error the
    step resolves; it is persisted as completed when the store counts as
    many items as were sent, and as failed, with the workflow status
    failed, when the count differs or is null. *)
Theorem store_errors_fail_insert_records ck aiResult upd lg db :
  InsertRecords.violationUpdate LocalTZA parse_other
    (notice_level_data aiResult) (work_orders aiResult) = JsDate.Returns upd ->
  is_Some (db !! violationId lg) -> NoDup (step <$> steps lg) ->
  let vid := violationId lg in
  let items := itemRecord ev <$> work_orders aiResult in
  (forall e insert count,
     let r := insertRecordsStep ck aiResult (Resolved (Some e)) insert count lg db in
     r.1.1 = Rejected (newError (lit "Failed to update violation: " ++ se_message e))
     /\ r.1.2 = mkSent (Some (upd, aiResult)) None
     /\ stepReads r.2.2 vid (lit "insert_records") failed
     /\ persistedStatus r.2.2 vid = Some (lit "failed"))
  /\ (forall e count,
        let r := insertRecordsStep ck aiResult (Resolved None) (Resolved (Some e)) count lg db in
        r.1.1 = Rejected (newError (lit "Failed to insert violation items: " ++ se_message e))
        /\ r.1.2 = mkSent (Some (upd, aiResult)) (Some items)
        /\ stepReads r.2.2 vid (lit "insert_records") failed
        /\ persistedStatus r.2.2 vid = Some (lit "failed"))
  /\ (forall count,
        let r := insertRecordsStep ck aiResult (Resolved None) (Resolved None) count lg db in
        r.1.1 = Resolved ()
        /\ r.1.2 = mkSent (Some (upd, aiResult)) (Some items)
        /\ (count = Some (Z.of_nat (length (work_orders aiResult))) ->
            stepReads r.2.2 vid (lit "insert_records") completed)
        /\ (count <> Some (Z.of_nat (length (work_orders aiResult))) ->
            stepReads r.2.2 vid (lit "insert_records") failed
            /\ persistedStatus r.2.2 vid = Some (lit "failed"))).
Proof.
  intros Hupd Hrow Hnd vid items. subst vid.
  pose proof (stepStart_keeps_row (lit "insert_records") (lit "Saving parsed data to database")
                (ck_start ck) lg db Hrow) as Hrow1.
  pose proof (stepStart_NoDup (lit "insert_records") (lit "Saving parsed data to database")
                (ck_start ck) lg db Hnd) as Hnd1.
  split; [|split].
  - intros e insert count r. subst r. unfold Pipeline.insertRecordsStep.
    rewrite Hupd. cbn [fst snd timed].
    split; [done|]. split; [done|].
    match goal with |- context [stepFail ?n ?m ?d ?c ?l ?b] =>
      destruct (stepFail_spec n m d c l b Hrow1 Hnd1) as [H1 H2] end.
    done.
  - intros e count r. subst r. unfold Pipeline.insertRecordsStep.
    rewrite Hupd. cbn [fst snd timed].
    split; [done|]. split; [done|].
    match goal with |- context [stepFail ?n ?m ?d ?c ?l ?b] =>
      destruct (stepFail_spec n m d c l b Hrow1 Hnd1) as [H1 H2] end.
    done.
  - intros count r. subst r. unfold Pipeline.insertRecordsStep.
    rewrite Hupd. cbn [fst snd timed].
    split; [done|]. split; [done|].
    match goal with |- context [stepComplete ?n ?m (Some ?v) ?e ?c ?l ?b] =>
      destruct (stepComplete_spec n m v e c l b Hrow1 Hnd1) as (_ & _ & Hf & Hp) end.
    split.
    + intros Hc. apply Hp. cbn [passed insertVerification].
      apply bool_decide_eq_true. by rewrite length_fmap.
    + intros Hc.
      assert (Hv : passed (insertVerification count
                  (Z.of_nat (length (itemRecord ev <$> work_orders aiResult)))) = false).
      { cbn [passed insertVerification]. apply bool_decide_eq_false.
        rewrite length_fmap. exact Hc. }
      destruct (Hf Hv) as (H1 & H2 & _). split; [exact H1 | exact H2].
Qed.

(** X14. The extras are merged key by key, so the [costs] that
    [analyze-pages] stores replace those of [ai-parse]: after a passing
    [analyze-pages] the persisted costs hold the usage of the page analysis
    only. From there, a passing [mark-complete] adds a total that is 0 plus
    the cost of the page analysis. *)
Theorem page_analysis_costs_replace_extraction_costs :
  (forall ck size r lg db,
     is_Some (db !! violationId lg) -> NoDup (step <$> steps lg) ->
     0 < total_pages (pages_meta r) ->
     let out := analyzePagesStep ck (Resolved (Some size)) (Resolved r) lg db in
     persistedFields out.2.2 (violationId lg) !! "costs"
     = Some (JObj [("analyze_pages", usage_json (pm_usage (pages_meta r)))]))
  /\ (forall ck itemCount photoCount lg db u,
        violationId lg = MatchPhotos.violationId ev ->
        is_Some (db !! violationId lg) -> NoDup (step <$> steps lg) ->
        extras lg !! "costs" = None ->
        persistedFields db (violationId lg) !! "costs"
        = Some (JObj [("analyze_pages", usage_json u)]) ->
        0 < default 0 itemCount ->
        persistedFields (markCompleteStep ck itemCount photoCount lg db).2 (violationId lg)
          !! "costs"
        = Some (JObj [("analyze_pages", usage_json u);
                      ("total_usd",
                       js_add (JNum 0) (nullish (Some (cost_usd u)) (JNum 0)))])).
Proof.
  split.
  - intros ck size r lg db Hrow Hnd Hpages out. subst out.
    destruct (analyzePagesStep_resolved ck size r lg db)
      as (lg' & msg & -> & Hid & Hs & He).
    cbn [fst snd].
    assert (Hrow' : is_Some ((analyzeStart ck lg db).2 !! violationId lg'))
      by (rewrite Hid; by apply stepStart_keeps_row).
    assert (Hnd' : NoDup (step <$> steps lg'))
      by (rewrite Hs; by apply stepStart_NoDup).
    destruct (stepComplete_spec (lit "analyze_pages") msg (analyzeVerification (pages_meta r))
                (Some (analyzeExtras (pages_meta r))) (ck_complete ck) lg' _ Hrow' Hnd')
      as (_ & _ & _ & Hp).
    rewrite Hid in Hp. destruct Hp as [_ Hp].
    { cbn [passed analyzeVerification]. by apply Z.ltb_lt. }
    rewrite Hp. cbn [from_option].
    apply lookup_union_Some_l, lookup_union_Some_l. reflexivity.
  - intros ck itemCount photoCount lg db u Hid Hrow Hnd Hex Hcosts Hitems.
    unfold Pipeline.markCompleteStep.
    set (st1 := completeStart ck lg db).
    assert (Hrow1 : is_Some (st1.2 !! violationId lg)) by (by apply stepStart_keeps_row).
    assert (Hf1 : persistedFields st1.2 (violationId lg) !! "costs"
                  = Some (JObj [("analyze_pages", usage_json u)])).
    { subst st1. rewrite stepStart_fields by done.
      rewrite lookup_union_r by done. exact Hcosts. }
    assert (Hc : existingCosts ev st1.2 = JObj [("analyze_pages", usage_json u)]).
    { unfold existingCosts. rewrite <- Hid, Hf1. reflexivity. }
    rewrite Hc.
    set (db2 := alter markParsed (MatchPhotos.violationId ev) st1.2).
    assert (Hrow2 : is_Some (db2 !! violationId lg)).
    { subst db2. rewrite <- Hid. destruct Hrow1 as [row1 Hrow1].
      rewrite lookup_alter_eq, Hrow1. eauto. }
    match goal with |- context [stepComplete ?n ?m (Some ?v) ?e ?c ?l db2] =>
      assert (Hl : violationId l = violationId lg) by reflexivity;
      assert (Hndl : NoDup (step <$> steps l))
        by (by apply (stepStart_NoDup (lit "complete") (lit "Finalizing parse")
                        (ck_start ck) lg db));
      rewrite <- Hl in Hrow2;
      destruct (stepComplete_spec n m v e c l db2 Hrow2 Hndl) as (_ & _ & _ & Hp)
    end.
    rewrite Hl in Hp. destruct Hp as [_ Hp].
    { cbn [passed completeVerification]. by apply Z.ltb_lt. }
    rewrite Hp. cbn [from_option].
    apply lookup_union_Some_l, lookup_union_Some_l. reflexivity.
Qed.

(** X15. [mark-complete] sets the status of the violation to PARSED before
    it verifies the counts: with no items counted the step is persisted as
    failed and the workflow status is failed, the violation being PARSED
    all the same; with items counted the step is persisted as completed. *)
Theorem mark_complete_sets_parsed_whatever_the_counts ck itemCount photoCount lg db :
  violationId lg = MatchPhotos.violationId ev ->
  is_Some (db !! violationId lg) -> NoDup (step <$> steps lg) ->
  let vid := violationId lg in
  let after := (markCompleteStep ck itemCount photoCount lg db).2 in
  (biz_status <$> after !! vid) = Some StatusTransitions.PARSED
  /\ (default 0 itemCount <= 0 ->
      stepReads after vid (lit "complete") failed
      /\ persistedStatus after vid = Some (lit "failed"))
  /\ (0 < default 0 itemCount -> stepReads after vid (lit "complete") completed).
Proof.
  intros Hid Hrow Hnd vid after. subst after vid.
  unfold Pipeline.markCompleteStep.
  set (st1 := completeStart ck lg db).
  assert (Hrow1 : is_Some (st1.2 !! violationId lg)) by (by apply stepStart_keeps_row).
  set (db2 := alter markParsed (MatchPhotos.violationId ev) st1.2).
  destruct Hrow1 as [row1 Hrow1].
  assert (Hrow2 : db2 !! violationId lg = Some (markParsed row1)).
  { subst db2. rewrite <- Hid. by rewrite lookup_alter_eq, Hrow1. }
  match goal with |- context [stepComplete ?n ?m (Some ?v) ?e ?c ?l db2] =>
    assert (Hl : violationId l = violationId lg) by reflexivity;
    assert (Hndl : NoDup (step <$> steps l))
      by (by apply (stepStart_NoDup (lit "complete") (lit "Finalizing parse")
                      (ck_start ck) lg db));
    assert (Hrow2' : is_Some (db2 !! violationId l)) by (rewrite Hl, Hrow2; eauto);
    destruct (stepComplete_spec n m v e c l db2 Hrow2' Hndl) as (_ & Hb & Hf & Hp)
  end.
  rewrite Hl in Hb, Hf, Hp. split; [|split].
  - rewrite Hb, Hrow2. reflexivity.
  - intros Hc. destruct Hf as (H1 & H2 & _); [|by split].
    cbn [passed completeVerification]. by apply Z.ltb_ge.
  - intros Hc. apply Hp. cbn [passed completeVerification]. by apply Z.ltb_lt.
Qed.

End Host.

Import PipelineRuns.

(** The theorem on a notice without an address: the step resolves and the
    run is failed. *)
Lemma ai_parse_passes_on_id_address_and_items_witness :
  passed (aiParseVerification (parseNOIPdf_response parsedNoAddress 400 1000 usage0)) = false
  /\ (aiParseStep no_stack MatchPhotosSpec.event stepClock
        (Resolved (mkDownload (Some 1000) None))
        (Resolved (parseNOIPdf_response parsedNoAddress 400 1000 usage0))
        (new_logger (lit "v1")) routed).1 = Resolved parsedNoAddress
  /\ persistedStatus
       (aiParseStep no_stack MatchPhotosSpec.event stepClock
          (Resolved (mkDownload (Some 1000) None))
          (Resolved (parseNOIPdf_response parsedNoAddress 400 1000 usage0))
          (new_logger (lit "v1")) routed).2.2 (lit "v1")
     = Some (lit "failed").
Proof.
  assert (Hrow : is_Some (routed !! violationId (new_logger (lit "v1"))))
    by (vm_compute; eauto).
  assert (Hnd : NoDup (step <$> steps (new_logger (lit "v1")))) by apply NoDup_nil_2.
  assert (Hv : passed (aiParseVerification
                         (parseNOIPdf_response parsedNoAddress 400 1000 usage0)) = false)
    by (vm_compute; reflexivity).
  split; [exact Hv|].
  destruct (proj2 (ai_parse_passes_on_id_address_and_items no_stack MatchPhotosSpec.event
                     parsedNoAddress 400 1000 usage0)
              stepClock 1000 (new_logger (lit "v1")) routed Hrow Hnd) as (H1 & H2 & _).
  split; [exact H1|]. exact (proj1 (proj2 (H2 Hv))).
Defined.

(** The theorem on a notice with one work order, the store counting no
    item. *)
Lemma store_errors_fail_insert_records_witness :
  (exists upd, InsertRecords.violationUpdate utc iso_only
                 (notice_level_data parsedNotice) (work_orders parsedNotice)
               = JsDate.Returns upd)
  /\ persistedStatus
       (insertRecordsStep utc iso_only no_stack integral_json MatchPhotosSpec.event
          stepClock parsedNotice (Resolved None) (Resolved None) (Some 0)
          (new_logger (lit "v1")) routed).2.2 (lit "v1")
     = Some (lit "failed").
Proof.
  assert (Hu : exists upd, InsertRecords.violationUpdate utc iso_only
                 (notice_level_data parsedNotice) (work_orders parsedNotice)
               = JsDate.Returns upd) by (vm_compute; eauto).
  split; [exact Hu|]. destruct Hu as [upd Hu].
  assert (Hrow : is_Some (routed !! violationId (new_logger (lit "v1"))))
    by (vm_compute; eauto).
  assert (Hnd : NoDup (step <$> steps (new_logger (lit "v1")))) by apply NoDup_nil_2.
  destruct (store_errors_fail_insert_records utc iso_only no_stack integral_json
              MatchPhotosSpec.event stepClock parsedNotice upd (new_logger (lit "v1"))
              routed Hu Hrow Hnd) as (_ & _ & H3).
  destruct (H3 (Some 0)) as (_ & _ & _ & H4).
  apply H4. discriminate.
Defined.

(** The theorem on an analysis of two pages. *)
Lemma page_analysis_costs_replace_extraction_costs_witness :
  0 < total_pages (pages_meta pageAnalysis)
  /\ persistedFields
       (analyzePagesStep no_stack stepClock (Resolved (Some 1000)) (Resolved pageAnalysis)
          (new_logger (lit "v1")) routed).2.2 (lit "v1") !! "costs"
     = Some (JObj [("analyze_pages", usage_json usage0)]).
Proof.
  assert (Hrow : is_Some (routed !! violationId (new_logger (lit "v1"))))
    by (vm_compute; eauto).
  assert (Hnd : NoDup (step <$> steps (new_logger (lit "v1")))) by apply NoDup_nil_2.
  assert (Hp : 0 < total_pages (pages_meta pageAnalysis)) by reflexivity.
  split; [exact Hp|].
  exact (proj1 (page_analysis_costs_replace_extraction_costs no_stack integer_add
                  MatchPhotosSpec.event)
           stepClock 1000 pageAnalysis (new_logger (lit "v1")) routed Hrow Hnd Hp).
Defined.

(** The theorem on a store that counts no item. *)
Lemma mark_complete_sets_parsed_whatever_the_counts_witness :
  let after :=
    (markCompleteStep integer_add MatchPhotosSpec.event stepClock (Some 0) (Some 0)
       (new_logger (lit "v1")) routed).2 in
  (biz_status <$> after !! lit "v1") = Some StatusTransitions.PARSED
  /\ persistedStatus after (lit "v1") = Some (lit "failed").
Proof.
  intros after.
  assert (Hrow : is_Some (routed !! violationId (new_logger (lit "v1"))))
    by (vm_compute; eauto).
  assert (Hnd : NoDup (step <$> steps (new_logger (lit "v1")))) by apply NoDup_nil_2.
  destruct (mark_complete_sets_parsed_whatever_the_counts integer_add MatchPhotosSpec.event
              stepClock (Some 0) (Some 0) (new_logger (lit "v1")) routed eq_refl Hrow Hnd)
    as (H1 & H2 & _).
  split; [exact H1|]. apply H2. simpl. lia.
Defined.

End PipelineFacts2.

(** ** The ledger by step name and status *)

Module LedgerViewFacts.

Import Ledger LedgerSpec LedgerRuns LedgerFacts LedgerRunsFacts LedgerRunsFacts2 LedgerView.

Lemma fst_setView n st v : (setView n st v).*1 = v.*1.
Proof.
  unfold setView. rewrite <- list_fmap_compose. apply list_fmap_ext.
  intros i [m s] _. simpl. destruct (streq m n) eqn:E; [|done].
  simpl. symmetry. by apply streq_true.
Qed.

Lemma setView_not_in n st v : n ∉ v.*1 -> setView n st v = v.
Proof.
  induction v as [|[m s] v IH]; [done|].
  intros H. rewrite fmap_cons in H. apply not_elem_of_cons in H as [H1 H2].
  simpl in H1. unfold setView. rewrite fmap_cons. simpl.
  rewrite (proj2 (streq_false m n)) by congruence. f_equal. by apply IH.
Qed.

Lemma view_names l : ((fun s => (step s, status s)) <$> l).*1 = step <$> l.
Proof. rewrite <- list_fmap_compose. done. Qed.

Lemma view_mergeStep l x :
  NoDup (step <$> l) -> step x ∈ step <$> l ->
  (fun s => (step s, status s)) <$> mergeStep l x
  = setView (step x) (status x) ((fun s => (step s, status s)) <$> l).
Proof.
  induction l as [|m l IH]; intros Hnd Hin; [by apply elem_of_nil in Hin|].
  rewrite fmap_cons in Hnd, Hin. apply NoDup_cons in Hnd as [Hni Hnd].
  rewrite mergeStep_cons. unfold setView. rewrite !fmap_cons. cbn [fst].
  destruct (streq (step m) (step x)) eqn:E.
  - apply streq_true in E. rewrite fmap_cons. f_equal.
    symmetry. apply (setView_not_in (step x) (status x)).
    rewrite view_names. by rewrite <- E.
  - apply streq_false in E. rewrite fmap_cons. f_equal. apply IH; [done|].
    apply elem_of_cons in Hin as [?|?]; [congruence | done].
Qed.

Lemma deriveParseStatus_states l : deriveParseStatus l = deriveStates (status <$> l).
Proof.
  unfold deriveParseStatus, deriveStates, has_status.
  rewrite length_fmap.
  assert (He : forall st, existsb (fun s => bool_decide (status s = st)) l
                 = existsb (fun s => bool_decide (s = st)) (status <$> l)).
  { intros st. induction l as [|m l IH]; [done|].
    rewrite fmap_cons. cbn [existsb]. by rewrite IH. }
  assert (Hf : forallb (fun s => bool_decide (status s = completed)) l
               = forallb (fun s => bool_decide (s = completed)) (status <$> l)).
  { clear He. induction l as [|m l IH]; [done|].
    rewrite fmap_cons. cbn [forallb]. by rewrite IH. }
  by rewrite !He, Hf.
Qed.

Lemma view_states l : ((fun s => (step s, status s)) <$> l).*2 = status <$> l.
Proof. rewrite <- list_fmap_compose. done. Qed.

(** A flush of a logger that holds one step, of a name the row lists. *)
Lemma flush_ledger ps lg db vid v p b x :
  ledgerIs db vid v p b -> NoDup v.*1 ->
  violationId lg = vid -> steps lg = [x] -> step x ∈ v.*1 ->
  let v' := setView (step x) (status x) v in
  ledgerIs (flush ps lg db).2 vid v'
    (from_option id p (if truthy_opt ps then ps else deriveStates v'.*2)) b.
Proof.
  intros (row & Hrow & Hv & Hp & Hb) Hnd Hid Hs Hin v'. subst vid.
  eexists. split; [apply (flush_row _ _ _ _ Hrow)|]. cbn zeta.
  assert (Hm : mergeSteps (persistedSteps db (violationId lg)) (steps lg)
               = mergeStep (persistedSteps db (violationId lg)) x)
    by (by rewrite Hs).
  assert (Hview : (fun s => (step s, status s)) <$>
                    mergeSteps (persistedSteps db (violationId lg)) (steps lg) = v').
  { subst v'. rewrite Hm, view_mergeStep.
    - by rewrite <- Hv.
    - rewrite <- view_names. unfold ledgerView in Hv. by rewrite Hv.
    - rewrite <- view_names. unfold ledgerView in Hv. by rewrite Hv. }
  split; [|split].
  - unfold ledgerView. rewrite persistedSteps_flush by eauto. exact Hview.
  - cbn [parse_status]. rewrite Hp. f_equal.
    destruct (truthy_opt ps); [done|].
    by rewrite deriveParseStatus_states, <- view_states, Hview.
  - exact Hb.
Qed.

Lemma upsertStep_single n st msg now lg x :
  steps lg = [x] -> step x = n ->
  exists y, steps (upsertStep n st msg now lg) = [y] /\ step y = n /\ status y = st.
Proof.
  intros Hs Hn. destruct lg as [vi lgs l ex]. simpl in Hs. subst l.
  rewrite upsertStep_steps_cons, Hn, streq_refl.
  eexists. split; [reflexivity|]. by rewrite step_preserveStarted, status_preserveStarted.
Qed.

(** [stepStart] on the logger of a new invocation. *)
Lemma start_ledger n msg ck lg db vid v p b :
  ledgerIs db vid v p b -> NoDup v.*1 ->
  violationId lg = vid -> steps lg = [] -> n ∈ v.*1 ->
  let v' := setView n running v in
  ledgerIs (stepStart n msg ck lg db).2 vid v' (from_option id p (deriveStates v'.*2)) b
  /\ violationId (stepStart n msg ck lg db).1 = vid
  /\ exists x, steps (stepStart n msg ck lg db).1 = [x] /\ step x = n.
Proof.
  intros HL Hnd Hid Hs Hin v'.
  destruct (stepStart_as_flush n msg ck lg db) as (lg' & E & Hid' & Hs' & _).
  rewrite E.
  assert (Hx : steps lg' = [newStepData n running (Some msg) (t_step ck)]).
  { rewrite Hs'. unfold upsertStep. simpl. by rewrite Hs. }
  split; [|split].
  - apply (flush_ledger None lg' db vid v p b
             (newStepData n running (Some msg) (t_step ck)) HL Hnd);
      [congruence | exact Hx | exact Hin].
  - simpl. congruence.
  - exists (newStepData n running (Some msg) (t_step ck)). by rewrite <- Hx.
Qed.

(** A passing [stepComplete] on the logger that started the step. *)
Lemma complete_ledger n msg vo e ck lg db vid v p b x :
  ledgerIs db vid v p b -> NoDup v.*1 ->
  violationId lg = vid -> steps lg = [x] -> step x = n -> n ∈ v.*1 ->
  from_option passed true vo = true ->
  let v' := setView n completed v in
  ledgerIs (stepComplete n msg vo e ck lg db).2 vid v' (from_option id p (deriveStates v'.*2)) b.
Proof.
  intros HL Hnd Hid Hs Hn Hin Hp v'.
  destruct (stepComplete_as_flush n msg vo e ck lg db)
    as (lg' & Hid' & [(Hp' & _)|(_ & E & Hs' & _)]); [congruence|].
  rewrite E.
  destruct (upsertStep_single n completed (Some msg) (t_step ck) lg x Hs Hn)
    as (y & Hy & Hyn & Hys).
  rewrite Hy in Hs'.
  pose proof (flush_ledger None lg' db vid v p b y HL Hnd) as H.
  rewrite Hyn, Hys in H. apply H; [congruence | exact Hs' | exact Hin].
Qed.

Lemma markParsed_ledger db vid v p b :
  ledgerIs db vid v p b ->
  ledgerIs (alter markParsed vid db) vid v p StatusTransitions.PARSED.
Proof.
  intros (row & Hrow & Hv & Hp & Hb). exists (markParsed row).
  split; [by rewrite lookup_alter_eq, Hrow|]. split; [|done].
  unfold ledgerView, persistedSteps in *. by rewrite lookup_alter_eq, Hrow in *.
Qed.

Lemma markParsing_ledger db vid v p b :
  ledgerIs db vid v p b ->
  ledgerIs (alter markParsing vid db) vid v (lit "processing") StatusTransitions.PARSING.
Proof.
  intros (row & Hrow & Hv & Hp & Hb). exists (markParsing row).
  split; [by rewrite lookup_alter_eq, Hrow|]. split; [|done].
  unfold ledgerView, persistedSteps in *. by rewrite lookup_alter_eq, Hrow in *.
Qed.

End LedgerViewFacts.

(** ** The workflow *)

Module WorkflowFacts.

Import Ledger LedgerSpec LedgerRuns LedgerFacts LedgerRunsFacts LedgerRunsFacts2.
Import LedgerView LedgerViewFacts.
Import Timed Gemini Pipeline PipelineFacts PipelineFacts2.

(** A step body that starts its step on the logger of a new invocation and
    completes it on the same logger, the verification passing. *)
Lemma body_ledger n msg0 ck0 msg vo e ck lg lg' db vid v p b v' p' :
  ledgerIs db vid v p b -> NoDup v.*1 ->
  violationId lg = vid -> steps lg = [] -> n ∈ v.*1 ->
  violationId lg' = vid -> steps lg' = steps (stepStart n msg0 ck0 lg db).1 ->
  from_option passed true vo = true ->
  setView n completed (setView n running v) = v' ->
  from_option id (from_option id p (deriveStates (setView n running v).*2))
    (deriveStates v'.*2) = p' ->
  ledgerIs (stepComplete n msg vo e ck lg' (stepStart n msg0 ck0 lg db).2).2 vid v' p' b.
Proof.
  intros HL Hnd Hid Hs Hin Hid' Hs' Hp <- <-.
  destruct (start_ledger n msg0 ck0 lg db vid v p b HL Hnd Hid Hs Hin)
    as (HL1 & _ & x & Hx & Hxn).
  rewrite Hx in Hs'.
  apply (complete_ledger n msg vo e ck lg' _ vid _ _ b x HL1); try done.
  - by rewrite fst_setView.
  - by rewrite fst_setView.
Qed.

Local Ltac closed_dec := apply (bool_decide_unpack _); vm_compute; exact I.
Local Ltac closed_eq := vm_compute; reflexivity.

Lemma NoDup_knownSteps : NoDup knownSteps.
Proof. apply (bool_decide_unpack _). vm_compute. exact I. Qed.

Lemma matchPhotosStep_ends_in_complete toLowerCase photoError ev ck1 ck2 ts items pages
    table lg db :
  exists lg' msg v e,
    (MatchPhotos.matchPhotosStep toLowerCase photoError ev ck1 ck2 ts items pages
       table lg db).1
    = stepComplete (lit "match_photos") msg (Some v) e ck2 lg'
        (stepStart (lit "match_photos")
           (lit "Matching evidence photos to violation items by code") ck1 lg db).2
    /\ passed v = true
    /\ violationId lg' = violationId lg
    /\ steps lg'
       = steps (stepStart (lit "match_photos")
                  (lit "Matching evidence photos to violation items by code") ck1 lg db).1
    /\ (MatchPhotos.matchPhotosStep toLowerCase photoError ev ck1 ck2 ts items pages
          table lg db).2
       = (MatchPhotos.matchPhotos toLowerCase photoError ev items pages table).1.
Proof.
  unfold MatchPhotos.matchPhotosStep.
  destruct (stepStart _ _ ck1 lg db) as [lg1 db1] eqn:E.
  assert (Hid : violationId lg1 = violationId lg).
  { pose proof (f_equal fst E) as E1. simpl in E1. by rewrite <- E1. }
  cbn [fst snd]. clear E.
  assert (Hfold : forall (l : list (nat * (LogLevel * jsstring * option (gmap string Json)))) l0,
            violationId (foldl (fun l '(i, e) =>
                           addLog e.1.1 (lit "match_photos") e.1.2 e.2 (ts i) l) l0 l)
            = violationId l0
            /\ steps (foldl (fun l '(i, e) =>
                         addLog e.1.1 (lit "match_photos") e.1.2 e.2 (ts i) l) l0 l)
               = steps l0).
  { induction l as [|[i e] l IH]; intros l0; [done|]. simpl.
    destruct (IH (addLog e.1.1 (lit "match_photos") e.1.2 e.2 (ts i) l0)) as [H1 H2].
    by rewrite H1, H2. }
  destruct (MatchPhotos.matchPhotos _ _ _ _ _ _) as [table' [st|]].
  - eexists _, _, _, _. split; [reflexivity|]. split; [reflexivity|].
    cbn [fst snd]. split; [|split; [|reflexivity]].
    + rewrite <- Hid. apply Hfold.
    + apply Hfold.
  - eexists _, _, _, _. split; [reflexivity|]. split; [reflexivity|]. done.
Qed.

Section Workflow.

Variable LocalTZA : Z -> bool -> Z.
Variable parse_other : jsstring -> option Z.
Variable newErrorStack : jsstring -> option jsstring.
Variable number_json : JsNumber -> Json.
Variable js_add : Json -> Json -> Json.
Variable toLowerCase : jsstring -> jsstring.
Variable photoError : list MatchPhotos.PhotoRow -> MatchPhotos.PhotoRow -> option jsstring.
Variable ev : MatchPhotos.EventData.
Variable event_id : Json.

Abbreviation parseNOI :=
  (parseNOI LocalTZA parse_other newErrorStack number_json js_add toLowerCase
     photoError ev event_id).


Lemma insertRecordsStep_resolved ck aiResult upd count lg db :
  InsertRecords.violationUpdate LocalTZA parse_other
    (notice_level_data aiResult) (work_orders aiResult) = JsDate.Returns upd ->
  exists lg' msg,
    Pipeline.insertRecordsStep LocalTZA parse_other newErrorStack number_json ev ck aiResult
      (Resolved None) (Resolved None) count lg db
    = (Resolved (),
       mkSent (Some (upd, aiResult)) (Some (itemRecord ev <$> work_orders aiResult)),
       stepComplete (lit "insert_records") msg
         (Some (insertVerification count
                  (Z.of_nat (length (itemRecord ev <$> work_orders aiResult)))))
         None (ck_complete ck) lg'
         (stepStart (lit "insert_records") (lit "Saving parsed data to database")
            (ck_start ck) lg db).2)
    /\ violationId lg' = violationId lg
    /\ steps lg'
       = steps (stepStart (lit "insert_records") (lit "Saving parsed data to database")
                  (ck_start ck) lg db).1.
Proof.
  intros H. unfold Pipeline.insertRecordsStep. rewrite H. cbn [fst snd timed].
  eexists _, _. split; [reflexivity|]. done.
Qed.

Lemma markComplete_ledger ck itemCount photoCount lg db v p b v' p' :
  let vid := MatchPhotos.violationId ev in
  ledgerIs db vid v p b -> NoDup v.*1 ->
  violationId lg = vid -> steps lg = [] -> lit "complete" ∈ v.*1 ->
  0 < default 0 itemCount ->
  setView (lit "complete") completed (setView (lit "complete") running v) = v' ->
  from_option id (from_option id p (deriveStates (setView (lit "complete") running v).*2))
    (deriveStates v'.*2) = p' ->
  ledgerIs (Pipeline.markCompleteStep js_add ev ck itemCount photoCount lg db).2 vid v' p'
    StatusTransitions.PARSED.
Proof.
  intros vid HL Hnd Hid Hs Hin Hitems <- <-.
  unfold Pipeline.markCompleteStep.
  destruct (start_ledger (lit "complete") (lit "Finalizing parse") (ck_start ck)
              lg db vid v p b HL Hnd Hid Hs Hin) as (HL1 & Hid1 & x & Hx & Hxn).
  apply markParsed_ledger in HL1.
  apply (complete_ledger _ _ _ _ _ _ _ vid _ _ _ x HL1); try done.
  - by rewrite fst_setView.
  - by rewrite fst_setView.
  - cbn [from_option passed completeVerification]. by apply Z.ltb_lt.
Qed.

(** X16. A run of the workflow on the row the parse route inserted, in
    which every call resolves, the store answers no error, the
    verifications of [ai-parse] and [analyze-pages] pass, the deadline
    computation returns and the item counts agree and are positive: the run
    resolves, the five steps are persisted as completed, in order, the
    workflow status is completed and the violation is PARSED; the photo
    rows are those of [matchPhotos] and the records sent are the violation
    update and one item per work order. *)
Theorem a_clean_run_ends_parsed_and_completed o c db table size size' r pr upd :
  let vid := MatchPhotos.violationId ev in
  db !! vid = Some ParseRoute.initialRow ->
  o_download o = Resolved (mkDownload (Some size) None) ->
  o_extraction o = Resolved r ->
  passed (aiParseVerification r) = true ->
  InsertRecords.violationUpdate LocalTZA parse_other
    (notice_level_data (parsed r)) (work_orders (parsed r)) = JsDate.Returns upd ->
  o_update o = Resolved None -> o_insert o = Resolved None ->
  o_count o = Some (Z.of_nat (length (work_orders (parsed r)))) ->
  o_redownload o = Resolved (Some size') ->
  o_pageAnalysis o = Resolved pr -> 0 < total_pages (pages_meta pr) ->
  0 < default 0 (o_itemCount o) ->
  let out := parseNOI o c db table in
  out.1 = Resolved ()
  /\ ledgerIs (violations out.2) vid ((fun n => (n, completed)) <$> knownSteps)
       (lit "completed") StatusTransitions.PARSED
  /\ photo_rows out.2
     = (MatchPhotos.matchPhotos toLowerCase photoError ev (o_items o) (analysis pr) table).1
  /\ records out.2
     = mkSent (Some (upd, parsed r)) (Some (itemRecord ev <$> work_orders (parsed r))).
Proof.
  intros vid Hrow Hdl Hex Hpass Hupd Hu Hi Hc Hrd Hpa Hpages Hitems out. subst out.
  unfold Pipeline.parseNOI. rewrite Hdl, Hex, Hu, Hi, Hc, Hrd, Hpa. fold vid.
  set (log := new_logger vid).
  set (db0 := (initStep ev event_id (c_init c) log db).2).
  assert (L0 : ledgerIs db0 vid ((fun n => (n, pending)) <$> knownSteps)
                 (lit "processing") StatusTransitions.PARSING).
  { subst db0. unfold initStep. cbn [snd]. fold vid.
    apply (markParsing_ledger db vid _ (lit "pending") StatusTransitions.NEW).
    exists ParseRoute.initialRow. split; [exact Hrow|]. split; [|done].
    unfold ledgerView, persistedSteps. rewrite Hrow. reflexivity. }
  (* ai-parse *)
  destruct (aiParseStep_resolved newErrorStack ev (c_ai c) size r log db0)
    as (lg1 & msg1 & -> & Hid1 & Hs1 & _).
  cbn [fst snd].
  set (db1 := (stepComplete (lit "ai_parse") msg1 _ _ _ lg1 _).2).
  assert (L1 : ledgerIs db1 vid
                 ((lit "ai_parse", completed)
                  :: ((fun n => (n, pending)) <$>
                      [lit "insert_records"; lit "analyze_pages"; lit "match_photos";
                       lit "complete"]))
                 (lit "processing") StatusTransitions.PARSING).
  { subst db1. eapply (body_ledger _ _ _ _ _ _ _ log lg1 db0 vid _ _ _ _ _ L0);
      [closed_dec | reflexivity | reflexivity | closed_dec | exact Hid1 | exact Hs1
      | exact Hpass | closed_eq | closed_eq]. }
  (* insert-records *)
  destruct (insertRecordsStep_resolved (c_insert c) (parsed r) upd
              (Some (Z.of_nat (length (work_orders (parsed r))))) log db1 Hupd)
    as (lg2 & msg2 & -> & Hid2 & Hs2).
  cbn [fst snd].
  set (db2 := (stepComplete (lit "insert_records") msg2 _ _ _ lg2 _).2).
  assert (L2 : ledgerIs db2 vid
                 ((lit "ai_parse", completed) :: (lit "insert_records", completed)
                  :: ((fun n => (n, pending)) <$>
                      [lit "analyze_pages"; lit "match_photos"; lit "complete"]))
                 (lit "processing") StatusTransitions.PARSING).
  { subst db2. eapply (body_ledger _ _ _ _ _ _ _ log lg2 db1 vid _ _ _ _ _ L1);
      [closed_dec | reflexivity | reflexivity | closed_dec | exact Hid2 | exact Hs2
      | | closed_eq | closed_eq].
    cbn [from_option passed insertVerification]. apply bool_decide_eq_true.
    by rewrite length_fmap. }
  (* analyze-pages *)
  destruct (analyzePagesStep_resolved newErrorStack (c_analyze c) size' pr log db2)
    as (lg3 & msg3 & -> & Hid3 & Hs3 & _).
  cbn [fst snd].
  set (db3 := (stepComplete (lit "analyze_pages") msg3 _ _ _ lg3 _).2).
  assert (L3 : ledgerIs db3 vid
                 ((lit "ai_parse", completed) :: (lit "insert_records", completed)
                  :: (lit "analyze_pages", completed)
                  :: ((fun n => (n, pending)) <$> [lit "match_photos"; lit "complete"]))
                 (lit "processing") StatusTransitions.PARSING).
  { subst db3. eapply (body_ledger _ _ _ _ _ _ _ log lg3 db2 vid _ _ _ _ _ L2);
      [closed_dec | reflexivity | reflexivity | closed_dec | exact Hid3 | exact Hs3
      | | closed_eq | closed_eq].
    cbn [from_option passed analyzeVerification]. by apply Z.ltb_lt. }
  (* match-photos *)
  destruct (matchPhotosStep_ends_in_complete toLowerCase photoError ev (c_match1 c)
              (c_match2 c) (c_match c) (o_items o) (analysis pr) table log db3)
    as (lg4 & msg4 & v4 & e4 & E4 & Hp4 & Hid4 & Hs4 & Et).
  rewrite Et.
  set (mp := MatchPhotos.matchPhotosStep _ _ _ _ _ _ _ _ _ _ _) in *.
  assert (L4 : ledgerIs mp.1.2 vid
                 ((lit "ai_parse", completed) :: (lit "insert_records", completed)
                  :: (lit "analyze_pages", completed) :: (lit "match_photos", completed)
                  :: [(lit "complete", pending)])
                 (lit "processing") StatusTransitions.PARSING).
  { rewrite E4. eapply (body_ledger _ _ _ _ _ _ _ log lg4 db3 vid _ _ _ _ _ L3);
      [closed_dec | reflexivity | reflexivity | closed_dec | exact Hid4 | exact Hs4
      | exact Hp4 | closed_eq | closed_eq]. }
  (* mark-complete *)
  split; [reflexivity|]. split; [|split; reflexivity]. cbn [violations snd].
  eapply (markComplete_ledger (c_complete c) _ _ log mp.1.2 _ _ _ _ _ L4);
    [closed_dec | reflexivity | reflexivity | closed_dec | exact Hitems
    | closed_eq | closed_eq].
Qed.

End Workflow.

Import PipelineRuns.

(** The theorem on a notice with one work order and an analysis of two
    pages. *)
Lemma a_clean_run_ends_parsed_and_completed_witness :
  let out :=
    parseNOI utc iso_only no_stack integral_json integer_add latin1_toLowerCase
      MatchPhotosSpec.accept_all MatchPhotosSpec.event JNull oracles clocks routed [] in
  out.1 = Resolved ()
  /\ ledgerIs (violations out.2) (lit "v1") ((fun n => (n, completed)) <$> knownSteps)
       (lit "completed") StatusTransitions.PARSED.
Proof.
  intros out.
  assert (Hu : exists upd, InsertRecords.violationUpdate utc iso_only
                 (notice_level_data (parsed extraction)) (work_orders (parsed extraction))
               = JsDate.Returns upd) by (vm_compute; eauto).
  destruct Hu as [upd Hu].
  assert (Hrow : routed !! MatchPhotos.violationId MatchPhotosSpec.event
                 = Some ParseRoute.initialRow) by (vm_compute; reflexivity).
  assert (Hpass : passed (aiParseVerification extraction) = true) by (vm_compute; reflexivity).
  destruct (a_clean_run_ends_parsed_and_completed utc iso_only no_stack integral_json
              integer_add latin1_toLowerCase MatchPhotosSpec.accept_all MatchPhotosSpec.event
              JNull oracles clocks routed [] 1000 1000 extraction pageAnalysis upd
              Hrow eq_refl eq_refl Hpass Hu eq_refl eq_refl eq_refl eq_refl eq_refl
              eq_refl eq_refl) as (H1 & H2 & _).
  split; [exact H1 | exact H2].
Defined.

End WorkflowFacts.

(** ** The status of the violation along a run *)

Module StatusPathFacts.

Import Ledger LedgerSpec LedgerRuns LedgerFacts LedgerRunsFacts.
Import Timed Gemini Pipeline PipelineWrites PipelineSpec StatusTransitions.

Lemma sameStatus_refl vid db : sameStatus vid db db.
Proof. by split. Qed.

Lemma sameStatus_trans vid db1 db2 db3 :
  sameStatus vid db1 db2 -> sameStatus vid db2 db3 -> sameStatus vid db1 db3.
Proof.
  intros [H1 H2] [H3 H4]. split.
  - intros k Hk. by rewrite H3, H1.
  - by rewrite H4, H2.
Qed.

Lemma flush_sameStatus ps lg db : sameStatus (violationId lg) db (flush ps lg db).2.
Proof.
  split.
  - intros k Hk. by apply flush_other.
  - destruct (db !! violationId lg) as [row|] eqn:E.
    + by rewrite (flush_row _ _ _ _ E).
    + by rewrite (flush_absent _ _ _ E), E.
Qed.

Lemma stepStart_sameStatus n msg ck lg db :
  sameStatus (violationId lg) db (stepStart n msg ck lg db).2.
Proof.
  destruct (stepStart_as_flush n msg ck lg db) as (lg' & -> & <- & _).
  apply flush_sameStatus.
Qed.

Lemma stepFail_sameStatus n msg d ck lg db :
  sameStatus (violationId lg) db (stepFail n msg d ck lg db).2.
Proof.
  destruct (stepFail_as_flush n msg d ck lg db) as (lg' & -> & <- & _).
  apply flush_sameStatus.
Qed.

Lemma stepComplete_sameStatus n msg v e ck lg db :
  sameStatus (violationId lg) db (stepComplete n msg v e ck lg db).2.
Proof.
  destruct (stepComplete_as_flush n msg v e ck lg db)
    as (lg' & <- & [(_ & -> & _)|(_ & -> & _)]); apply flush_sameStatus.
Qed.

Lemma alter_status (f : ViolationRow -> ViolationRow) (vid : jsstring) (db : Violations) b :
  (forall row, biz_status (f row) = b) ->
  (forall k, k <> vid -> alter f vid db !! k = db !! k)
  /\ (biz_status <$> alter f vid db !! vid) = ((fun _ => b) <$> db !! vid).
Proof.
  intros Hf. split.
  - intros k Hk. by rewrite lookup_alter_ne.
  - rewrite lookup_alter_eq. destruct (db !! vid); simpl; [by rewrite Hf | done].
Qed.

Lemma statusUpdate_status (applied : bool) (f : ViolationRow -> ViolationRow)
    (vid : jsstring) (db : Violations) b :
  (forall row, biz_status (f row) = b) ->
  (forall k, k <> vid -> statusUpdate applied f vid db !! k = db !! k)
  /\ (biz_status <$> statusUpdate applied f vid db !! vid)
     = ((fun row => if applied then b else biz_status row) <$> db !! vid).
Proof.
  intros Hf. destruct applied; [exact (alter_status f vid db b Hf) | done].
Qed.

Section Host.

Variable LocalTZA : Z -> bool -> Z.
Variable parse_other : jsstring -> option Z.
Variable newErrorStack : jsstring -> option jsstring.
Variable number_json : JsNumber -> Json.
Variable js_add : Json -> Json -> Json.
Variable toLowerCase : jsstring -> jsstring.
Variable photoError : list MatchPhotos.PhotoRow -> MatchPhotos.PhotoRow -> option jsstring.
Variable ev : MatchPhotos.EventData.
Variable event_id : Json.

Local Ltac step_same :=
  lazymatch goal with
  | |- sameStatus _ _ (stepStart ?n ?m ?ck ?lg ?db).2 =>
      exact (stepStart_sameStatus n m ck lg db)
  | |- sameStatus _ ?db0 (stepFail ?n ?m ?d ?ck ?lg ?db).2 =>
      apply (sameStatus_trans _ db0 db);
      [apply stepStart_sameStatus | exact (stepFail_sameStatus n m d ck lg db)]
  | |- sameStatus _ ?db0 (stepComplete ?n ?m ?v ?e ?ck ?lg ?db).2 =>
      apply (sameStatus_trans _ db0 db);
      [apply stepStart_sameStatus | exact (stepComplete_sameStatus n m v e ck lg db)]
  end.

Lemma aiParseStep_sameStatus ck download extraction lg db :
  sameStatus (violationId lg) db
    (aiParseStep newErrorStack ev ck download extraction lg db).2.2.
Proof.
  unfold aiParseStep. destruct download as [[size err]|e]; cbn [timed fst snd].
  - cbn [dl_error dl_size]. destruct err as [err|], size as [size|]; cbn [fst snd];
      try step_same.
    destruct extraction as [r|e]; cbn [timed fst snd]; step_same.
  - step_same.
Qed.

Lemma insertRecordsStep_sameStatus ck aiResult update insert count lg db :
  sameStatus (violationId lg) db
    (insertRecordsStep LocalTZA parse_other newErrorStack number_json ev ck aiResult
       update insert count lg db).2.2.
Proof.
  unfold insertRecordsStep.
  destruct (InsertRecords.violationUpdate _ _ _ _) as [upd|e]; cbn [fst snd];
    [|step_same].
  destruct update as [[e|]|e]; cbn [timed fst snd]; try step_same.
  destruct insert as [[e|]|e]; cbn [timed fst snd]; step_same.
Qed.

Lemma analyzePagesStep_sameStatus ck download pageAnalysis lg db :
  sameStatus (violationId lg) db
    (analyzePagesStep newErrorStack ck download pageAnalysis lg db).2.2.
Proof.
  unfold analyzePagesStep. destruct download as [[size|]|e]; cbn [timed fst snd];
    try step_same.
  destruct pageAnalysis as [r|e]; cbn [timed fst snd]; step_same.
Qed.

Lemma matchPhotosStep_sameStatus ck1 ck2 ts items pages table lg db :
  sameStatus (violationId lg) db
    (MatchPhotos.matchPhotosStep toLowerCase photoError ev ck1 ck2 ts items pages
       table lg db).1.2.
Proof.
  destruct (WorkflowFacts.matchPhotosStep_ends_in_complete toLowerCase photoError ev
              ck1 ck2 ts items pages table lg db) as (lg' & msg & v & e & -> & _ & Hid & _).
  eapply sameStatus_trans; [apply stepStart_sameStatus|].
  rewrite <- Hid. apply stepComplete_sameStatus.
Qed.

(** X28.  The status of the violation through a run of the workflow, the
    store applying or not each of the two updates of the status, whose
    answer the workflow does not look at, and applying the reads and writes
    of the ledger.  Whatever the downloads and the
    Gemini calls do and whatever the store answers to the violation update,
    to the item insert, to the counts and to the query of the items, the
    run touches no row of [violations] but that of its violation, and
    creates none.  It leaves the violation with the status PARSED when the
    run resolves and the update to PARSED was applied; otherwise with
    PARSING when the update to PARSING was applied; otherwise with the
    status it had.  So a run whose update to PARSED the store refuses
    resolves and leaves PARSING, and no run sets the status to anything but
    PARSING and PARSED.  With both updates applied the run is that of
    [parseNOI]; from NEW, the two changes are accepted transitions. *)
Theorem the_workflow_moves_the_status_forward_only w o c db table :
  let vid := MatchPhotos.violationId ev in
  let out :=
    parseNOIWith LocalTZA parse_other newErrorStack number_json js_add toLowerCase
      photoError ev event_id w o c db table in
  (forall k, k <> vid -> violations out.2 !! k = db !! k)
  /\ (is_Some (violations out.2 !! vid) <-> is_Some (db !! vid))
  /\ (forall before row,
        db !! vid = Some before -> violations out.2 !! vid = Some row ->
        biz_status row =
          match out.1 with
          | Resolved _ =>
              if w_parsed w then PARSED
              else if w_parsing w then PARSING else biz_status before
          | Rejected _ => if w_parsing w then PARSING else biz_status before
          end)
  /\ parseNOIWith LocalTZA parse_other newErrorStack number_json js_add toLowerCase
       photoError ev event_id (mkStatusWrites true true) o c db table
     = parseNOI LocalTZA parse_other newErrorStack number_json js_add toLowerCase
         photoError ev event_id o c db table
  /\ canTransition NEW PARSING = true /\ canTransition PARSING PARSED = true.
Proof.
  intros vid out.
  cut (sameStatus vid (statusUpdate (w_parsing w) markParsing vid db) (violations out.2)
         /\ (exists e, out.1 = Rejected e)
       \/ (exists db', sameStatus vid (statusUpdate (w_parsing w) markParsing vid db) db'
                       /\ sameStatus vid (statusUpdate (w_parsed w) markParsed vid db')
                            (violations out.2))
          /\ out.1 = Resolved ()).
  { destruct (statusUpdate_status (w_parsing w) markParsing vid db PARSING ltac:(done))
      as [A1 A2].
    intros [[[H1 H2] [e He]]|[(db' & [H1 H2] & [H3 H4]) He]].
    - split; [intros k Hk; by rewrite H1, A1|]. rewrite He.
      rewrite A2 in H2. split; [|split; [|done]].
      + rewrite <- (fmap_is_Some biz_status), H2, fmap_is_Some. done.
      + intros before row Hb Hr. rewrite Hr, Hb in H2. simpl in H2. congruence.
    - destruct (statusUpdate_status (w_parsed w) markParsed vid db' PARSED ltac:(done))
        as [B1 B2].
      split; [intros k Hk; by rewrite H3, B1, H1, A1|]. rewrite He.
      rewrite B2 in H4. rewrite A2 in H2. split; [|split; [|done]].
      + rewrite <- (fmap_is_Some biz_status), H4, fmap_is_Some.
        rewrite <- (fmap_is_Some biz_status (db' !! vid)), H2, fmap_is_Some. done.
      + intros before row Hb Hr. rewrite Hr in H4. rewrite Hb in H2.
        destruct (db' !! vid) as [row'|]; simpl in H2, H4; [|done].
        destruct (w_parsed w); congruence. }
  subst out. unfold parseNOIWith. fold vid.
  set (log := new_logger vid).
  set (db0 := (initStepWith ev event_id (w_parsing w) (c_init c) log db).2).
  assert (E0 : db0 = statusUpdate (w_parsing w) markParsing vid db) by reflexivity.
  rewrite <- E0. clearbody db0.
  pose proof (aiParseStep_sameStatus (c_ai c) (o_download o) (o_extraction o) log db0) as S1.
  destruct (aiParseStep _ _ _ _ _ log db0) as [[aiResult|e] [lg1 db1]]; cbn [fst snd] in *.
  2:{ left. split; [exact S1 | eauto]. }
  pose proof (insertRecordsStep_sameStatus (c_insert c) aiResult (o_update o) (o_insert o)
                (o_count o) log db1) as S2.
  destruct (insertRecordsStep _ _ _ _ _ _ _ _ _ _ log db1) as [[[[]|e] sent] [lg2 db2]];
    cbn [fst snd] in *.
  2:{ left. split; [by eapply sameStatus_trans | eauto]. }
  pose proof (analyzePagesStep_sameStatus (c_analyze c) (o_redownload o) (o_pageAnalysis o)
                log db2) as S3.
  destruct (analyzePagesStep _ _ _ _ log db2) as [[pages|e] [lg3 db3]]; cbn [fst snd] in *.
  2:{ left. split; [|eauto]. eapply sameStatus_trans; [|exact S3].
      by eapply sameStatus_trans. }
  pose proof (matchPhotosStep_sameStatus (c_match1 c) (c_match2 c) (c_match c) (o_items o)
                pages table log db3) as S4.
  set (mp := MatchPhotos.matchPhotosStep _ _ _ _ _ _ _ _ _ _ _) in *.
  right. split; [|reflexivity].
  unfold markCompleteStepWith.
  set (st1 := stepStart (lit "complete") (lit "Finalizing parse") _ log mp.1.2).
  exists st1.2. split.
  - eapply sameStatus_trans; [exact S1|]. eapply sameStatus_trans; [exact S2|].
    eapply sameStatus_trans; [exact S3|]. eapply sameStatus_trans; [exact S4|].
    apply (stepStart_sameStatus _ _ _ log).
  - cbn [violations]. fold vid.
    match goal with
    | |- context [stepComplete ?n ?m ?v ?e ?ck ?lg ?d] =>
        apply (stepComplete_sameStatus n m v e ck lg d)
    end.
Qed.

End Host.

End StatusPathFacts.

(** ** The progress bar and the timeline *)

Module ParseProgressFacts.

Import Ledger LedgerSpec LedgerRuns LedgerFacts LedgerRunsFacts2 ParseProgress.

Lemma foldl_progressStep l : forall a,
  foldl progressStep a l
  = a + foldr Z.add 0 ((fun s => if isVisible (step s) then shownWeight s else 0) <$> l).
Proof.
  induction l as [|s l IH]; intros a; [simpl; lia|].
  rewrite fmap_cons. cbn [foldl foldr]. rewrite IH. unfold progressStep, shownWeight.
  destruct (isVisible (step s)); cbn [negb]; [|lia].
  destruct (status s); lia.
Qed.

Lemma find_not_in n l :
  n ∉ step <$> l -> find (fun s => streq (step s) n) l = None.
Proof.
  induction l as [|s l IH]; [done|].
  rewrite fmap_cons. intros [H1 H2]%not_elem_of_cons.
  rewrite find_cons. rewrite (proj2 (streq_false (step s) n)) by congruence.
  by apply IH.
Qed.

(** One more entry, of a name the collection does not hold, adds its weight
    to the timeline exactly when its name is visible. *)
Lemma timeline_cons s l V :
  NoDup V -> step s ∉ step <$> l ->
  foldr Z.add 0
    ((fun n => shownWeight (default (mkStep n pending None None None None)
                              (find (fun s => streq (step s) n) (s :: l)))) <$> V)
  = (if existsb (streq (step s)) V then shownWeight s else 0)
    + foldr Z.add 0
        ((fun n => shownWeight (default (mkStep n pending None None None None)
                                  (find (fun s => streq (step s) n) l))) <$> V).
Proof.
  intros HV Hs. induction V as [|n V IH]; [done|].
  apply NoDup_cons in HV as [Hn HV]. specialize (IH HV).
  rewrite !fmap_cons. cbn [foldr existsb]. rewrite IH. rewrite find_cons.
  destruct (streq (step s) n) eqn:E.
  - apply streq_true in E. subst n. cbn [default orb].
    rewrite (find_not_in _ _ Hs). cbn [default].
    assert (Hex : existsb (streq (step s)) V = false).
    { apply not_true_is_false. intros Hex. apply existsb_exists in Hex as (m & Hm & Hsm).
      apply streq_true in Hsm. subst m. apply Hn. by apply list_elem_of_In. }
    rewrite Hex. unfold id.
    change (shownWeight (mkStep (step s) pending None None None None)) with 0. lia.
  - cbn [orb]. lia.
Qed.

Lemma NoDup_VISIBLE_STEPS : NoDup VISIBLE_STEPS.
Proof. apply (bool_decide_unpack _). vm_compute. exact I. Qed.

Lemma progress_timeline steps :
  NoDup (step <$> steps) ->
  progress steps = foldr Z.add 0 (shownWeight <$> visibleSteps steps).
Proof.
  unfold progress, visibleSteps. rewrite foldl_progressStep, <- list_fmap_compose.
  induction steps as [|s l IH]; [reflexivity|].
  rewrite fmap_cons. intros [Hs Hl]%NoDup_cons.
  rewrite fmap_cons. cbn [foldr].
  etransitivity; [|symmetry; apply (timeline_cons s l VISIBLE_STEPS NoDup_VISIBLE_STEPS Hs)].
  specialize (IH Hl). unfold compose in IH. rewrite <- IH. unfold isVisible. lia.
Qed.

Lemma shownWeight_bounds s :
  0 <= shownWeight s <= 20 /\ (shownWeight s = 20 <-> status s = completed).
Proof. unfold shownWeight. destruct (status s); vm_compute; intuition congruence. Qed.

Local Ltac in_list := repeat first [apply list_elem_of_here | apply list_elem_of_further].

(** The bar against the five entries of the timeline. *)
Lemma timeline_bounds steps :
  NoDup (step <$> steps) ->
  0 <= progress steps <= 100
  /\ (progress steps = 100 <-> forall s, s ∈ visibleSteps steps -> status s = completed)
  /\ (forall s, s ∈ visibleSteps steps -> status s = failed \/ status s = pending ->
        progress steps <= 80).
Proof.
  intros Hnd. rewrite (progress_timeline steps Hnd).
  set (e := fun n => default (mkStep n pending None None None None)
                       (find (fun s => streq (step s) n) steps)).
  assert (Hv : visibleSteps steps = e <$> VISIBLE_STEPS) by reflexivity.
  clearbody e. rewrite Hv. unfold VISIBLE_STEPS. rewrite !fmap_cons, !fmap_nil.
  cbn [foldr].
  pose proof (shownWeight_bounds (e (lit "ai_parse"))) as [B1 C1].
  pose proof (shownWeight_bounds (e (lit "insert_records"))) as [B2 C2].
  pose proof (shownWeight_bounds (e (lit "analyze_pages"))) as [B3 C3].
  pose proof (shownWeight_bounds (e (lit "match_photos"))) as [B4 C4].
  pose proof (shownWeight_bounds (e (lit "complete"))) as [B5 C5].
  split; [lia|]. split; [split|].
  - intros H s Hs.
    repeat (apply elem_of_cons in Hs as [->|Hs]);
      [apply C1 | apply C2 | apply C3 | apply C4 | apply C5 | by apply elem_of_nil in Hs];
      lia.
  - intros H.
    assert (shownWeight (e (lit "ai_parse")) = 20) by (apply C1, H; in_list).
    assert (shownWeight (e (lit "insert_records")) = 20) by (apply C2, H; in_list).
    assert (shownWeight (e (lit "analyze_pages")) = 20) by (apply C3, H; in_list).
    assert (shownWeight (e (lit "match_photos")) = 20) by (apply C4, H; in_list).
    assert (shownWeight (e (lit "complete")) = 20) by (apply C5, H; in_list).
    lia.
  - intros s Hs Hst.
    assert (H0 : shownWeight s = 0) by (unfold shownWeight; by destruct Hst as [-> | ->]).
    repeat (apply elem_of_cons in Hs as [->|Hs]); [lia.. | by apply elem_of_nil in Hs].
Qed.

Lemma visibleSteps_names steps : step <$> visibleSteps steps = VISIBLE_STEPS.
Proof.
  unfold visibleSteps. rewrite <- list_fmap_compose.
  apply list_eq. intros i. rewrite list_lookup_fmap.
  destruct (VISIBLE_STEPS !! i) as [n|] eqn:E; [|done]. simpl. f_equal.
  destruct (find _ steps) as [s|] eqn:F; [|done]. simpl.
  unfold find in F. destruct (list_find _ steps) as [[j x]|] eqn:G; [|done].
  injection F as ->. apply list_find_Some in G as (_ & G & _).
  apply Is_true_true in G. by apply streq_true in G.
Qed.

(** A collection that holds the names of [V], in that order, is its own
    timeline over [V]. *)
Lemma timeline_of_exact l : forall V,
  NoDup V -> step <$> l = V ->
  (fun n => default (mkStep n pending None None None None)
              (find (fun s => streq (step s) n) l)) <$> V = l.
Proof.
  induction l as [|s l IH]; intros V HV E.
  - by destruct V.
  - rewrite fmap_cons in E. subst V. apply NoDup_cons in HV as [Hs HV].
    rewrite fmap_cons. rewrite find_cons, streq_refl. cbn [default]. unfold id. f_equal.
    rewrite <- (IH (step <$> l) HV eq_refl) at 2.
    apply list_fmap_ext. intros i n Hn. rewrite find_cons.
    rewrite (proj2 (streq_false (step s) n)); [done|].
    intros Heq. apply Hs. rewrite Heq. by eapply list_elem_of_lookup_2.
Qed.

(** X17. When the steps of the metadata have distinct names, the progress
    bar agrees with the timeline under it: its value is the sum, over the
    five entries the timeline shows, of a full weight for an entry shown as
    completed and half a weight for one shown as running. The timeline has
    the five visible names in order; the bar is between 0 and 100, and is
    100 exactly when the five entries are shown as completed. *)
Theorem progress_bar_agrees_with_the_timeline steps :
  NoDup (step <$> steps) ->
  progress steps = foldr Z.add 0 (shownWeight <$> visibleSteps steps)
  /\ step <$> visibleSteps steps = VISIBLE_STEPS
  /\ 0 <= progress steps <= 100
  /\ (progress steps = 100 <-> forall s, s ∈ visibleSteps steps -> status s = completed).
Proof.
  intros Hnd. split; [by apply progress_timeline|]. split; [apply visibleSteps_names|].
  destruct (timeline_bounds steps Hnd) as (H1 & H2 & _). by split.
Qed.

(** The theorem on the steps persisted once [ai_parse] has completed: 20. *)
Lemma progress_bar_agrees_with_the_timeline_witness :
  NoDup (step <$> persistedSteps Runs.first_step_done.2 Runs.vid)
  /\ progress (persistedSteps Runs.first_step_done.2 Runs.vid) = 20.
Proof.
  assert (H : NoDup (step <$> persistedSteps Runs.first_step_done.2 Runs.vid))
    by (apply (bool_decide_unpack _); vm_compute; exact I).
  split; [exact H|].
  rewrite (proj1 (progress_bar_agrees_with_the_timeline _ H)). vm_compute. reflexivity.
Defined.

(** X18. On the ledger of a run that began with the row of the parse route,
    the timeline shows the persisted steps themselves; the bar is between 0
    and 100, is 100 exactly when the five persisted steps are completed, is
    100 whenever the workflow status is completed, and is at most 80 when a
    persisted step is failed. *)
Theorem bar_of_a_run_is_full_exactly_when_all_five_completed vid db cs :
  db !! vid = Some ParseRoute.initialRow ->
  Forall (fun c => forall n, stepOf c = Some n -> n ∈ knownSteps) cs ->
  let after := (run cs (new_logger vid, db)).2 in
  let shown := persistedSteps after vid in
  visibleSteps shown = shown
  /\ 0 <= progress shown <= 100
  /\ (progress shown = 100 <-> forall s, s ∈ shown -> status s = completed)
  /\ (persistedStatus after vid = Some (lit "completed") -> progress shown = 100)
  /\ ((exists s, s ∈ shown /\ status s = failed) -> progress shown <= 80).
Proof.
  intros Hrow Hcs after shown.
  assert (Hok : ledger_ok vid (new_logger vid, db)).
  { split; [reflexivity|]. split; [|apply Forall_nil_2].
    exists ParseRoute.initialRow. split; [exact Hrow|].
    unfold persistedSteps. simpl. rewrite Hrow. split; [reflexivity|].
    intros H. vm_compute in H. discriminate. }
  destruct (run_ok vid cs _ Hok Hcs) as (_ & (row & Hr & Hnames & Hdone) & _).
  fold after in Hr, Hnames, Hdone. fold shown in Hnames, Hdone.
  assert (Hnd : NoDup (step <$> shown)) by (rewrite Hnames; apply NoDup_VISIBLE_STEPS).
  assert (Hv : visibleSteps shown = shown)
    by (apply timeline_of_exact; [apply NoDup_VISIBLE_STEPS | exact Hnames]).
  destruct (timeline_bounds shown Hnd) as (H1 & H2 & H3). rewrite Hv in H2, H3.
  split; [exact Hv|]. split; [exact H1|]. split; [exact H2|]. split.
  - unfold persistedStatus. rewrite Hr. simpl. intros [= H]. apply H2. by apply Hdone.
  - intros (s & Hs & Hst). apply (H3 s Hs). by left.
Qed.

(** The theorem on a run whose first step fails: the bar stays at or below
    80. *)
Lemma bar_of_a_run_is_full_exactly_when_all_five_completed_witness :
  let cs := [MarkParsing; NewInvocation;
             Start (lit "ai_parse") (lit "Downloading PDF") (Runs.at_time Runs.T1);
             Fail (lit "ai_parse") (lit "PDF download failed") None (Runs.at_time Runs.T2)] in
  progress (persistedSteps (run cs (new_logger (lit "v1"), PipelineRuns.routed)).2 (lit "v1"))
  <= 80.
Proof.
  intros cs.
  assert (Hcs : Forall (fun c => forall n, stepOf c = Some n -> n ∈ knownSteps) cs).
  { repeat (apply Forall_cons; split; [intros n Hn; simpl in Hn|]); try discriminate;
      try apply Forall_nil_2;
      injection Hn as <-; apply (bool_decide_unpack _); vm_compute; exact I. }
  apply (bar_of_a_run_is_full_exactly_when_all_five_completed (lit "v1")
           PipelineRuns.routed cs eq_refl Hcs).
  assert (H : match persistedSteps (run cs (new_logger (lit "v1"), PipelineRuns.routed)).2
                  (lit "v1") with
              | s :: _ => status s = failed
              | [] => False
              end) by (vm_compute; reflexivity).
  destruct (persistedSteps _ _) as [|s l]; [destruct H|].
  exists s. split; [left | exact H].
Defined.

End ParseProgressFacts.

(** ** Photo rows: counts, a second run, and the groups shown *)

Module PhotoRowsFacts.

Import MatchPhotos MatchPhotosSpec MatchPhotosFacts Gemini PhotoGroups.

Lemma length_filter_impl {A} (P Q : A -> bool) (l : list A) :
  (forall x, P x = true -> Q x = true) ->
  (length (filter (fun x => P x = true) l) <= length (List.filter Q l))%nat.
Proof.
  intros H. induction l as [|x l IH]; [done|]. simpl.
  destruct (P x) eqn:E.
  - rewrite filter_cons_True by done. rewrite (H x E). simpl. lia.
  - rewrite filter_cons_False by (by rewrite E). destruct (Q x); simpl; lia.
Qed.

Lemma length_List_filter {A} (Q : A -> bool) (l : list A) :
  (length (List.filter Q l) <= length l)%nat.
Proof. induction l as [|x l IH]; [done|]. simpl. destruct (Q x); simpl; lia. Qed.

(** What the match writes, for any items. *)
Lemma matchPhotos_added toLowerCase photoError ev items pages table :
  exists added,
    (matchPhotos toLowerCase photoError ev items pages table).1 = table ++ added
    /\ (length added <= length (filter (fun p => qualifies p = true) pages))%nat
    /\ (forall st, (matchPhotos toLowerCase photoError ev items pages table).2 = Some st ->
          matchedCount st = Z.of_nat (length added)
          /\ (0 <= unmatchedCount st
              <= Z.of_nat (length (filter (fun p => qualifies p = true) pages))))
    /\ ((forall t r, photoError t r = None) ->
        added = photoRow toLowerCase ev (default [] items)
                  <$> (if bool_decide (default [] items = []) then []
                       else filter (fun p => qualifies p = true) pages)).
Proof.
  unfold matchPhotos. destruct items as [[|it items]|].
  - exists []. rewrite app_nil_r. split; [done|]. split; [simpl; lia|]. by split.
  - destruct (loop_spec toLowerCase photoError ev (it :: items) pages (loopInit table))
      as (added & H1 & H2 & H3 & H4 & H5).
    exists added. split; [exact H1|]. split.
    + apply sublist_length in H2. by rewrite length_fmap in H2.
    + split; [|exact H5].
      intros st [= <-]. split; [rewrite H3; simpl; lia|].
      rewrite H4. simpl.
      assert (length (filter (fun p => unmatched toLowerCase (it :: items) p = true) pages)
              <= length (filter (fun p => qualifies p = true) pages))%nat; [|lia].
      clear. induction pages as [|p pages IH]; [done|].
      destruct (unmatched toLowerCase (it :: items) p) eqn:E.
      * rewrite filter_cons_True by done.
        rewrite (filter_cons_True (fun p => qualifies p = true))
          by (by apply (unmatched_qualifies toLowerCase (it :: items))).
        simpl. lia.
      * rewrite filter_cons_False by (by rewrite E).
        destruct (qualifies p) eqn:Q.
        -- rewrite filter_cons_True by done. simpl. lia.
        -- rewrite filter_cons_False by (by rewrite Q). lia.
  - exists []. rewrite app_nil_r. split; [done|]. split; [simpl; lia|]. by split.
Qed.

(** X19. The counts that [analyzePdfPages] reports bound what
    [match-photos] writes from the same pages: the evidence photo count and
    the count of pages with a code are at most the page count, and the
    photo rows added, the inserted counter and the unmatched counter are
    each at most the evidence photo count and at most the count of pages
    with a code, whatever the items and whatever the store answers. *)
Theorem photo_rows_within_the_analysis_counts toLowerCase photoError ev items pages
    table text_len pdf_len u :
  let m := pages_meta (analyzePdfPages_response pages text_len pdf_len u) in
  let out := matchPhotos toLowerCase photoError ev items pages table in
  0 <= evidence_photo_count m <= total_pages m
  /\ 0 <= pages_with_codes m <= total_pages m
  /\ exists added,
       out.1 = table ++ added
       /\ Z.of_nat (length added) <= evidence_photo_count m
       /\ Z.of_nat (length added) <= pages_with_codes m
       /\ forall st, out.2 = Some st ->
            matchedCount st = Z.of_nat (length added)
            /\ 0 <= unmatchedCount st <= evidence_photo_count m
            /\ unmatchedCount st <= pages_with_codes m.
Proof.
  intros m out. subst m out. cbn [pages_meta analyzePdfPages_response evidence_photo_count
    total_pages pages_with_codes].
  pose proof (length_List_filter is_evidence_photo pages) as L1.
  pose proof (length_List_filter (fun p => truthy_opt (violation_code p)) pages) as L2.
  assert (Q1 : (length (filter (fun p => qualifies p = true) pages)
                <= length (List.filter is_evidence_photo pages))%nat).
  { apply length_filter_impl. unfold qualifies. by intros p [? _]%andb_true_iff. }
  assert (Q2 : (length (filter (fun p => qualifies p = true) pages)
                <= length (List.filter (fun p => truthy_opt (violation_code p)) pages))%nat).
  { apply (length_filter_impl qualifies). unfold qualifies. by intros p [_ ?]%andb_true_iff. }
  split; [lia|]. split; [lia|].
  destruct (matchPhotos_added toLowerCase photoError ev items pages table)
    as (added & H1 & H2 & H3 & _).
  exists added. split; [exact H1|]. split; [lia|]. split; [lia|].
  intros st Hst. destruct (H3 st Hst) as (H4 & H5). split; [exact H4|]. lia.
Qed.

(** X20. The match does not look at the photo rows that are there: on a
    store that writes every row, running it a second time on the same items
    and pages adds the same rows a second time. *)
Theorem a_second_match_writes_every_row_again toLowerCase photoError ev items pages table :
  (forall t r, photoError t r = None) ->
  let once := matchPhotos toLowerCase photoError ev items pages table in
  let twice := matchPhotos toLowerCase photoError ev items pages once.1 in
  exists added,
    once.1 = table ++ added /\ twice.1 = table ++ added ++ added
    /\ (items <> None -> items <> Some [] ->
        added = photoRow toLowerCase ev (default [] items)
                  <$> filter (fun p => qualifies p = true) pages).
Proof.
  intros Hok once twice. subst twice once.
  destruct (matchPhotos_added toLowerCase photoError ev items pages table)
    as (added & H1 & _ & _ & H4).
  destruct (matchPhotos_added toLowerCase photoError ev items pages
              (matchPhotos toLowerCase photoError ev items pages table).1)
    as (added' & H1' & _ & _ & H4').
  exists added. split; [exact H1|]. split.
  - rewrite H1', H1, (H4' Hok), <- (H4 Hok). by rewrite app_assoc.
  - intros Hn He. rewrite (H4 Hok). rewrite bool_decide_eq_false_2; [done|].
    destruct items as [[|]|]; done.
Qed.

(** The theorem on one item and one evidence page: two rows after the
    second run. *)
Lemma a_second_match_writes_every_row_again_witness :
  let pages := [page_of 3 (Some code_page) true] in
  let items := Some [mkItem (lit "a") (Some code_regular)] in
  length (matchPhotos latin1_toLowerCase accept_all event items pages
            (matchPhotos latin1_toLowerCase accept_all event items pages []).1).1 = 2%nat.
Proof.
  intros pages items.
  destruct (a_second_match_writes_every_row_again latin1_toLowerCase accept_all event
              items pages [] (fun _ _ => eq_refl)) as (added & H1 & H2 & H3).
  rewrite H2. rewrite H3 by done. vm_compute. reflexivity.
Defined.

Section Photos.

Variable Photo : Type.
Variable item_id : Photo -> option jsstring.

Abbreviation groupStep := (groupStep Photo item_id).
Abbreviation groupPhotos := (groupPhotos Photo item_id).

Lemma groups_spec photos : forall g : Groups Photo,
  let g' := foldl groupStep g photos in
  g'.2 = g.2 ++ filter (fun p => truthy_opt (item_id p) = false) photos
  /\ (forall id, itemPhotos Photo g' id
                 = itemPhotos Photo g id ++ filter (ofItem Photo item_id id) photos)
  /\ (forall id, is_Some (g'.1 !! id)
                 <-> is_Some (g.1 !! id) \/ filter (ofItem Photo item_id id) photos <> []).
Proof.
  induction photos as [|p photos IH]; intros g g'.
  - subst g'. simpl. rewrite app_nil_r. split; [done|]. split.
    + intros id. by rewrite app_nil_r.
    + intros id. split; [by left | by intros [?|?]].
  - subst g'. cbn [foldl]. destruct (IH (groupStep g p)) as (I1 & I2 & I3).
    unfold PhotoGroups.groupStep in *. unfold itemPhotos in *.
    assert (Hother : forall id, item_id p <> Some id \/ id = [] ->
              filter (ofItem Photo item_id id) (p :: photos)
              = filter (ofItem Photo item_id id) photos).
    { intros id H. apply filter_cons_False. intros [H1 H2]. by destruct H. }
    destruct (truthy_opt (item_id p)) eqn:T.
    + destruct (item_id p) as [[|c key]|] eqn:E; try discriminate. cbn [default] in *.
      unfold Datatypes.id in *.
      rewrite I1. cbn [fst snd].
      rewrite (filter_cons_False (fun p => truthy_opt (item_id p) = false))
        by (by rewrite E).
      split; [done|]. split.
      * intros id. rewrite I2. cbn [fst].
        destruct (decide (id = c :: key)) as [->|Hne].
        -- rewrite lookup_insert_eq. cbn [default].
           rewrite (filter_cons_True (ofItem Photo item_id (c :: key))) by (by split).
           unfold Datatypes.id. by rewrite <- app_assoc.
        -- rewrite lookup_insert_ne by done. rewrite Hother; [done|]. left. congruence.
      * intros id. rewrite I3. cbn [fst].
        destruct (decide (id = c :: key)) as [->|Hne].
        -- rewrite lookup_insert_eq.
           rewrite (filter_cons_True (ofItem Photo item_id (c :: key))) by (by split).
           split; [intros _; by right | intros _; left; eauto].
        -- rewrite lookup_insert_ne by done. rewrite Hother; [done|]. left. congruence.
    + rewrite I1. cbn [fst snd].
      rewrite (filter_cons_True (fun p => truthy_opt (item_id p) = false)) by done.
      rewrite <- app_assoc.
      assert (Hno : forall id, item_id p <> Some id \/ id = []).
      { intros id. destruct (item_id p) as [[|c key]|] eqn:E; try discriminate.
        - destruct id; [by right | left; congruence].
        - by left. }
      split; [done|]. split.
      * intros id. rewrite I2. cbn [fst]. by rewrite Hother.
      * intros id. rewrite I3. cbn [fst]. by rewrite Hother.
Qed.

(** X21. The grouping of the detail page and of the parsed results. The
    unmatched photos are the photos with no item id, or an empty one, in
    their order; the photos of an item id are the photos with that id, in
    their order; the map has no empty group and no empty key; and a photo
    is in the list exactly when it is unmatched or in the group of its item
    id. *)
Theorem every_photo_is_in_one_group photos :
  let g := groupPhotos photos in
  g.2 = filter (fun p => truthy_opt (item_id p) = false) photos
  /\ (forall id, itemPhotos Photo g id = filter (ofItem Photo item_id id) photos)
  /\ (forall id l, g.1 !! id = Some l -> l <> [] /\ id <> [])
  /\ (forall p, p ∈ photos <->
        p ∈ g.2 \/ exists id, item_id p = Some id /\ p ∈ itemPhotos Photo g id).
Proof.
  intros g. destruct (groups_spec photos (∅, [])) as (H1 & H2' & H3).
  fold (groupPhotos photos) in H1, H2', H3. fold g in H1, H2', H3.
  cbn [fst snd app] in H1, H3.
  assert (H2 : forall id, itemPhotos Photo g id = filter (ofItem Photo item_id id) photos).
  { intros id. rewrite H2'. unfold itemPhotos. cbn [fst]. by rewrite lookup_empty. }
  split; [exact H1|]. split; [exact H2|]. split.
  - intros id l Hl. specialize (H2 id). unfold itemPhotos in H2. rewrite Hl in H2.
    cbn [default] in H2.
    assert (Hs : is_Some (g.1 !! id)) by eauto.
    apply H3 in Hs as [Hs|Hs]; [rewrite lookup_empty in Hs; by destruct Hs|].
    rewrite <- H2 in Hs. split; [exact Hs|].
    destruct l as [|p l]; [done|].
    assert (Hp : p ∈ filter (ofItem Photo item_id id) photos) by (rewrite <- H2; left).
    apply list_elem_of_filter in Hp as [[_ Hne] _]. exact Hne.
  - intros p. rewrite H1. split.
    + intros Hp. destruct (item_id p) as [[|c id]|] eqn:E.
      * left. apply list_elem_of_filter. by rewrite E.
      * right. exists (c :: id). split; [done|]. rewrite H2.
        apply list_elem_of_filter. by split.
      * left. apply list_elem_of_filter. by rewrite E.
    + intros [Hp|(id & _ & Hp)].
      * by apply list_elem_of_filter in Hp as [_ ?].
      * rewrite H2 in Hp. by apply list_elem_of_filter in Hp as [_ ?].
Qed.

End Photos.


End PhotoRowsFacts.

(** ** The CSV import *)

Module CsvImportFacts.

Import Ledger LedgerFacts ParseRoute CsvImport JsDate.

Lemma find_elem {A} (P : A -> bool) l x : find P l = Some x -> x ∈ l /\ P x = true.
Proof.
  induction l as [|y l IH]; [done|]. rewrite find_cons.
  destruct (P y) eqn:E.
  - intros [= ->]. split; [left | done].
  - intros H. destruct (IH H). split; [by right | done].
Qed.

(** With distinct headers, the cell of an entry's header is the entry's. *)
Lemma cell_of_entry (row : ParsedRow) e :
  NoDup row.*1 -> e ∈ row -> cell row e.1 = Some e.2.
Proof.
  unfold cell. induction row as [|x row IH]; [by intros _ ?%elem_of_nil|].
  rewrite fmap_cons. intros [Hx Hnd]%NoDup_cons He. rewrite find_cons.
  apply elem_of_cons in He as [->|He].
  - by rewrite streq_refl.
  - rewrite (proj2 (streq_false x.1 e.1)); [by apply IH|].
    intros Heq. apply Hx. rewrite Heq. apply list_elem_of_fmap. eauto.
Qed.

Section Host.

Variable toLowerCase : jsstring -> jsstring.

Abbreviation normalizeHeader := (normalizeHeader toLowerCase).
Abbreviation findValue := (findValue toLowerCase).
Abbreviation mapColumns := (mapColumns toLowerCase).
Abbreviation selected := (selected toLowerCase).
Abbreviation sameColumns := (sameColumns toLowerCase).

Lemma findValue_cons row key keys :
  NoDup row.*1 ->
  findValue row (key :: keys)
  = match selected row key with
    | Some e => if truthy e.1 && truthy e.2 then e.2 else findValue row keys
    | None => findValue row keys
    end.
Proof.
  intros Hnd. cbn [CsvImport.findValue]. unfold CsvImport.selected.
  destruct (find _ row) as [e|] eqn:E; [|done].
  apply find_elem in E as [He _]. by rewrite (cell_of_entry row e Hnd He).
Qed.

Lemma findValue_sound row keys :
  NoDup row.*1 -> findValue row keys <> [] ->
  exists k key,
    (k, findValue row keys) ∈ row /\ key ∈ keys /\ k <> []
    /\ normalizeHeader k = normalizeHeader key.
Proof.
  intros Hnd. induction keys as [|key keys IH]; [done|].
  rewrite findValue_cons by done. unfold CsvImport.selected.
  destruct (find _ row) as [[k v]|] eqn:E.
  - cbn [fst snd]. destruct (truthy k && truthy v) eqn:T.
    + intros _. apply find_elem in E as [He Hn]. apply streq_true in Hn.
      apply andb_true_iff in T as [Tk _].
      exists k, key. split; [exact He|]. split; [left|]. split; [by destruct k | exact Hn].
    + intros H. destruct (IH H) as (k' & key' & H1 & H2 & H3 & H4).
      exists k', key'. split; [exact H1|]. split; [by right | done].
  - intros H. destruct (IH H) as (k' & key' & H1 & H2 & H3 & H4).
    exists k', key'. split; [exact H1|]. split; [by right | done].
Qed.

Lemma selected_same row row' key :
  sameColumns row row' ->
  match selected row key, selected row' key with
  | Some e, Some e' => truthy e.1 = truthy e'.1 /\ e.2 = e'.2
  | None, None => True
  | _, _ => False
  end.
Proof.
  unfold CsvImport.selected. induction 1 as [|e e' row row' (H1 & H2 & H3) _ IH]; [done|].
  rewrite !find_cons, <- H1.
  by destruct (streq (normalizeHeader e.1) (normalizeHeader key)).
Qed.

Lemma findValue_same row row' keys :
  NoDup row.*1 -> NoDup row'.*1 -> sameColumns row row' ->
  findValue row keys = findValue row' keys.
Proof.
  intros Hnd Hnd' Hs. induction keys as [|key keys IH]; [done|].
  rewrite !findValue_cons by done.
  pose proof (selected_same row row' key Hs) as H.
  destruct (selected row key) as [e|], (selected row' key) as [e'|]; try done.
  destruct H as [-> ->]. by rewrite IH.
Qed.

(** X23. [mapColumns] reads the headers of a row up to case, underscores,
    white space and hyphens: two rows with distinct headers that agree
    column by column up to that normalization, with the same values, are
    mapped to the same object. A value [findValue] returns that is not
    empty is the value of a column whose header is not empty and normalizes
    to one of the accepted names. The first accepted name whose column has
    a header and a value wins; when the first column matching a name has an
    empty value, the name is passed over. The mapped status is never empty. *)
Theorem columns_are_found_by_normalized_header :
  (forall row row',
     NoDup row.*1 -> NoDup row'.*1 -> sameColumns row row' ->
     mapColumns row = mapColumns row')
  /\ (forall row keys,
        NoDup row.*1 -> findValue row keys <> [] ->
        exists k key,
          (k, findValue row keys) ∈ row /\ key ∈ keys /\ k <> []
          /\ normalizeHeader k = normalizeHeader key)
  /\ (forall row key keys e,
        NoDup row.*1 -> selected row key = Some e -> e.1 <> [] -> e.2 <> [] ->
        findValue row (key :: keys) = e.2)
  /\ (forall row key keys e,
        NoDup row.*1 -> selected row key = Some e -> e.2 = [] ->
        findValue row (key :: keys) = findValue row keys)
  /\ (forall row, m_status (mapColumns row) <> []).
Proof.
  split; [|split; [|split; [|split]]].
  - intros row row' Hnd Hnd' Hs. unfold CsvImport.mapColumns.
    by rewrite !(findValue_same row row' _ Hnd Hnd' Hs).
  - apply findValue_sound.
  - intros row key keys [k v] Hnd He Hk Hv. rewrite findValue_cons, He by done.
    cbn [fst snd] in *. by destruct k, v.
  - intros row key keys [k v] Hnd He Hv. rewrite findValue_cons, He by done.
    cbn [fst snd] in *. subst v. by rewrite andb_false_r.
  - intros row. cbn [m_status CsvImport.mapColumns].
    by destruct (CsvImport.findValue toLowerCase row status_keys).
Qed.

End Host.

(** The theorem on a row with the columns Notice ID and notice_id: the
    first one is taken. *)
Lemma columns_are_found_by_normalized_header_witness :
  let row := [(lit "Notice ID", lit "25NOIR-1"); (lit "notice_id", lit "x")] in
  NoDup row.*1
  /\ selected latin1_toLowerCase row (lit "notice_id") = Some (lit "Notice ID", lit "25NOIR-1")
  /\ m_notice_id (mapColumns latin1_toLowerCase row) = lit "25NOIR-1".
Proof.
  intros row.
  assert (Hnd : NoDup row.*1) by (apply (bool_decide_unpack _); vm_compute; exact I).
  assert (Hs : selected latin1_toLowerCase row (lit "notice_id")
               = Some (lit "Notice ID", lit "25NOIR-1")) by (vm_compute; reflexivity).
  split; [exact Hnd|]. split; [exact Hs|].
  destruct (columns_are_found_by_normalized_header latin1_toLowerCase) as (_ & _ & H3 & _).
  apply (H3 row (lit "notice_id")
           [lit "noticeid"; lit "noi"; lit "noinumber"; lit "noi_number"] _ Hnd Hs);
    discriminate.
Defined.

(** *** The import route *)

Lemma importRecords_spec org vs recs :
  importRecords org vs = Returns recs ->
  length recs = length vs
  /\ Forall2 (fun v r => v <> JNull /\ importRecord org v = Returns r) vs recs.
Proof.
  revert recs. induction vs as [|v vs IH]; intros recs.
  - intros [= <-]. by split.
  - cbn [importRecords]. destruct (importRecord org v) as [r|e] eqn:E; [|done].
    destruct (importRecords org vs) as [rs|e] eqn:E'; [|done].
    intros [= <-]. destruct (IH rs eq_refl) as [H1 H2].
    split; [simpl; by rewrite H1|]. constructor; [|exact H2].
    split; [|exact E]. intros ->. discriminate.
Qed.

Lemma importRecord_fields org v r :
  importRecord org v = Returns r ->
  r_org_id r = org /\ r_source r = lit "csv_import"
  /\ r_status r <> JNull /\ truthyJson (r_status r) = true.
Proof.
  unfold importRecord. intros H.
  assert (Hs : forall o, or_else o (JStr (lit "NEW")) <> JNull
                         /\ truthyJson (or_else o (JStr (lit "NEW"))) = true).
  { intros [x|]; simpl; [|done]. destruct (truthyJson x) eqn:T; [|done].
    split; [|done]. intros ->. discriminate. }
  destruct v; try discriminate; injection H as <-; cbn [r_org_id r_source r_status];
    (split; [done|]; split; [done|]; first [apply Hs | apply (Hs None)]).
Qed.

(** X24. What the import route does when it returns. Records are sent to
    the store only for an authenticated caller whose profile has a manager
    role and a body whose [violations] is a non-empty array: one record per
    element, each under the organisation of the caller's profile, with
    source csv_import and a status that is not null. The response is 200
    exactly when records were sent and the store answered no error, 401 for
    a caller who is not authenticated and 403 for one without a manager
    role. *)
Theorem import_route_inserts_under_the_callers_organisation req answer h :
  POST req answer = Returns h ->
  (forall recs, import_records h = Some recs ->
     authError req = false /\ is_Some (user req)
     /\ exists p vs,
          profile req = Some p /\ managerRole (role p) = true
          /\ get_field (body req) "violations" = Some (JArr vs) /\ vs <> []
          /\ length recs = length vs
          /\ forall r, r ∈ recs ->
               r_org_id r = org_id p /\ r_source r = lit "csv_import"
               /\ r_status r <> JNull)
  /\ (http_status (import_response h) = 200
      <-> is_Some (import_records h) /\ importError answer = None)
  /\ (authError req = true \/ user req = None -> http_status (import_response h) = 401)
  /\ (authError req = false -> is_Some (user req) ->
      (forall p, profile req = Some p -> managerRole (role p) = false) ->
      http_status (import_response h) = 403).
Proof.
  intros H. unfold POST in H.
  destruct (authError req) eqn:Ha; cbn [orb] in H.
  { injection H as <-. simpl. split; [done|]. split; [by split; [|intros [[? ?] _]]|].
    split; [done|]. done. }
  destruct (user req) as [u|] eqn:Hu; cbn [negb] in H.
  2:{ rewrite bool_decide_eq_false_2 in H by (by intros [? ?]). cbn [negb] in H.
      injection H as <-. simpl. split; [done|]. split; [by split; [|intros [[? ?] _]]|].
      split; [done|]. by intros _ [? ?]. }
  rewrite bool_decide_eq_true_2 in H by eauto. cbn [negb] in H.
  destruct (profile req) as [p|] eqn:Hp.
  2:{ injection H as <-. simpl. split; [done|]. split; [by split; [|intros [[? ?] _]]|].
      split; [by intros [?|?]|]. done. }
  destruct (managerRole (role p)) eqn:Hm.
  2:{ injection H as <-. simpl. split; [done|]. split; [by split; [|intros [[? ?] _]]|].
      split; [by intros [?|?]|]. done. }
  assert (Hno403 : forall c : Z, ((forall p0, Some p = Some p0 -> managerRole (role p0) = false)
                                  -> c = 403)).
  { intros c Hall. specialize (Hall p eq_refl). congruence. }
  assert (Hbody : body req <> JNull) by (intros E; rewrite E in H; discriminate).
  assert (H' : match get_field (body req) "violations" with
               | Some (JArr (v :: vs)) =>
                   match importRecords (org_id p) (v :: vs) with
                   | Throws e => Throws e
                   | Returns recs =>
                       match importError answer with
                       | Some msg =>
                           Returns (mkImported (Some recs) (mkResponse 500 [("error", JStr msg)]))
                       | None =>
                           Returns
                             (mkImported (Some recs)
                                (mkResponse 200
                                   [("imported", JNum (returned answer));
                                    ("message",
                                     JStr (lit "Successfully imported "
                                           ++ Number_toString (returned answer)
                                           ++ lit " violations"))]))
                       end
                   end
               | _ => Returns (mkImported None
                                 (errorResponse (lit "violations array is required") 400))
               end = Returns h) by (destruct (body req); done).
  clear H.
  assert (H400 : forall h0, h0 = mkImported None
                              (errorResponse (lit "violations array is required") 400) ->
            (forall recs, import_records h0 = Some recs -> False)
            /\ (http_status (import_response h0) = 200
                <-> is_Some (import_records h0) /\ importError answer = None)).
  { intros h0 ->. simpl. split; [done|]. by split; [|intros [[? ?] _]]. }
  destruct (get_field (body req) "violations") as [[| | | |[|v vs]|]|] eqn:Hv;
    try (injection H' as <-; destruct (H400 _ eq_refl) as [A B];
         split; [intros recs Hr; by destruct (A recs Hr)|];
         split; [exact B|]; split; [by intros [?|?] | intros _ _; apply Hno403]).
  destruct (importRecords (org_id p) (v :: vs)) as [recs|e] eqn:Hr; [|done].
  destruct (importRecords_spec _ _ _ Hr) as [Hlen Hall].
  assert (Hrecs : forall recs0, Some recs = Some recs0 ->
            false = false /\ is_Some (Some u)
            /\ exists p0 vs0,
                 Some p = Some p0 /\ managerRole (role p0) = true
                 /\ Some (JArr (v :: vs)) = Some (JArr vs0) /\ vs0 <> []
                 /\ length recs0 = length vs0
                 /\ forall r, r ∈ recs0 ->
                      r_org_id r = org_id p0 /\ r_source r = lit "csv_import"
                      /\ r_status r <> JNull).
  { intros recs0 [= <-]. split; [done|]. split; [eauto|].
    exists p, (v :: vs). split; [done|]. split; [done|]. split; [done|]. split; [done|].
    split; [exact Hlen|].
    intros r Hin. apply list_elem_of_lookup in Hin as [i Hi].
    destruct (Forall2_lookup_r _ _ _ _ _ Hall Hi) as (v0 & _ & _ & Hv0).
    destruct (importRecord_fields _ _ _ Hv0) as (F1 & F2 & F3 & _). done. }
  destruct (importError answer) as [msg|] eqn:He; injection H' as <-; simpl.
  - split; [exact Hrecs|]. split; [by split; [|intros [_ ?]]|].
    split; [by intros [?|?] | intros _ _; apply Hno403].
  - split; [exact Hrecs|]. split; [split; [eauto | done]|].
    split; [by intros [?|?] | intros _ _; apply Hno403].
Qed.


(** The theorem on an administrator's import of one mapped row. *)
Lemma import_route_inserts_under_the_callers_organisation_witness :
  let req :=
    mkRequest (Some (lit "u1")) false
      (JObj [("violations",
              JArr [mapped_json (mapColumns latin1_toLowerCase
                                   [(lit "Notice ID", lit "25NOIR-1")])])])
      (Some (mkProfile (lit "org") (lit "ADMIN"))) in
  exists h, POST req (mkImportAnswer None 1) = Returns h
            /\ http_status (import_response h) = 200
            /\ forall recs, import_records h = Some recs -> length recs = 1%nat.
Proof.
  intros req.
  assert (H : exists h, POST req (mkImportAnswer None 1) = Returns h
                        /\ is_Some (import_records h))
    by (vm_compute; eauto).
  destruct H as (h & Hh & Hs). exists h. split; [exact Hh|].
  destruct (import_route_inserts_under_the_callers_organisation req _ h Hh)
    as (H1 & H2 & _).
  split; [by apply H2|].
  intros recs Hr. destruct (H1 recs Hr) as (_ & _ & p & vs & _ & _ & Hv & _ & Hlen & _).
  rewrite Hlen. injection Hv as <-. reflexivity.
Defined.

(** X25. A row mapped by [mapColumns] and sent to the import route always
    gives a record: the text fields that were not found are null, the
    status is the status column or NEW, the priority is 3 when no priority
    was found and otherwise what [parseInt] reads of it, which is NaN for a
    text that starts with no integer, and the fines are null when none were
    found and otherwise what [parseFloat] reads once dollar signs and
    commas are removed. *)
Theorem a_mapped_row_is_imported_with_defaults toLowerCase org row :
  let m := mapColumns toLowerCase row in
  let text (s : jsstring) := if truthy s then JStr s else JNull in
  exists r,
    importRecord org (mapped_json m) = Returns r
    /\ r_org_id r = org /\ r_source r = lit "csv_import"
    /\ r_notice_id r = text (m_notice_id m)
    /\ r_respondent r = text (m_respondent m)
    /\ r_infraction_address r = text (m_infraction_address m)
    /\ r_date_of_service r = text (m_date_of_service m)
    /\ r_abatement_deadline r = text (m_abatement_deadline m)
    /\ r_notes r = text (m_notes m)
    /\ r_status r
       = JStr (if truthy (findValue toLowerCase row status_keys)
               then findValue toLowerCase row status_keys else lit "NEW")
    /\ r_priority r
       = (if truthy (m_priority m) then parseInt (m_priority m) else Some 3)
    /\ r_total_fines r
       = (if truthy (m_total_fines m)
          then Some (parseFloat (strip_dollar_comma (m_total_fines m))) else None).
Proof.
  intros m text. eexists. split; [reflexivity|].
  cbn [r_org_id r_source r_notice_id r_respondent r_infraction_address r_date_of_service
       r_abatement_deadline r_notes r_status r_priority r_total_fines].
  assert (Hg : forall k v, List.In (k, v)
                 [("notice_id", m_notice_id m); ("respondent", m_respondent m);
                  ("infraction_address", m_infraction_address m);
                  ("date_of_service", m_date_of_service m);
                  ("total_fines", m_total_fines m); ("priority", m_priority m);
                  ("abatement_deadline", m_abatement_deadline m);
                  ("notes", m_notes m); ("status", m_status m)] ->
               get_field (mapped_json m) k = Some (JStr v)).
  { intros k v Hin. simpl in Hin.
    repeat (destruct Hin as [[= <- <-]|Hin]; [reflexivity|]). destruct Hin. }
  rewrite (Hg "notice_id" (m_notice_id m)) by (simpl; tauto).
  rewrite (Hg "respondent" (m_respondent m)) by (simpl; tauto).
  rewrite (Hg "infraction_address" (m_infraction_address m)) by (simpl; tauto).
  rewrite (Hg "date_of_service" (m_date_of_service m)) by (simpl; tauto).
  rewrite (Hg "total_fines" (m_total_fines m)) by (simpl; tauto).
  rewrite (Hg "priority" (m_priority m)) by (simpl; tauto).
  rewrite (Hg "abatement_deadline" (m_abatement_deadline m)) by (simpl; tauto).
  rewrite (Hg "notes" (m_notes m)) by (simpl; tauto).
  rewrite (Hg "status" (m_status m)) by (simpl; tauto).
  assert (Ha : get_field (mapped_json m) "address" = None) by reflexivity.
  rewrite Ha. cbn [or_else truthyJson truthyField default js_String].
  subst text. cbn beta.
  repeat (split; [reflexivity || (by destruct (truthy _))|]).
  split.
  - cbn [m_status CsvImport.mapColumns m].
    subst m. cbn [m_status CsvImport.mapColumns].
    destruct (truthy (findValue toLowerCase row status_keys)) eqn:T; [by rewrite T|].
    reflexivity.
  - split; reflexivity.
Qed.

End CsvImportFacts.

(** ** The pages of the violation list *)

Module PaginationFacts.

Import Pagination StatusDisplay.

Lemma ceilDiv_spec x d : 0 < d -> (ceilDiv x d - 1) * d < x <= ceilDiv x d * d.
Proof.
  intros Hd. unfold ceilDiv.
  pose proof (Z.div_mod (- x) d ltac:(lia)). pose proof (Z.mod_pos_bound (- x) d Hd). nia.
Qed.

(** X26. For a positive page size and a count of rows, the ranges the route
    selects for the pages 1 to totalPages tile the rows: each row lies in
    the range of one page only, page i div pageSize + 1, which is at most
    totalPages; totalPages is 0 exactly when there is no row; the range of
    a page beyond totalPages starts past the last row; on each page up to
    totalPages the table's label names the first and the last row of the
    range, at least one row; and the pager's enabled buttons lead to a page
    between 1 and totalPages. *)
Theorem pages_tile_the_rows pageSize total :
  0 < pageSize -> 0 <= total ->
  let pages := totalPages total pageSize in
  (pages = 0 <-> total = 0)
  /\ (forall i, 0 <= i < total ->
        let page := i / pageSize + 1 in
        1 <= page <= pages
        /\ (rangeOf page pageSize).1 <= i <= (rangeOf page pageSize).2
        /\ forall page', (rangeOf page' pageSize).1 <= i <= (rangeOf page' pageSize).2 ->
                         page' = page)
  /\ (forall page, 1 <= page <= pages ->
        (showing page pageSize total).1 = (rangeOf page pageSize).1 + 1
        /\ (showing page pageSize total).2
           = Z.min (rangeOf page pageSize).2 (total - 1) + 1
        /\ (showing page pageSize total).1 <= (showing page pageSize total).2)
  /\ (forall page, pages < page -> total <= (rangeOf page pageSize).1)
  /\ (forall page, 1 <= page <= pages ->
        (prevDisabled page = false -> 1 <= page - 1 <= pages)
        /\ (nextDisabled page total pageSize = false -> 1 <= page + 1 <= pages)).
Proof.
  intros Hp Ht pages. subst pages.
  unfold rangeOf, showing, prevDisabled, nextDisabled, totalPages. cbn [fst snd].
  pose proof (ceilDiv_spec total pageSize Hp) as Hc.
  set (n := ceilDiv total pageSize) in *. clearbody n.
  split; [nia|]. split; [|split; [|split]].
  - intros i Hi.
    pose proof (Z.div_mod i pageSize ltac:(lia)) as Hd.
    pose proof (Z.mod_pos_bound i pageSize Hp) as Hm.
    split; [split; [pose proof (Z.div_pos i pageSize); lia | nia]|].
    split; [nia|]. intros page' Hr. nia.
  - intros page Hpage. split; [lia|]. split; [lia|]. nia.
  - intros page Hpage. nia.
  - intros page Hpage. split; intros H; apply Z.leb_gt in H; lia.
Qed.

(** The theorem for 51 rows in pages of 25: the third page shows row 51
    only. *)
Lemma pages_tile_the_rows_witness :
  totalPages 51 25 = 3
  /\ rangeOf 3 25 = (50, 74)
  /\ showing 3 25 51 = (51, 51).
Proof.
  destruct (pages_tile_the_rows 25 51 ltac:(lia) ltac:(lia)) as (_ & H2 & H3 & _).
  assert (E : totalPages 51 25 = 3) by reflexivity.
  split; [exact E|]. split; [reflexivity|].
  destruct (H3 3 ltac:(rewrite E; lia)) as (A & B & _).
  apply injective_projections; [rewrite A | rewrite B]; reflexivity.
Defined.

End PaginationFacts.

(** ** The storage path of an upload *)

Module UploadFacts.

Import Upload.

Lemma uint_digits u c :
  c ∈ lit (DecimalString.NilEmpty.string_of_uint u) -> (48 <= c <= 57)%N.
Proof.
  unfold lit. induction u; simpl; intros H;
    try (by apply elem_of_nil in H);
    apply elem_of_cons in H as [->|H]; try (by apply IHu); vm_compute; split; discriminate.
Qed.

Lemma Number_toString_safe n c : c ∈ Number_toString n -> isSafeUnit c = true.
Proof.
  unfold Number_toString, DecimalString.NilZero.string_of_int.
  assert (Hu : forall u, c ∈ lit (DecimalString.NilZero.string_of_uint u) ->
                         (48 <= c <= 57)%N).
  { intros u. unfold DecimalString.NilZero.string_of_uint.
    destruct u; try apply uint_digits.
    intros H. apply list_elem_of_singleton in H. subst c. vm_compute. split; discriminate. }
  assert (Hd : (48 <= c <= 57)%N -> isSafeUnit c = true).
  { intros H. unfold isSafeUnit.
    rewrite (proj2 (N.leb_le 48 c)), (proj2 (N.leb_le c 57)) by lia.
    cbn [andb]. by rewrite orb_true_r. }
  destruct (Z.to_int n) as [u|u].
  - intros H. by apply Hd, (Hu u).
  - unfold lit. simpl. intros H. apply elem_of_cons in H as [->|H]; [reflexivity|].
    by apply Hd, (Hu u).
Qed.

Lemma safe_not_slash c : inSafeName c -> c <> 47%N.
Proof. intros [H| ->]; [|discriminate]. intros ->. discriminate. Qed.

Lemma safeName_units name : Forall inSafeName (safeName name).
Proof.
  apply Forall_fmap, Forall_forall. intros c _. unfold inSafeName. simpl.
  destruct (isSafeUnit c) eqn:E; [by left | by right].
Qed.

(** X27. The storage path of an upload is [uploads/] followed by code units
    among letters, digits, dot, hyphen and underscore only: no second
    slash, whatever the name of the file. The parse route never answers 400
    to it, and inserts it as it is. The safe name has the length of the
    file name, keeps the code units the pattern allows in place and has an
    underscore for each other one; a safe name is its own safe name. *)
Theorem storage_path_is_flat timestamp name :
  (exists rest,
     storagePath timestamp name = lit "uploads/" ++ rest
     /\ Forall inSafeName rest /\ 47%N ∉ rest)
  /\ (forall u p answer,
        exists h,
          ParseRoute.POST
            (ParseRoute.mkRequest (Some u) false
               (Ledger.JObj [("pdfStoragePath", Ledger.JStr (storagePath timestamp name))]) p)
            answer = JsDate.Returns h
          /\ ParseRoute.http_status (ParseRoute.response h) <> 400
          /\ forall row, ParseRoute.inserted h = Some row ->
                ParseRoute.nv_pdf_storage_path row
                = Ledger.JStr (storagePath timestamp name))
  /\ length (safeName name) = length name
  /\ (forall i c, name !! i = Some c -> isSafeUnit c = true -> safeName name !! i = Some c)
  /\ (forall i c, name !! i = Some c -> isSafeUnit c = false ->
        safeName name !! i = Some 95%N)
  /\ safeName (safeName name) = safeName name.
Proof.
  split; [|split; [|split; [|split; [|split]]]].
  - exists (Number_toString timestamp ++ lit "_" ++ safeName name).
    split; [reflexivity|].
    assert (H : Forall inSafeName (Number_toString timestamp ++ lit "_" ++ safeName name)).
    { apply Forall_app. split.
      - apply Forall_forall. intros c Hc. left. by eapply Number_toString_safe.
      - apply Forall_app. split; [|apply safeName_units].
        apply Forall_singleton. by right. }
    split; [exact H|].
    intros Hin. rewrite Forall_forall in H. by apply (safe_not_slash _ (H _ Hin)).
  - intros u p answer. unfold ParseRoute.POST.
    cbn [ParseRoute.authError ParseRoute.user ParseRoute.body ParseRoute.profile orb].
    rewrite bool_decide_eq_true_2 by eauto. cbn [negb].
    change (ParseRoute.get_field
              (Ledger.JObj [("pdfStoragePath", Ledger.JStr (storagePath timestamp name))])
              "pdfStoragePath")
      with (Some (Ledger.JStr (storagePath timestamp name))).
    change (ParseRoute.truthyField (Some (Ledger.JStr (storagePath timestamp name))))
      with true.
    cbn [negb default].
    destruct p as [p|]; [destruct (ParseRoute.managerRole (ParseRoute.role p))|];
      [destruct (ParseRoute.insertError answer), (ParseRoute.new_id answer)|..];
      eexists; (split; [reflexivity|]); simpl; (split; [done|]); by intros row [= <-].
  - unfold safeName. by rewrite length_fmap.
  - intros i c Hi Hc. unfold safeName. rewrite list_lookup_fmap, Hi. simpl. by rewrite Hc.
  - intros i c Hi Hc. unfold safeName. rewrite list_lookup_fmap, Hi. simpl. by rewrite Hc.
  - unfold safeName. rewrite <- list_fmap_compose. apply list_fmap_ext.
    intros i c _. simpl. destruct (isSafeUnit c) eqn:E; [by rewrite E | reflexivity].
Qed.

End UploadFacts.
